(** * iv/apl: formatting, array parsing, integers and dictionaries

    A shallow embedding of [apl/int.go], [apl/object.go] and [apl/fmt.go],
    with the properties of the specification that concern them (Part II)
    and further properties of the code (Part III), among them one of
    [testCompare] of [apl/primitives/apl_test.go].

    Conventions.
    - A Go [int] is a 64-bit two's complement integer: a [Z] kept in
      [[-2^63, 2^63)] by [wrap] after every arithmetic operation.
    - A Go [string] is read as its sequence of runes (code points, [Z]);
      the code only inspects strings rune by rune or compares ASCII
      bytes, for which both views agree.
    - Lengths, indexes and the entries of a shape are the sizes of slices
      that exist in memory: they are integers without a bound.
    - A pair [(Value, bool)] whose boolean says that the operation closes is
      an [option]; a pair [(Value, error)] is a [result].
    - Where Go panics at run time (an index or a slice out of range, a
      map access with a key that cannot be hashed, a method called on
      [nil]) the model has [None] or [Panic]. *)

From Stdlib Require Import ZArith Lia List Bool Ascii String.
From Stdlib Require DecimalPos.
From stdpp Require Import base option list gmap.

Import ListNotations.
Local Open Scope Z_scope.

(* ================================================================== *)
(** * Part I: the model *)
(* ================================================================== *)

(** ** Runes and strings *)

Abbreviation rune := Z (only parsing).
Abbreviation gostring := (list Z) (only parsing).

(** The runes of an ASCII literal. *)
Fixpoint runes (s : String.string) : gostring :=
  match s with
  | EmptyString => []
  | String c s' => Z.of_N (N_of_ascii c) :: runes s'
  end.

Definition r_tab : rune := 9.
Definition r_newline : rune := 10.   (* line feed *)
Definition r_space : rune := 32.
Definition r_quote : rune := 34.     (* double quote *)
Definition r_percent : rune := 37.
Definition r_lparen : rune := 40.
Definition r_rparen : rune := 41.
Definition r_plus : rune := 43.
Definition r_comma : rune := 44.
Definition r_minus : rune := 45.     (* ASCII hyphen-minus *)
Definition r_semicolon : rune := 59.
Definition r_lbrack : rune := 91.
Definition r_rbrack : rune := 93.
Definition r_macron : rune := 175.   (* U+00AF, the APL high minus *)

(** [strings.Join]; it is used on sequences of tokens as well. *)
Fixpoint Join {A} (elems : list (list A)) (sep : list A) : list A :=
  match elems with
  | [] => []
  | [e] => e
  | e :: rest => e ++ sep ++ Join rest sep
  end.

(** [strings.Replace(s, old, new, 1)] for one-rune [old] and [new]: only
    the first occurrence is replaced. *)
Fixpoint replace_first (old new : rune) (s : gostring) : gostring :=
  match s with
  | [] => []
  | r :: s' => if r =? old then new :: s' else r :: replace_first old new s'
  end.

(** [strings.Replace(s, old, new, -1)] for one-rune [old] and [new]. *)
Definition replace_all (old new : rune) (s : gostring) : gostring :=
  map (fun r => if r =? old then new else r) s.

(** ** Go's [int] *)

Module GoInt.

Definition min_int : Z := - 2 ^ 63.
Definition max_int : Z := 2 ^ 63 - 1.

Definition in_range (z : Z) : Prop := min_int <= z <= max_int.

Definition wrap (z : Z) : Z := (z + 2 ^ 63) mod 2 ^ 64 - 2 ^ 63.

Definition add (a b : Z) : Z := wrap (a + b).
Definition sub (a b : Z) : Z := wrap (a - b).
Definition mul (a b : Z) : Z := wrap (a * b).
Definition neg (a : Z) : Z := wrap (- a).
(** Truncated division; the quotient of [min_int] by [-1] wraps to
    [min_int].  Division by zero panics in Go and is guarded against by
    every caller below. *)
Definition div (a b : Z) : Z := wrap (Z.quot a b).
Definition rem (a b : Z) : Z := Z.rem a b.

End GoInt.

(** ** [apl/int.go]: arithmetic on [Int] *)

(** [func (a Int) Div2(b Value) (Value, bool)] *)
Definition Int_Div2 (a b : Z) : option Z :=
  let n := b in
  if n =? 0 then None
  else
    let r := GoInt.div a n in
    if GoInt.mul r n =? a then Some r else None.

(** The loop [n := 1; for k := 1; k <= int(i); k++ { n *= k }]: [k] runs
    over [1 .. i]. *)
Definition Gamma_loop (i : Z) : Z :=
  fold_left (fun n k => GoInt.mul n (Z.of_nat k)) (seq 1 (Z.to_nat i)) 1.

(** [func (i Int) Gamma() (Value, bool)] *)
Definition Int_Gamma (i : Z) : option Z :=
  if (i <? 0) || (i >? 20) then None
  else if i =? 0 then Some 1
  else Some (Gamma_loop i).

(** The local closure [m1exp] of [Gamma2]. *)
Definition m1exp (n : Z) : Z :=
  if GoInt.rem n 2 =? 0 then 1 else -1.

(** The six rows of the table that [Gamma2] switches on. *)
Inductive Gamma2_case :=
| GClosed      (* L >= 0, R >= 0, R-L >= 0 : factorials *)
| GZero        (* the three rows that return 0 *)
| GReflectR    (* L >= 0, R < 0, R-L < 0 : recurse on L, L-(1+R) *)
| GReflectLR   (* L < 0, R < 0, R-L >= 0 : recurse on -(R+1), |1+L| *)
| GNone.       (* no row applies *)

Definition Gamma2_select (L R : Z) : Gamma2_case :=
  let RL := GoInt.sub R L in
  if (L >=? 0) && (R >=? 0) && (RL >=? 0) then GClosed
  else if (L >=? 0) && (R >=? 0) && (RL <? 0) then GZero
  else if (L >=? 0) && (R <? 0) && (RL <? 0) then GReflectR
  else if (L <? 0) && (R >=? 0) && (RL >=? 0) then GZero
  else if (L <? 0) && (R <? 0) && (RL >=? 0) then GReflectLR
  else if (L <? 0) && (R <? 0) && (RL <? 0) then GZero
  else GNone.

(** The arguments of the recursive call that [Gamma2] makes on [(L, R)],
    if it makes one. *)
Definition Gamma2_call (L R : Z) : option (Z * Z) :=
  match Gamma2_select L R with
  | GReflectR => Some (L, GoInt.sub L (GoInt.add 1 R))
  | GReflectLR =>
      let al1 := GoInt.add 1 L in
      let al1 := if al1 <? 0 then GoInt.neg al1 else al1 in
      Some (GoInt.neg (GoInt.add R 1), al1)
  | _ => None
  end.

(** [func (L Int) Gamma2(r Value) (Value, bool)].  The Go function calls
    itself; [depth] bounds the number of nested activations, and the outer
    [None] says that the bound was reached. *)
Fixpoint Int_Gamma2 (depth : nat) (L R : Z) : option (option Z) :=
  match depth with
  | O => None
  | S depth' =>
      match Gamma2_select L R with
      | GClosed =>
          Some (match Int_Gamma L with
                | None => None
                | Some lg =>
                    match Int_Gamma R with
                    | None => None
                    | Some rg =>
                        match Int_Gamma (GoInt.sub R L) with
                        | None => None
                        | Some rlg => Some (GoInt.div rg (GoInt.mul lg rlg))
                        end
                    end
                end)
      | GZero => Some (Some 0)
      | GReflectR =>
          match Int_Gamma2 depth' L (GoInt.sub L (GoInt.add 1 R)) with
          | None => None
          | Some None => Some None
          | Some (Some v) => Some (Some (GoInt.mul (m1exp L) v))
          end
      | GReflectLR =>
          let al1 := GoInt.add 1 L in
          let al1 := if al1 <? 0 then GoInt.neg al1 else al1 in
          match Int_Gamma2 depth' (GoInt.neg (GoInt.add R 1)) al1 with
          | None => None
          | Some None => Some None
          | Some (Some v) => Some (Some (GoInt.mul (m1exp (GoInt.sub R L)) v))
          end
      | GNone => Some None
      end
  end.

(** ** [apl/object.go]: [Dict] *)

(** The method [Copy() Value] of the keys and of the values.  A copy may
    be a new object: [Dict.Copy] returns the pointer to a new dictionary.
    New objects get their addresses off a counter, the next free address,
    which every call takes and hands back. *)
Class Copier (A : Type) := Copy : A -> nat -> A * nat.

(** What Go makes of a value as a key of the map [map[Value]Value].  A
    key is hashed and compared through its dynamic type, and a map access
    with a key that cannot be hashed, one whose type holds a slice as the
    arrays of the package do, panics.  A key that is not equal to itself
    under [==], as a floating-point number that is not a number, is never
    found in a map.  On all other keys the equality of the model is Go's
    [==]: by value for numbers and strings, by address for pointers. *)
Class MapKey (A : Type) := {
  hashable : A -> bool;
  self_equal : A -> bool
}.

Section DictModel.
Context {Key Val : Type} `{Countable Key} `{MapKey Key} `{Copier Key} `{Copier Val}.

(** [type Dict struct { K []Value; M map[Value]Value }].  A Go map may be
    [nil]: [M] is [None] then.  The values that the map holds are values
    proper, as [Set] stores them; a key that holds the [nil] interface
    reads as a key without a value. *)
Record Dict := mkDict { K : list Key; M : option (gmap Key Val) }.

(** The zero value [Dict{}]. *)
Definition Dict_zero : Dict := {| K := []; M := None |}.

(** [func (d *Dict) Keys() []Value] *)
Definition Dict_Keys (d : Dict) : list Key := K d.

(** The index expression [m[key]] of a map that is not [nil], for a key
    that can be hashed; [None] is Go's [nil]. *)
Definition map_index (m : gmap Key Val) (key : Key) : option Val :=
  if self_equal key then m !! key else None.

(** The assignment [m[key] = v].  The entry of a key that is not equal to
    itself is never found again; only a [range] over the map would come to
    it, and none of the functions here runs one. *)
Definition map_store (m : gmap Key Val) (key : Key) (v : Val) : gmap Key Val :=
  if self_equal key then <[key := v]> m else m.

(** The index expression [d.M[key]] for a key that can be hashed: [None]
    is Go's [nil], which a missing key and every key of a [nil] map
    read. *)
Definition Dict_get (d : Dict) (key : Key) : option Val :=
  match M d with
  | None => None
  | Some m => map_index m key
  end.

(** [func (d *Dict) At(key Value) Value]; the outer [None] is a panic, the
    inner one is [nil]. *)
Definition Dict_At (d : Dict) (key : Key) : option (option Val) :=
  match M d with
  | None => Some None
  | Some m => if hashable key then Some (map_index m key) else None
  end.

(** What [Set] leaves behind: [kK] and [kM] are what the two calls of
    [key.Copy()] have returned, [v] is what [v.Copy()] has returned. *)
Definition Dict_put (d : Dict) (key kK kM : Key) (v : Val) : Dict :=
  let m := match M d with None => ∅ | Some m => m end in
  let k := match map_index m key with
           | Some _ => K d
           | None => K d ++ [kK]
           end in
  {| K := k; M := Some (map_store m kM v) |}.

(** [func (d *Dict) Set(key Value, v Value) error].  The method updates
    the receiver in place and always returns a [nil] error; the model
    returns the updated dictionary and the next free address, and [None]
    where the method panics. *)
Definition Dict_Set (d : Dict) (key : Key) (v : Val) (next : nat)
  : option (Dict * nat) :=
  let m := match M d with None => ∅ | Some m => m end in
  if negb (hashable key) then None
  else
    let '(kK, next) :=
      match map_index m key with
      | Some _ => (key, next)
      | None => Copy key next
      end in
    let '(kM, next) := Copy key next in
    let '(v', next) := Copy v next in
    if negb (hashable kM) then None
    else Some (Dict_put d key kK kM v', next).

(** A sequence of [Set] operations, applied from left to right. *)
Fixpoint Dict_SetAll (d : Dict) (ops : list (Key * Val)) (next : nat)
  : option (Dict * nat) :=
  match ops with
  | [] => Some (d, next)
  | kv :: ops' =>
      match Dict_Set d kv.1 kv.2 next with
      | None => None
      | Some (d', next') => Dict_SetAll d' ops' next'
      end
  end.

(** The representation invariant of a [Dict]: [K] lists the keys of [M],
    each once. *)
Definition Dict_wf (d : Dict) : Prop :=
  NoDup (K d) /\ forall k, k ∈ K d <-> is_Some (Dict_get d k).

(** Keys that are values, as integers and strings are, the valid variable
    names that the comment of [Set] asks for: they can be hashed, they are
    equal to themselves, and [Copy] returns them as they are, without a new
    object. *)
Definition value_keys : Prop :=
  forall (k : Key) (next : nat),
    hashable k = true /\ self_equal k = true /\ Copy k next = (k, next).

(** First-insertion order: the keys of [l] that are not in [seen], each at
    its first occurrence. *)
Fixpoint first_insertions (seen : list Key) (l : list Key) : list Key :=
  match l with
  | [] => []
  | k :: l' =>
      if decide (k ∈ seen) then first_insertions seen l'
      else k :: first_insertions (k :: seen) l'
  end.

End DictModel.

Arguments Dict : clear implicits.
Arguments Dict _ _ {_ _}.
Arguments value_keys : clear implicits.
Arguments value_keys Key {_ _}.

(** Keys and values that are integers: hashed and compared by value, and
    copied as they are. *)
Definition number_MapKey : MapKey Z :=
  {| hashable := fun _ => true; self_equal := fun _ => true |}.
Definition number_Copier : Copier Z := fun i next => (i, next).

(** Keys that are pointers, as a [*Dict] is: a pointer is hashed and
    compared by its address, and [Copy] returns the address of a new
    object. *)
Inductive pointer := Pointer (addr : nat).

#[global] Instance pointer_eq_dec : EqDecision pointer.
Proof. solve_decision. Defined.

#[global] Program Instance pointer_countable : Countable pointer :=
  inj_countable' (fun p => match p with Pointer a => a end) Pointer _.
Next Obligation. intros []; reflexivity. Qed.

Definition pointer_MapKey : MapKey pointer :=
  {| hashable := fun _ => true; self_equal := fun _ => true |}.
Definition pointer_Copier : Copier pointer :=
  fun _ next => (Pointer next, S next).

(** Keys that are floating-point numbers: hashed and compared by value and
    copied as they are, but the number that is not a number is not equal
    to itself. *)
Inductive float_key := Finite (x : Z) | NaN.

#[global] Instance float_key_eq_dec : EqDecision float_key.
Proof. solve_decision. Defined.

#[global] Program Instance float_key_countable : Countable float_key :=
  inj_countable' (fun k => match k with Finite x => Some x | NaN => None end)
                 (fun o => match o with Some x => Finite x | None => NaN end) _.
Next Obligation. intros []; reflexivity. Qed.

Definition float_MapKey : MapKey float_key :=
  {| hashable := fun _ => true;
     self_equal := fun k => match k with Finite _ => true | NaN => false end |}.
Definition float_Copier : Copier float_key := fun k next => (k, next).

(** ** Values, types and the format configuration *)

(** [reflect.Type], as far as the code tells types apart: the types the
    sources name, and [TOther n] for any further type. *)
Inductive GoType :=
| TInt | TString | TEmptyArray | TMixedArray | TDict | TOther (n : nat).

#[global] Instance GoType_eq_dec : EqDecision GoType.
Proof. solve_decision. Defined.

Definition GoType_code (t : GoType) : nat :=
  match t with
  | TInt => 0 | TString => 1 | TEmptyArray => 2 | TMixedArray => 3 | TDict => 4
  | TOther n => 5 + n
  end%nat.

Definition GoType_of_code (c : nat) : GoType :=
  match c with
  | 0 => TInt | 1 => TString | 2 => TEmptyArray | 3 => TMixedArray | 4 => TDict
  | S (S (S (S (S n)))) => TOther n
  end%nat.

#[global] Program Instance GoType_countable : Countable GoType :=
  inj_countable' GoType_code GoType_of_code _.
Next Obligation. intros []; reflexivity. Qed.

#[local] Set Warnings "-register-all".

(** The [Value] interface, by dynamic type.
    - [VInt]: [apl.Int], a [Number] whose [ToIndex] always succeeds.
    - [VNumber]: a [Number] of another kind of the tower, seen through its
      type and the result of [ToIndex].
    - [VObject]: an [Object], seen through its type, [Keys()] and what
      [At] returns for each key ([None] is [nil]).
    - [VOther]: a value of any further type. *)
Inductive Value :=
| VInt (i : Z)
| VNumber (t : GoType) (toIndex : option Z)
| VString (s : gostring)
| VEmptyArray
| VMixedArray (Dims : list Z) (Values : list Value)
| VObject (t : GoType) (entries : list (Value * option Value))
| VOther (t : GoType).

(** The [Number] interface: what a tower parses a lexeme to. *)
Inductive Number :=
| NInt (i : Z)
| NOther (t : GoType) (toIndex : option Z).

Definition Value_of_Number (n : Number) : Value :=
  match n with
  | NInt i => VInt i
  | NOther t toIndex => VNumber t toIndex
  end.

(** [reflect.TypeOf]. *)
Definition TypeOf (v : Value) : GoType :=
  match v with
  | VInt _ => TInt
  | VNumber t _ => t
  | VString _ => TString
  | VEmptyArray => TEmptyArray
  | VMixedArray _ _ => TMixedArray
  | VObject t _ => t
  | VOther t => t
  end.

(** Go's [error] values, by the message that builds them. *)
Inductive error :=
| io_EOF
| Errorf (msg : String.string).

(** [(Value, error)] and the like. *)
Inductive result (A : Type) :=
| Ok (a : A)
| Err (e : error).
Arguments Ok {A} a.
Arguments Err {A} e.

(** [type Format struct { PP int; Fmt map[reflect.Type]string }], embedded
    in [Apl]. *)
Record Format := mkFormat { PP : Z; Fmt : gmap GoType gostring }.

(** [func (a *Apl) SetPP(R Value) error].  The method updates [a.Format] in
    place; the model returns the configuration it leaves behind together
    with the error ([None] is a [nil] error). *)
Definition SetPP (a : Format) (R : Value) : Format * option error :=
  match R with
  | VEmptyArray => ({| PP := 0; Fmt := ∅ |}, None)
  | VObject _ entries =>
      let fmt' :=
        fold_left
          (fun (m : gmap GoType gostring) (kv : Value * option Value) =>
             match kv.2 with
             | Some (VString s) => <[TypeOf kv.1 := s]> m
             | _ => m
             end)
          entries (Fmt a) in
      ({| PP := PP a; Fmt := fmt' |}, Some (Errorf "illegal type for PP"))
  | VInt i => ({| PP := i; Fmt := Fmt a |}, None)
  | VNumber _ (Some i) => ({| PP := i; Fmt := Fmt a |}, None)
  | _ => (a, Some (Errorf "illegal type for PP"))
  end.

(** ** Decimal digits: [strconv.Atoi] and the [%v] verb *)

(** The digits of a [Decimal.uint] as runes. *)
Fixpoint runes_of_uint (u : Decimal.uint) : gostring :=
  match u with
  | Decimal.Nil => []
  | Decimal.D0 u => 48 :: runes_of_uint u
  | Decimal.D1 u => 49 :: runes_of_uint u
  | Decimal.D2 u => 50 :: runes_of_uint u
  | Decimal.D3 u => 51 :: runes_of_uint u
  | Decimal.D4 u => 52 :: runes_of_uint u
  | Decimal.D5 u => 53 :: runes_of_uint u
  | Decimal.D6 u => 54 :: runes_of_uint u
  | Decimal.D7 u => 55 :: runes_of_uint u
  | Decimal.D8 u => 56 :: runes_of_uint u
  | Decimal.D9 u => 57 :: runes_of_uint u
  end.

Definition is_digit (r : rune) : bool := (48 <=? r) && (r <=? 57).

Fixpoint uint_of_runes (s : gostring) : option Decimal.uint :=
  match s with
  | [] => Some Decimal.Nil
  | r :: s' =>
      match uint_of_runes s' with
      | None => None
      | Some u =>
          if r =? 48 then Some (Decimal.D0 u)
          else if r =? 49 then Some (Decimal.D1 u)
          else if r =? 50 then Some (Decimal.D2 u)
          else if r =? 51 then Some (Decimal.D3 u)
          else if r =? 52 then Some (Decimal.D4 u)
          else if r =? 53 then Some (Decimal.D5 u)
          else if r =? 54 then Some (Decimal.D6 u)
          else if r =? 55 then Some (Decimal.D7 u)
          else if r =? 56 then Some (Decimal.D8 u)
          else if r =? 57 then Some (Decimal.D9 u)
          else None
      end
  end.

(** How [fmt] prints an [int] under [%v] and [%d]: a minus sign for
    negative numbers, then the decimal digits. *)
Definition itoa (z : Z) : gostring :=
  match Z.to_int z with
  | Decimal.Pos u => runes_of_uint u
  | Decimal.Neg u => r_minus :: runes_of_uint u
  end.

(** [strconv.Atoi]: an optional sign, at least one decimal digit and
    nothing else; a value outside of [int] is an error. *)
Definition Atoi (s : gostring) : option Z :=
  let '(negative, digits) :=
    match s with
    | r :: s' =>
        if r =? r_minus then (true, s')
        else if r =? r_plus then (false, s')
        else (false, s)
    | [] => (false, [])
    end in
  match digits with
  | [] => None
  | _ =>
      match uint_of_runes digits with
      | None => None
      | Some u =>
          let n := Z.of_N (N.of_uint u) in
          let z := if negative then - n else n in
          if (GoInt.min_int <=? z) && (z <=? GoInt.max_int) then Some z else None
      end
  end.

(** [func ParseInt(s string) (Number, bool)] *)
Definition ParseInt (s : gostring) : option Z :=
  let s := replace_all r_macron r_minus s in
  Atoi s.

(** ** What the sources leave out

    The sources use parts of the package and of Go's library that are not
    among them.  They are collected here; every definition below takes them
    as given and every property below holds whatever they are. *)
Class Package := {
  (** What [Prod] returns for an empty shape; for a shape [d :: ds] it is
      the product of the entries. *)
  Prod_nil : Z;
  (** [fmt.Sprintf] with one [Int] argument, on the formats that [Sprintf]
      below does not spell out. *)
  Sprintf_other : gostring -> Z -> gostring;
  (** The [String(f)] method of every [Value] that is not an [Int].  It
      is a function: a value on which the method panics, as a [*Dict]
      whose key list names a key without a value, is not among the values
      of the model. *)
  String_other : Format -> Value -> gostring;
  (** [text/tabwriter]: the blanks in front of cell [j] of line [i], beyond
      the one that the padding of 1 guarantees. *)
  tabwriter_pad : nat -> nat -> nat;
  (** [scan.ReadString] and [scan.ScanNumber] on a rune stream: the lexeme
      and the rest of the stream, or [None] for an error. *)
  scan_ReadString : gostring -> option (gostring * gostring);
  scan_ScanNumber : gostring -> option (gostring * gostring);
  (** [a.Tower.Parse]: the number a lexeme stands for, or [None].  The
      method returns a struct with the number in its field [Number];
      [Tower_Parse] is that field. *)
  Tower_Parse : gostring -> option Number;
  (** The struct that [a.Tower.Parse] returns, as a value of its own:
      [ScanRankArray] returns it as it is for rank 0, and takes its field
      [Number] only where it collects values.  Its type is none of the
      types that are named here. *)
  NumExpr_Value : Number -> Value;
  NumExpr_TypeOf : nat;
  NumExpr_Value_type : forall n, TypeOf (NumExpr_Value n) = TOther NumExpr_TypeOf;
  (** The type assertion [prototype.(Uniform)] and [a.Unify]. *)
  is_Uniform : Value -> bool;
  Unify : Value -> bool -> option Value
}.

(** ** [Int.String] *)

(** [fmt.Sprintf(format, i)] with the single argument [i] of type [apl.Int]
    (which has no [String()] method in the sense of [fmt.Stringer]).  The
    model is exact on the formats it knows: [%v] and [%d] print [itoa i];
    a format without any verb is copied and followed by the marker of an
    unused argument.  Every other format is left to [Sprintf_other]. *)
Definition Sprintf `{Package} (format : gostring) (i : Z) : gostring :=
  if bool_decide (format = runes "%v") || bool_decide (format = runes "%d")
  then itoa i
  else if forallb (fun r => negb (r =? r_percent)) format
  then format ++ runes "%!(EXTRA apl.Int=" ++ itoa i ++ runes ")"
  else Sprintf_other format i.

(** [func (i Int) String(a *Apl) string].  In Go [len(format) > 1] counts
    bytes and [format[0]] is a byte; when that byte is the ASCII minus the
    first rune is one byte long, so that more than one byte means more than
    one rune. *)
Definition Int_String `{Package} (a : Format) (i : Z) : gostring :=
  let format := default [] (Fmt a !! TInt) in
  let minus :=
    (1 <? Z.of_nat (length format)) &&
    match format with r :: _ => r =? r_minus | [] => false end in
  let format := if minus then tail format else format in
  let format := match format with [] => runes "%v" | _ => format end in
  let s := Sprintf format i in
  if negb minus then replace_first r_minus r_macron s else s.

(** The [String(f)] method of the [Value] interface. *)
Definition Value_String `{Package} (f : Format) (v : Value) : gostring :=
  match v with
  | VInt i => Int_String f i
  | _ => String_other f v
  end.

(** ** [apl/fmt.go]: formatting arrays *)

(** Modelled from the spec: [Prod], the product of the entries of a shape
    (the function is not among the sources).  The spec says nothing of the
    empty shape, and [ScanRankArray] does not rely on it (it sets [p = 1]
    itself when the shape is empty): that value is [Prod_nil]. *)
Definition Prod `{Package} (shape : list Z) : Z :=
  match shape with
  | [] => Prod_nil
  | d :: ds => fold_left Z.mul ds d
  end.

(** Modelled from the spec: an implementation of the [Array] interface
    (none is among the sources), a shape vector and the flat sequence of the
    elements in row-major order; [Shape()] is the field [Shape]. *)
Record Array := mkArray { Shape : list Z; Elems : list Value }.

(** [v.Size()] *)
Definition Size (v : Array) : Z := Z.of_nat (length (Elems v)).

(** [v.At(i)]; [None] where Go panics with an index out of range. *)
Definition At (v : Array) (i : Z) : option Value :=
  if i <? 0 then None else Elems v !! Z.to_nat i.

(** The slice expressions [s[lo:hi]], [s[:hi]] and [s[lo:]]; [None] where
    Go panics (slices are taken to be as long as their capacity). *)
Definition slice {A} (s : list A) (lo hi : Z) : option (list A) :=
  if (0 <=? lo) && (lo <=? hi) && (hi <=? Z.of_nat (length s))
  then Some (take (Z.to_nat (hi - lo)) (drop (Z.to_nat lo) s))
  else None.

Definition slice_to {A} (s : list A) (hi : Z) : option (list A) :=
  slice s 0 hi.

Definition slice_from {A} (s : list A) (lo : Z) : option (list A) :=
  slice s lo (Z.of_nat (length s)).

(** The index values [0, 1, ..., n-1] of a loop [for i := 0; i < n; i++]. *)
Definition upto (n : Z) : list Z := Z.of_nat <$> seq 0 (Z.to_nat n).

(** The closure [inc] of [ArrayString]: it advances the index vector [idx]
    like an odometer and returns how many trailing indexes wrapped around,
    or [-1] when all of them did.  [inc_from] walks the indexes from the
    last one, so both lists are given in reverse. *)
Fixpoint inc_from (i : Z) (shape_rev idx_rev : list Z) : list Z * Z :=
  match idx_rev, shape_rev with
  | x :: idx', n :: shape' =>
      if x + 1 =? n then
        let '(idx'', term) := inc_from (i + 1) shape' idx' in (0 :: idx'', term)
      else ((x + 1) :: idx', i)
  | _, _ => (idx_rev, -1)
  end.

Definition inc (shape idx : list Z) : list Z * Z :=
  let '(idx_rev, term) := inc_from 0 (rev shape) (rev idx) in
  (rev idx_rev, term).

(** [text/tabwriter] as [ArrayString] sets it up (minimal width 1, padding
    1, blanks for padding, cells aligned to the right).  A line of the
    input is a sequence of cells, each ended by a tab, and a rest; the cell
    [j] of line [i] is written behind [1 + tabwriter_pad i j] blanks.  (The
    vertical tabs, form feeds and escapes that the writer also knows are
    not modelled.) *)
Fixpoint tw_line `{Package} (i j : nat) (cell line : gostring) : gostring :=
  match line with
  | [] => cell
  | r :: line' =>
      if r =? r_tab
      then replicate (S (tabwriter_pad i j)) r_space ++ cell ++ tw_line i (S j) [] line'
      else tw_line i j (cell ++ [r]) line'
  end.

Fixpoint tw_lines `{Package} (i : nat) (line text : gostring) : gostring :=
  match text with
  | [] => tw_line i 0 [] line
  | r :: text' =>
      if r =? r_newline
      then tw_line i 0 [] line ++ r_newline :: tw_lines (S i) [] text'
      else tw_lines i (line ++ [r]) text'
  end.

(** Everything written to the tabwriter, after [Flush]. *)
Definition tabwriter_Flush `{Package} (text : gostring) : gostring :=
  tw_lines 0 [] text.

(** The loop [for i := 0; i < size; i++] of [ArrayString], [n] rounds from
    index [i] on; [buf] is what was written to the tabwriter so far. *)
Fixpoint table_loop `{Package} (f : Format) (v : Array) (n : nat) (i : Z)
    (idx : list Z) (buf : gostring) : option gostring :=
  match n with
  | O => Some buf
  | S n' =>
      match At v i with
      | None => None
      | Some e =>
          let buf := buf ++ Value_String f e ++ [r_tab] in
          let '(idx, term) := inc (Shape v) idx in
          let buf :=
            if term >? 0 then buf ++ replicate (Z.to_nat term) r_newline
            else if term =? -1 then buf ++ [r_newline]
            else buf in
          table_loop f v n' (i + 1) idx buf
      end
  end.

(** [func stringArray(f Format, v Array) StringArray] *)
Definition stringArray `{Package} (f : Format) (v : Array)
  : list Z * list gostring :=
  (Shape v, Value_String f <$> Elems v).

(** The recursive closure [vector] of [jsonArray]. *)
Fixpoint vector `{Package} (Dims : list Z) (Strings : list gostring)
  : option gostring :=
  match Dims with
  | [] => None
  | [d] =>
      s ← slice_to Strings d;
      Some (runes "[" ++ Join s (runes ",") ++ runes "]")
  | d :: ds =>
      if d <? 0 then None
      else
        let inc := Prod ds in
        vec ← mapM (fun i => sub ← slice_from Strings (i * inc); vector ds sub)
                   (upto d);
        Some (runes "[" ++ Join vec (runes ",") ++ runes "]")
  end.

(** [func jsonArray(f Format, v Array) string] *)
Definition jsonArray `{Package} (f : Format) (v : Array) : option gostring :=
  let sa := stringArray f v in
  vector sa.1 sa.2.

(** The row loop of [matArray]: [n] rows from row [i] on. *)
Fixpoint mat_rows (Dims0 Dims1 : Z) (Strings : list gostring)
    (n : nat) (i off : Z) (b : gostring) : option gostring :=
  match n with
  | O => Some b
  | S n' =>
      row ← slice Strings off (off + Dims1);
      let b := b ++ Join row (runes ",") in
      let b := if i <? Dims0 - 1 then b ++ runes ";" else b in
      mat_rows Dims0 Dims1 Strings n' (i + 1) (off + Dims1) b
  end.

(** [func matArray(f Format, v Array) string] *)
Definition matArray `{Package} (f : Format) (v : Array) : option gostring :=
  let sa := stringArray f v in
  match sa.1 with
  | [_] => Some (runes "[" ++ Join sa.2 (runes ",") ++ runes "]")
  | [d0; d1] =>
      b ← mat_rows d0 d1 sa.2 (Z.to_nat d0) 0 0 (runes "[");
      Some (b ++ runes "]")
  | _ => Some (runes "[rank error]")
  end.

(** [func ArrayString(f Format, v Array) string]; [None] where Go panics. *)
Definition ArrayString `{Package} (f : Format) (v : Array) : option gostring :=
  if PP f =? -2 then jsonArray f v
  else if PP f =? -3 then matArray f v
  else
    let shape := Shape v in
    match shape with
    | [] => Some []
    | [n] =>
        if n <? 0 then None
        else
          s ← mapM (fun i => Value_String f <$> At v i) (upto n);
          Some (Join s (runes " "))
    | _ =>
        let size := fold_left Z.mul shape 1 in
        let idx := replicate (length shape) 0 in
        buf ← table_loop f v (Z.to_nat size) 0 idx [];
        let s := tabwriter_Flush buf in
        match last s with
        | Some r => if r =? r_newline then Some (removelast s) else Some s
        | None => Some s
        end
    end.

(** ** [apl/fmt.go]: parsing arrays *)

(** How a call of a Go function ends: it returns, it panics, or the bound
    on the number of loop rounds of the model was too small. *)
Inductive run (A : Type) :=
| Done (a : A)
| Panic
| OutOfFuel.
Arguments Done {A} a.
Arguments Panic {A}.
Arguments OutOfFuel {A}.

(** [unicode.IsSpace]: Unicode's White_Space property. *)
Definition IsSpace (r : rune) : bool :=
  ((9 <=? r) && (r <=? 13)) || (r =? 32) || (r =? 133) || (r =? 160) ||
  (r =? 5760) || ((8192 <=? r) && (r <=? 8202)) || (r =? 8232) ||
  (r =? 8233) || (r =? 8239) || (r =? 8287) || (r =? 12288).

(** The runes that end an axis: newline, semicolon and closing bracket. *)
Definition is_terminator (r : rune) : bool :=
  (r =? r_newline) || (r =? r_semicolon) || (r =? r_rbrack).

(** The runes that are skipped: white space, comma, opening bracket and
    the parentheses. *)
Definition is_skipped (r : rune) : bool :=
  IsSpace r || (r =? r_comma) || (r =? r_lbrack) || (r =? r_lparen) ||
  (r =? r_rparen).

(** How the [for] loop of [ScanRankArray] ends. *)
Inductive scan_end :=
| ScanReturn (v : Value) (rest : gostring)
    (* [return String(str), nil] or [return n, nil], for rank 0; [n] is
       the struct that the tower returns, not the number in it *)
| ScanBreak (values : list Value) (shape : list Z) (rest : gostring)
    (* [break], at the end of the input or at the terminator of the rank *)
| ScanError (e : error)
    (* [return nil, fmt.Errorf(...)] *)
| ScanPanic
    (* an integer division by zero *)
| ScanFuel.

(** The [for] loop of [ScanRankArray]: one round per rune read.  [s] is the
    rest of the rune stream, [values], [c] and [shape] are the variables of
    the Go function.  A [nil] shape is the empty list; once assigned, the
    shape is never empty. *)
Fixpoint scan_loop `{Package} (fuel : nat) (rank : Z) (s : gostring)
    (values : list Value) (c : Z) (shape : list Z) : scan_end :=
  match fuel with
  | O => ScanFuel
  | S fuel' =>
      match s with
      | [] => ScanBreak values shape []
      | r :: s' =>
          if is_terminator r then
            if Z.of_nat (length values) =? 0 then
              scan_loop fuel' rank s' values c shape
            else
              let c := c + 1 in
              if c =? rank then ScanBreak values shape s'
              else if c >? Z.of_nat (length shape) then
                match shape with
                | [] =>
                    scan_loop fuel' rank s' values c [Z.of_nat (length values)]
                | _ =>
                    let p := Prod shape in
                    if p =? 0 then ScanPanic
                    else
                      scan_loop fuel' rank s' values c
                        (Z.of_nat (length values) ÷ p :: shape)
                end
              else scan_loop fuel' rank s' values c shape
          else if is_skipped r then scan_loop fuel' rank s' values c shape
          else if r =? r_quote then
            match scan_ReadString s with
            | None => ScanError (Errorf "parse array: string")
            | Some (str, rest) =>
                if rank =? 0 then ScanReturn (VString str) rest
                else scan_loop fuel' rank rest (values ++ [VString str]) 0 shape
            end
          else
            match scan_ScanNumber s with
            | None => ScanError (Errorf "parse array: number")
            | Some (num, rest) =>
                match Tower_Parse num with
                | None => ScanError (Errorf "parse array: number")
                | Some n =>
                    if rank =? 0 then ScanReturn (NumExpr_Value n) rest
                    else
                      scan_loop fuel' rank rest
                        (values ++ [Value_of_Number n]) 0 shape
                end
            end
      end
  end.

(** The loop [for i := 0; i <= rank-len(shape); i++] at the end of
    [ScanRankArray]; the bound is evaluated anew in every round, with the
    shape as it has grown.  [n] bounds the number of rounds. *)
Fixpoint fill_loop `{Package} (n : nat) (rank nvalues i : Z) (shape : list Z)
  : run (result (list Z)) :=
  if i <=? rank - Z.of_nat (length shape) then
    match n with
    | O => OutOfFuel
    | S n' =>
        let p := match shape with [] => 1 | _ => Prod shape end in
        if negb (bool_decide (shape = [])) && (p =? 0) then
          Done (Err (Errorf "parse array: divide by zero"))
        else
          let shape := nvalues ÷ p :: shape in
          if negb (Prod shape =? nvalues) then
            Done (Err (Errorf "parse array: array is not rectangular"))
          else fill_loop n' rank nvalues (i + 1) shape
    end
  else Done (Ok shape).

(** What [ScanRankArray] does once its [for] loop has ended by [break]. *)
Definition scan_finish `{Package} (rank : Z) (values : list Value)
    (shape : list Z) : run (result Value) :=
  let nvalues := Z.of_nat (length values) in
  if nvalues =? 0 then Done (Err io_EOF)
  else
    let rank :=
      if rank <? 0 then
        if Prod shape =? nvalues then Z.of_nat (length shape) - 1
        else Z.of_nat (length shape)
      else rank in
    match fill_loop (Z.to_nat (rank - Z.of_nat (length shape) + 1))
                    rank nvalues 0 shape with
    | Done (Ok shape) => Done (Ok (VMixedArray shape values))
    | Done (Err e) => Done (Err e)
    | Panic => Panic
    | OutOfFuel => OutOfFuel
    end.

(** [func (a *Apl) ScanRankArray(s io.RuneScanner, rank int) (Value, error)]:
    the result and the runes that are left in the scanner. *)
Definition ScanRankArray `{Package} (s : gostring) (rank : Z)
  : run (result Value * gostring) :=
  match scan_loop (S (length s)) rank s [] 0 [] with
  | ScanReturn v rest => Done (Ok v, rest)
  | ScanError e => Done (Err e, [])
  | ScanPanic => Panic
  | ScanFuel => OutOfFuel
  | ScanBreak values shape rest =>
      match scan_finish rank values shape with
      | Done r => Done (r, rest)
      | Panic => Panic
      | OutOfFuel => OutOfFuel
      end
  end.

(** [func (a *Apl) ParseArray(prototype Value, s string) (Value, error)];
    a [nil] prototype is [None]. *)
Definition ParseArray `{Package} (prototype : option Value) (s : gostring)
  : run (result Value) :=
  match ScanRankArray s (-1) with
  | Panic => Panic
  | OutOfFuel => OutOfFuel
  | Done (Err e, _) => Done (Err (Errorf "parse array"))
  | Done (Ok v, _) =>
      match prototype with
      | Some u =>
          if is_Uniform u then
            match Unify v true with
            | None => Done (Err (Errorf "parse array: array has no uniform type"))
            | Some res =>
                if negb (bool_decide (TypeOf res = TypeOf u)) then
                  Done (Err (Errorf "parse array: result has wrong type"))
                else Done (Ok res)
            end
          else Done (Ok v)
      | None => Done (Ok v)
      end
  end.

(** ** A host with an integer tower

    One way to fill in [Package], used to run the model on concrete
    inputs: the tower has the single kind [Int]. *)

(** The longest prefix of decimal digits, and the rest. *)
Fixpoint span_digits (s : gostring) : gostring * gostring :=
  match s with
  | [] => ([], [])
  | r :: s' =>
      if is_digit r then let '(d, rest) := span_digits s' in (r :: d, rest)
      else ([], s)
  end.

(** [[¯]?DIGITS]: an optional high minus and at least one digit. *)
Definition scan_signed_digits (s : gostring) : option (gostring * gostring) :=
  let '(sign, s1) :=
    match s with
    | r :: s' => if r =? r_macron then ([r], s') else ([], s)
    | [] => ([], s)
    end in
  match span_digits s1 with
  | ([], _) => None
  | (d, rest) => Some (sign ++ d, rest)
  end.

(** [[¯]?DIGITS(.DIGITS)?([Ee][¯]?DIGITS)?] *)
Definition scan_real (s : gostring) : option (gostring * gostring) :=
  match scan_signed_digits s with
  | None => None
  | Some (int_part, s1) =>
      let '(frac, s2) :=
        match s1 with
        | r :: s' =>
            if r =? 46 then
              match span_digits s' with
              | ([], _) => ([], s1)
              | (d, rest) => (r :: d, rest)
              end
            else ([], s1)
        | [] => ([], s1)
        end in
      let '(exp, s3) :=
        match s2 with
        | r :: s' =>
            if (r =? 69) || (r =? 101) then
              match scan_signed_digits s' with
              | None => ([], s2)
              | Some (d, rest) => (r :: d, rest)
              end
            else ([], s2)
        | [] => ([], s2)
        end in
      Some (int_part ++ frac ++ exp, s3)
  end.

(** Modelled from the spec: [scan.ScanNumber] (package [scan] is not among
    the sources), after the number literal grammar
    [[¯]?DIGITS(.DIGITS)?([Ee][¯]?DIGITS)?([Jj@][¯]?NUM)?[tag]?], without the
    type tag.  It returns the lexeme and leaves the rest in the scanner. *)
Definition ScanNumber (s : gostring) : option (gostring * gostring) :=
  match scan_real s with
  | None => None
  | Some (re, s1) =>
      match s1 with
      | r :: s' =>
          if (r =? 74) || (r =? 106) || (r =? 64) then
            match scan_real s' with
            | None => Some (re, s1)
            | Some (im, rest) => Some (re ++ r :: im, rest)
            end
          else Some (re, s1)
      | [] => Some (re, s1)
      end
  end.

(** The runes of a double-quoted string up to the closing quote, with the
    escapes for newline, carriage return, tab, backslash and quote. *)
Fixpoint read_quoted (s : gostring) : option (gostring * gostring) :=
  match s with
  | [] => None
  | r :: s' =>
      if r =? r_quote then Some ([], s')
      else if r =? 92 then
        match s' with
        | e :: s'' =>
            let c := if e =? 110 then Some 10
                     else if e =? 114 then Some 13
                     else if e =? 116 then Some 9
                     else if e =? 92 then Some 92
                     else if e =? r_quote then Some r_quote
                     else None in
            match c, read_quoted s'' with
            | Some c, Some (str, rest) => Some (c :: str, rest)
            | _, _ => None
            end
        | [] => None
        end
      else
        match read_quoted s' with
        | Some (str, rest) => Some (r :: str, rest)
        | None => None
        end
  end.

(** Modelled from the spec: [scan.ReadString] (package [scan] is not among
    the sources), for the double-quoted form with backslash escapes, the
    only form that [ScanRankArray] hands to it; the escape with four
    hexadecimal digits is left out. *)
Definition ReadString (s : gostring) : option (gostring * gostring) :=
  match s with
  | r :: s' => if r =? r_quote then read_quoted s' else None
  | [] => None
  end.

(** The tower with the single kind [Int]: a lexeme is a number if
    [ParseInt] accepts it. *)
Definition IntTower_Parse (num : gostring) : option Number :=
  NInt <$> ParseInt num.

(** The struct of the tower in this host: a number of a further type, with
    the index of the number in it. *)
Definition IntTower_NumExpr (n : Number) : Value :=
  VNumber (TOther 0)
          match n with
          | NInt i => Some i
          | NOther _ toIndex => toIndex
          end.

Definition IntHost : Package := {|
  Prod_nil := 0;
  Sprintf_other := fun _ _ => [];
  String_other := fun _ _ => [];
  tabwriter_pad := fun _ _ => O;
  scan_ReadString := ReadString;
  scan_ScanNumber := ScanNumber;
  Tower_Parse := IntTower_Parse;
  NumExpr_Value := IntTower_NumExpr;
  NumExpr_TypeOf := 0;
  NumExpr_Value_type := fun _ => eq_refl;
  is_Uniform := fun _ => false;
  Unify := fun _ _ => None
|}.

(** ** Words of the specification *)

(** The rows of a matrix: [n] consecutive pieces of [width] elements. *)
Fixpoint chunks {A} (n width : nat) (l : list A) : list (list A) :=
  match n with
  | O => []
  | S n' => take width l :: chunks n' width (drop width l)
  end.

(** The product of the entries of a shape. *)
Definition product (shape : list Z) : Z := fold_right Z.mul 1 shape.


(** What the [for] loop of [ScanRankArray] keeps true of its variables: a
    shape that was assigned has entries whose product lies between one and
    the number of values; for a positive rank the terminator count and the
    length of the shape stay below it; for rank 0 no value is collected. *)
Definition scan_inv `{Package} (rank : Z) (values : list Value) (c : Z)
    (shape : list Z) : Prop :=
  (shape = [] \/ 1 <= Prod shape <= Z.of_nat (length values)) /\
  (0 < rank -> c < rank /\ Z.of_nat (length shape) < rank) /\
  (rank = 0 -> values = []).

(** ** The reader behind [iv→r] *)

(** Modelled from the spec: [read(rank)], the reader of package [iv] that
    the data primitive [iv→r] runs on the standard input (the package is not
    among the sources; [TestIv] calls it and gives the output it expects).
    It takes one value of the given rank after the other off the input,
    each with [ScanRankArray], until the input is used up: rank 0 reads
    single values, rank 1 whole lines as vectors, rank 2 blocks of lines as
    matrices.  Each row goes out with a flag.  The spec names flags for
    the table and the chunk of a row and does not say how they are
    computed; the output that [TestIv] expects shows one number behind each
    row, 0 at first and 1 from the first row on behind which the input goes
    on with a newline: that number is the flag here. *)
Fixpoint read_rows `{Package} (fuel : nat) (rank : Z) (s : gostring) (flag : Z)
  : list (Value * Z) :=
  match fuel with
  | O => []
  | S fuel' =>
      match ScanRankArray s rank with
      | Done (Ok v, rest) =>
          let flag :=
            match rest with
            | r :: _ => if r =? r_newline then 1 else flag
            | [] => flag
            end in
          (v, flag) :: read_rows fuel' rank rest flag
      | _ => []
      end
  end.

Definition iv_read `{Package} (rank : Z) (s : gostring) : list (Value * Z) :=
  read_rows (S (length s)) rank s 0.

(** What the expected output of [TestIv] shows of a value: a number, a
    vector of numbers or a matrix of numbers. *)
Inductive shown :=
| ShownNumber (i : Z)
| ShownVector (l : list Z)
| ShownMatrix (rows cols : Z) (l : list Z).

(** A row of the table [testCases] of [TestIv]: the data on the standard
    input, the rank that the program passes to [iv→r], and the rows that
    the expected output shows, each a value and a flag. *)
Record TestIv_case := mkCase {
  tc_data : gostring;
  tc_rank : Z;
  tc_rows : list (shown * Z)
}.

Definition vec (l : list Z) : Value :=
  VMixedArray [Z.of_nat (length l)] (VInt <$> l).

Definition mat (rows cols : Z) (l : list Z) : Value :=
  VMixedArray [rows; cols] (VInt <$> l).

(** The value that is shown so.  A single number comes from the reader of
    rank 0, which hands on what [ScanRankArray] returns for rank 0: the
    struct of the tower. *)
Definition value_shown `{Package} (x : shown) : Value :=
  match x with
  | ShownNumber i => NumExpr_Value (NInt i)
  | ShownVector l => vec l
  | ShownMatrix rows cols l => mat rows cols l
  end.

(** The rows of [testCases] that read data, in the order of the source
    (the first row has no data and is left out; so is the row that prints
    shapes instead of values). *)
Definition TestIv_cases : list TestIv_case := [
  mkCase (runes "7 8") 0 [(ShownNumber 7, 0); (ShownNumber 8, 0)];
  mkCase (runes "7 8" ++ [r_newline] ++ runes "9") 0
         [(ShownNumber 7, 0); (ShownNumber 8, 1); (ShownNumber 9, 1)];
  mkCase (runes "7 8") 1 [(ShownVector [7; 8], 0)];
  mkCase (runes "3 4" ++ [r_newline] ++ runes "5 6") 1
         [(ShownVector [3; 4], 0); (ShownVector [5; 6], 0)];
  mkCase (runes "3" ++ [r_newline] ++ runes "4" ++ [r_newline] ++ runes "5") 1
         [(ShownVector [3], 0); (ShownVector [4], 0); (ShownVector [5], 0)];
  mkCase (runes "3 4" ++ [r_newline] ++ runes "5 6" ++ [r_newline; r_newline]
          ++ runes "7 8") 1
         [(ShownVector [3; 4], 0); (ShownVector [5; 6], 1); (ShownVector [7; 8], 1)];
  mkCase (runes "7") 1 [(ShownVector [7], 0)];
  mkCase (runes "3 4" ++ [r_newline] ++ runes "5 6") 2
         [(ShownMatrix 2 2 [3; 4; 5; 6], 0)];
  mkCase (runes "3 4" ++ [r_newline] ++ runes "5 6" ++ [r_newline; r_newline]
          ++ runes "1 2" ++ [r_newline] ++ runes "3 4") 2
         [(ShownMatrix 2 2 [3; 4; 5; 6], 0); (ShownMatrix 2 2 [1; 2; 3; 4], 0)]
].

(** ** Round trip: the text of an array as a sequence of tokens *)

(** What [ScanRankArray] makes of a text: the values that it scans and the
    terminators that it counts. *)
Inductive token :=
| TElem (e : Value)
| TTerm.

(** A text at whose beginning a lexeme ends: the end of the input, a
    terminator or a rune that is skipped. *)
Definition delimited (text : gostring) : Prop :=
  match text with
  | [] => True
  | r :: _ => is_terminator r || is_skipped r = true
  end.

(** The two last branches of the loop of [ScanRankArray]: the value that is
    scanned off the stream, and the rest of the stream. *)
Definition scan_elem `{Package} (s : gostring) : option (Value * gostring) :=
  match s with
  | [] => None
  | r :: _ =>
      if r =? r_quote then
        match scan_ReadString s with
        | None => None
        | Some (str, rest) => Some (VString str, rest)
        end
      else
        match scan_ScanNumber s with
        | None => None
        | Some (num, rest) =>
            match Tower_Parse num with
            | None => None
            | Some n => Some (Value_of_Number n, rest)
            end
        end
  end.

(** A value that survives printing and scanning on its own: its string
    begins with a rune that starts a lexeme, has no tab and no newline in
    it, and is scanned back to the value wherever a lexeme may end. *)
Definition elem_round_trips `{Package} (f : Format) (e : Value) : Prop :=
  (exists r lex, Value_String f e = r :: lex /\
                 is_terminator r = false /\ is_skipped r = false) /\
  (forall r, r ∈ Value_String f e -> r <> r_tab /\ r <> r_newline) /\
  (forall rest, delimited rest ->
     scan_elem (Value_String f e ++ rest) = Some (e, rest)).

(** [renders f text toks]: the text consists of the strings of the values
    and of the terminators of [toks], in this order, with skipped runes in
    between. *)
Inductive renders `{Package} (f : Format) : gostring -> list token -> Prop :=
| renders_nil : renders f [] []
| renders_skip r text toks :
    is_terminator r = false -> is_skipped r = true ->
    renders f text toks -> renders f (r :: text) toks
| renders_term r text toks :
    is_terminator r = true ->
    renders f text toks -> renders f (r :: text) (TTerm :: toks)
| renders_elem e text toks :
    elem_round_trips f e -> delimited text ->
    renders f text toks -> renders f (Value_String f e ++ text) (TElem e :: toks).

(** One round of the loop of [ScanRankArray] for unrestricted rank, on a
    token: the variables [values], [c] and [shape] afterwards; [None] is
    the division by zero. *)
Definition tok_step `{Package} (st : option (list Value * Z * list Z))
    (t : token) : option (list Value * Z * list Z) :=
  match st with
  | None => None
  | Some (values, c, shape) =>
      match t with
      | TElem e => Some (values ++ [e], 0, shape)
      | TTerm =>
          if Z.of_nat (length values) =? 0 then Some (values, c, shape)
          else
            let c := c + 1 in
            if c >? Z.of_nat (length shape) then
              match shape with
              | [] => Some (values, c, [Z.of_nat (length values)])
              | _ =>
                  let p := Prod shape in
                  if p =? 0 then None
                  else Some (values, c, Z.of_nat (length values) ÷ p :: shape)
              end
            else Some (values, c, shape)
      end
  end.

Definition tok_run `{Package} (toks : list token)
    (st : option (list Value * Z * list Z)) : option (list Value * Z * list Z) :=
  fold_left tok_step toks st.

(** The tokens of an array without its end: the values in row-major
    order; the parts along the first axis are separated by as many
    terminators as the parts have axes. *)
Fixpoint block (dims : list Z) (elems : list Value) : list token :=
  match dims with
  | [] => []
  | [d] => TElem <$> elems
  | d :: ds =>
      Join (block ds <$> chunks (Z.to_nat d) (Z.to_nat (product ds)) elems)
           (replicate (length ds) TTerm)
  end.

(** The shape that the terminators inside [block dims] establish. *)
Fixpoint established (dims : list Z) : list Z :=
  match dims with
  | [] => []
  | d :: ds => if d =? 1 then established ds else ds
  end.

(** The round trip of the specification: the array is printed, and the
    text is parsed to a mixed array of the same shape and elements. *)
Definition round_trip `{Package} (f : Format) (v : Array) : Prop :=
  exists text,
    ArrayString f v = Some text /\
    ParseArray None text = Done (Ok (VMixedArray (Shape v) (Elems v))).

(** The shapes that come back, by output mode. *)
Definition round_trip_shape `{Package} (pp : Z) (shape : list Z) : Prop :=
  match shape with
  | [] => False
  | d :: ds =>
      pp = -2 \/
      (pp = -3 /\ (ds = [] \/ (length ds = 1%nat /\ 2 <= d))) \/
      (pp = -1 /\ ((ds = [] /\ Prod_nil <> d) \/ (ds <> [] /\ 2 <= d)))
  end.

(** The string of an [Int] without a registered format. *)
Definition Int_lexeme (i : Z) : gostring :=
  replace_first r_minus r_macron (itoa i).

(** A tower that reads the integers that [Int.String] writes. *)
Definition int_tower `{Package} : Prop :=
  (forall i rest, GoInt.in_range i -> delimited rest ->
     scan_ScanNumber (Int_lexeme i ++ rest) = Some (Int_lexeme i, rest)) /\
  (forall i, GoInt.in_range i -> Tower_Parse (Int_lexeme i) = Some (NInt i)).

(** The digits of the absolute value. *)
Definition Int_digits (i : Z) : gostring :=
  match i with
  | 0 => [48]
  | Z.pos p | Z.neg p => runes_of_uint (Pos.to_uint p)
  end.

(** What [ArrayString] writes to the tabwriter for a sequence of tokens: a
    value and a tab, or a newline. *)
Definition raw_token `{Package} (f : Format) (t : token) : gostring :=
  match t with
  | TElem e => Value_String f e ++ [r_tab]
  | TTerm => [r_newline]
  end.

Definition raw `{Package} (f : Format) (toks : list token) : gostring :=
  concat (raw_token f <$> toks).

(** What the tabwriter makes of it, from cell [j] of line [i] on. *)
Fixpoint tw_out `{Package} (f : Format) (i j : nat) (toks : list token)
  : gostring :=
  match toks with
  | [] => []
  | TElem e :: toks' =>
      replicate (S (tabwriter_pad i j)) r_space ++ Value_String f e
      ++ tw_out f i (S j) toks'
  | TTerm :: toks' => r_newline :: tw_out f (S i) 0 toks'
  end.

(** The newlines that [ArrayString] writes after a value, from the result
    of [inc]. *)
Definition term_count (term : Z) : nat :=
  if term >? 0 then Z.to_nat term else if term =? -1 then 1%nat else O.

(** A value whose string has no tab and no newline in it. *)
Definition plain `{Package} (f : Format) (e : Value) : Prop :=
  forall r, r ∈ Value_String f e -> r <> r_tab /\ r <> r_newline.

(** The format string that an object leaves for the type [t]: the string of
    the last of its keys of type [t] whose value is a [String], or else
    what was there before. *)
Definition object_format (before : option gostring)
    (entries : list (Value * option Value)) (t : GoType) : option gostring :=
  fold_left
    (fun acc (kv : Value * option Value) =>
       match kv.2 with
       | Some (VString s) => if decide (TypeOf kv.1 = t) then Some s else acc
       | _ => acc
       end)
    entries before.

(** ** [apl/int.go]: the other operations on [Int]

    The monadic and dyadic primitives of the numeric tower; an operation
    that does not close on [Int] returns [None] and is retried on the next
    kind of the tower by its caller. *)

(** [func (i Int) ToIndex() (int, bool)] *)
Definition Int_ToIndex (i : Z) : option Z := Some i.

(** [func (i Int) Less(R Value) (Bool, bool)] *)
Definition Int_Less (i R : Z) : option bool := Some (i <? R).

(** [func (i Int) Add() (Value, bool)] *)
Definition Int_Add (i : Z) : option Z := Some i.

(** [func (i Int) Add2(R Value) (Value, bool)] *)
Definition Int_Add2 (i R : Z) : option Z := Some (GoInt.add i R).

(** [func (i Int) Sub() (Value, bool)] *)
Definition Int_Sub (i : Z) : option Z := Some (GoInt.neg i).

(** [func (i Int) Sub2(R Value) (Value, bool)] *)
Definition Int_Sub2 (i R : Z) : option Z := Some (GoInt.sub i R).

(** [func (i Int) Mul() (Value, bool)]: the signum. *)
Definition Int_Mul (i : Z) : option Z :=
  if i >? 0 then Some 1
  else if i <? 0 then Some (-1)
  else Some 0.

(** [func (i Int) Mul2(R Value) (Value, bool)] *)
Definition Int_Mul2 (i R : Z) : option Z := Some (GoInt.mul i R).

(** [func (i Int) Div() (Value, bool)]: the reciprocal. *)
Definition Int_Div (i : Z) : option Z :=
  if i =? 1 then Some 1
  else if i =? -1 then Some (-1)
  else None.

(** [func (i Int) Pow() (Value, bool)]: the exponential. *)
Definition Int_Pow (i : Z) : option Z :=
  if i =? 0 then Some 1 else None.

(** [func (i Int) Pow2(R Value) (Value, bool)] *)
Definition Int_Pow2 (i R : Z) : option Z := None.

(** [func (i Int) Log() (Value, bool)] *)
Definition Int_Log (i : Z) : option Z := None.

(** [func (i Int) Log2() (Value, bool)] *)
Definition Int_Log2 (i : Z) : option Z := None.

(** [func (i Int) Abs() (Value, bool)] *)
Definition Int_Abs (i : Z) : option Z :=
  if i <? 0 then Some (GoInt.neg i) else Some i.

(** [func (i Int) Ceil() (Value, bool)] *)
Definition Int_Ceil (i : Z) : option Z := Some i.

(** [func (i Int) Floor() (Value, bool)] *)
Definition Int_Floor (i : Z) : option Z := Some i.

(** ** [apl/object.go]: printing a [Dict] *)

(** The method [String(f Format) string] of the [Value] interface, for the
    keys and for the values of a dictionary; [None] where the method
    panics, as [Dict.String] itself does on a key without a value. *)
Class Stringer (A : Type) := to_String : Format -> A -> option gostring.

Definition r_vtab : rune := 11.      (* vertical tab *)
Definition r_formfeed : rune := 12.  (* form feed *)
Definition r_colon : rune := 58.
Definition r_lbrace : rune := 123.
Definition r_rbrace : rune := 125.

Section DictString.
Context {Key Val : Type} `{Countable Key} `{MapKey Key} `{Stringer Key} `{Stringer Val}.

(** The loop [for i, key := range keys] of [jsonString] and of [matString],
    which differ in the rune [sep] between a key and its value; [b] is the
    builder.  A key without a value makes [At] return [nil], and calling
    [String] on it panics. *)
Fixpoint entries_loop (f : Format) (d : Dict Key Val) (sep : rune)
    (i : nat) (keys : list Key) (b : gostring) : option gostring :=
  match keys with
  | [] => Some b
  | key :: keys' =>
      let b := if (0 <? i)%nat then b ++ [r_comma] else b in
      match to_String f key with
      | None => None
      | Some k =>
          match Dict_At d key with
          | Some (Some val) =>
              match to_String f val with
              | None => None
              | Some v => entries_loop f d sep (S i) keys' (b ++ k ++ [sep] ++ v)
              end
          | _ => None
          end
      end
  end.

(** [func (d *Dict) jsonString(f Format) string]; [None] where Go panics. *)
Definition Dict_jsonString (f : Format) (d : Dict Key Val) : option gostring :=
  b ← entries_loop f d r_colon 0 (Dict_Keys d) [r_lbrace];
  Some (b ++ [r_rbrace]).

(** [func (d *Dict) matString(f Format) string]; [None] where Go panics. *)
Definition Dict_matString (f : Format) (d : Dict Key Val) : option gostring :=
  b ← entries_loop f d r_comma 0 (Dict_Keys d) (runes "struct(");
  Some (b ++ [r_rparen]).

(** [text/tabwriter] as [Dict.String] sets it up (minimal width 1, padding
    1, blanks for padding, cells aligned to the left, no flags).  A tab and
    a vertical tab end a cell, a newline and a form feed end a line, and
    the writer ends the line with a newline for either.  The cell [j] of
    line [i] is followed by [1 + pad i j] blanks: the widths of the
    columns, which the writer takes from the cells of the lines around,
    are left open. *)
Fixpoint twl_line (pad : nat -> nat -> nat) (i j : nat) (cell line : gostring)
  : gostring :=
  match line with
  | [] => cell
  | r :: line' =>
      if (r =? r_tab) || (r =? r_vtab)
      then cell ++ replicate (S (pad i j)) r_space ++ twl_line pad i (S j) [] line'
      else twl_line pad i j (cell ++ [r]) line'
  end.

(** The line that is open when the writer is flushed.  The flush adds the
    cell that is being written to the line only if it is not empty; a cell
    that ends the text with its tab is the last cell of the line then, and
    the last cell of a line is not padded. *)
Fixpoint twl_last (pad : nat -> nat -> nat) (i j : nat) (cell line : gostring)
  : gostring :=
  match line with
  | [] => cell
  | r :: line' =>
      if (r =? r_tab) || (r =? r_vtab)
      then
        match line' with
        | [] => cell
        | _ => cell ++ replicate (S (pad i j)) r_space ++ twl_last pad i (S j) [] line'
        end
      else twl_last pad i j (cell ++ [r]) line'
  end.

Fixpoint twl_lines (pad : nat -> nat -> nat) (i : nat) (line text : gostring)
  : gostring :=
  match text with
  | [] => twl_last pad i 0 [] line
  | r :: text' =>
      if (r =? r_newline) || (r =? r_formfeed)
      then twl_line pad i 0 [] line ++ r_newline :: twl_lines pad (S i) [] text'
      else twl_lines pad i (line ++ [r]) text'
  end.

(** The index expression [d.M[k]] of [Dict.String]: it panics on a key
    that cannot be hashed, also where the map is [nil] or empty; the inner
    [None] is [nil]. *)
Definition Dict_index (d : Dict Key Val) (k : Key) : option (option Val) :=
  if hashable k then Some (Dict_get d k) else None.

(** The loop [for _, k := range d.K] of [Dict.String]: what is written to
    the tabwriter.  The value is read off the map itself; a key without a
    value, and any key of a [nil] map, reads [nil], and calling [String] on
    it panics. *)
Fixpoint String_loop (f : Format) (d : Dict Key Val) (keys : list Key)
    (buf : gostring) : option gostring :=
  match keys with
  | [] => Some buf
  | k :: keys' =>
      match to_String f k with
      | None => None
      | Some ks =>
          match Dict_index d k with
          | Some (Some v) =>
              match to_String f v with
              | None => None
              | Some vs =>
                  String_loop f d keys'
                    (buf ++ ks ++ [r_colon; r_tab] ++ vs ++ [r_newline])
              end
          | _ => None
          end
      end
  end.

(** [func (d *Dict) String(f Format) string]; [None] where Go panics. *)
Definition Dict_String (pad : nat -> nat -> nat) (f : Format)
    (d : Dict Key Val) : option gostring :=
  if PP f =? -2 then Dict_jsonString f d
  else if PP f =? -3 then Dict_matString f d
  else
    buf ← String_loop f d (K d) [];
    let s := twl_lines pad 0 [] buf in
    match last s with
    | Some r => if r =? r_newline then Some (removelast s) else Some s
    | None => Some s
    end.

(** The strings of the key and of the value of an entry; [None] if
    [String] panics on one of them. *)
Definition entry_strings (f : Format) (kv : Key * Val)
  : option (gostring * gostring) :=
  k ← to_String f kv.1; v ← to_String f kv.2; Some (k, v).

(** A key paired with its value; [None] if it has none, or cannot be
    hashed. *)
Definition entry_of (d : Dict Key Val) (k : Key) : option (Key * Val) :=
  match Dict_At d k with
  | Some (Some v) => Some (k, v)
  | _ => None
  end.

(** The keys of a dictionary with their values, in the order of the keys;
    [None] if a key has no value. *)
Definition Dict_entries (d : Dict Key Val) : option (list (Key * Val)) :=
  mapM (entry_of d) (Dict_Keys d).

End DictString.

(** An entry of a dictionary in the three notations, from the strings of
    its key and of its value. *)
Definition json_entry (kv : gostring * gostring) : gostring :=
  kv.1 ++ [r_colon] ++ kv.2.

Definition mat_entry (kv : gostring * gostring) : gostring :=
  kv.1 ++ [r_comma] ++ kv.2.

Definition table_entry (pad : nat -> nat -> nat) (i : nat)
    (kv : gostring * gostring) : gostring :=
  kv.1 ++ [r_colon] ++ replicate (S (pad i 0%nat)) r_space ++ kv.2.

(** What [Dict.String] writes to the tabwriter for an entry. *)
Definition raw_entry (kv : gostring * gostring) : gostring :=
  kv.1 ++ [r_colon; r_tab] ++ kv.2 ++ [r_newline].

(** ** Words of the further properties *)

(** A rune that [ScanRankArray] passes over without reading a value. *)
Definition is_separator (r : rune) : bool := is_terminator r || is_skipped r.

(** A well-formed array: a shape without negative entries whose product is
    the number of elements. *)
Definition Array_wf (v : Array) : Prop :=
  Forall (fun d => 0 <= d) (Shape v) /\ product (Shape v) = Size v.

(** The binomial coefficient [n] over [k], by the rule of Pascal. *)
Fixpoint choose (n k : nat) : Z :=
  match n, k with
  | _, O => 1
  | O, S _ => 0
  | S n', S k' => choose n' k' + choose n' k
  end.

(** The factorial, as an integer without a bound. *)
Fixpoint factorial (n : nat) : Z :=
  match n with
  | O => 1
  | S n' => Z.of_nat n * factorial n'
  end.

(** A string without a rune that ends a cell or a line of a tabwriter:
    no tab, no vertical tab, no newline and no form feed. *)
Definition plain_text (s : gostring) : Prop :=
  Forall (fun r => r <> r_tab /\ r <> r_vtab /\ r <> r_newline /\ r <> r_formfeed) s.

(** A value whose string has no vertical tab and no form feed in it:
    [text/tabwriter] ends a cell at a vertical tab as it does at a tab,
    and a line at a form feed as it does at a newline. *)
Definition no_feed `{Package} (f : Format) (e : Value) : Prop :=
  forall r, r ∈ Value_String f e -> r <> r_vtab /\ r <> r_formfeed.

(** What [ScanRankArray] returns at rank 0 where the value that it has
    scanned is [e]: a string as it is, and a number inside the struct that
    the tower has returned for it. *)
Definition scanned_at_rank0 `{Package} (e : Value) : Value :=
  match e with
  | VInt i => NumExpr_Value (NInt i)
  | VNumber t toIndex => NumExpr_Value (NOther t toIndex)
  | _ => e
  end.

(** [Int] has the method [String]: integers as keys and values of a
    dictionary. *)
Definition Int_Stringer `{Package} : Stringer Z := fun f i => Some (Int_String f i).

(** A line of text: the strings of the values with single blanks in
    between. *)
Definition text_line `{Package} (f : Format) (row : list Value) : gostring :=
  Join (Value_String f <$> row) [r_space].

(** Lines of text, each ended by a newline. *)
Definition text_lines `{Package} (f : Format) (rows : list (list Value)) : gostring :=
  concat ((fun row => text_line f row ++ [r_newline]) <$> rows).

(** The rows of a matrix of [w] columns, of values that are read back. *)
Definition matrix_rows `{Package} (f : Format) (w : nat) (rows : list (list Value))
  : Prop :=
  Forall (fun row => row <> [] /\ length row = w /\ Forall (elem_round_trips f) row)
         rows.

(** The JSON notation of an array, by its axes: a vector is its strings in
    brackets with commas in between, and an array of more axes is the
    notations of its parts along the first axis, in brackets with commas in
    between. *)
Fixpoint json_text (dims : list Z) (strs : list gostring) : gostring :=
  match dims with
  | [] => []
  | [d] => runes "[" ++ Join (take (Z.to_nat d) strs) (runes ",") ++ runes "]"
  | d :: ds =>
      runes "["
      ++ Join (json_text ds <$> chunks (Z.to_nat d) (Z.to_nat (product ds)) strs)
              (runes ",")
      ++ runes "]"
  end.

(** ** [apl/primitives/apl_test.go]: comparing the output of a test *)

(** The white space in front of a string, removed. *)
Fixpoint trim_left (s : gostring) : gostring :=
  match s with
  | [] => []
  | r :: s' => if IsSpace r then trim_left s' else s
  end.

(** [strings.TrimSpace]: the string without the white space, in the sense
    of [unicode.IsSpace], in front of it and behind it. *)
Definition TrimSpace (s : gostring) : gostring :=
  rev (trim_left (rev (trim_left s))).

(** [strings.Split(s, sep)] for the separator of one newline: the pieces
    between the newlines, one more than there are newlines. *)
Fixpoint Split_newline (s : gostring) : list gostring :=
  match s with
  | [] => [[]]
  | r :: s' =>
      if r =? r_newline then [] :: Split_newline s'
      else
        match Split_newline s' with
        | line :: lines => (r :: line) :: lines
        | [] => [[r]]
        end
  end.

(** [strings.Fields]: the pieces between runs of white space, none of them
    empty; [cur] is the piece that is being read. *)
Fixpoint Fields_from (cur s : gostring) : list gostring :=
  match s with
  | [] => match cur with [] => [] | _ => [cur] end
  | r :: s' =>
      if IsSpace r then
        match cur with
        | [] => Fields_from [] s'
        | _ => cur :: Fields_from [] s'
        end
      else Fields_from (cur ++ [r]) s'
  end.

Definition Fields (s : gostring) : list gostring := Fields_from [] s.

(** The body of the loop over the lines in [testCompare]: the fields of a
    line of the output against those of a line of the expectation; [false]
    where the function returns [false]. *)
Definition compare_fields (g e : gostring) : bool :=
  let gf := Fields g in
  let ef := Fields e in
  if negb (length gf =? length ef)%nat then false
  else forallb (fun p : gostring * gostring => bool_decide (p.1 = p.2))
               (combine gf ef).

(** [func testCompare(got, exp string, eql func(a, b string) bool) bool];
    the function never calls [eql]. *)
Definition testCompare (got exp : gostring)
    (eql : gostring -> gostring -> bool) : bool :=
  let got := TrimSpace got in
  let gotlines := Split_newline got in
  let explines := Split_newline exp in
  if negb (length gotlines =? length explines)%nat then false
  else forallb (fun p : gostring * gostring => compare_fields p.1 p.2)
               (combine gotlines explines).

(** Strings joined by single blanks, in the words of the specification:
    the first string as it is, and every further string behind one
    blank. *)
Definition joined_by_blanks (strs : list gostring) : gostring :=
  match strs with
  | [] => []
  | s :: rest => s ++ concat ((fun x : gostring => r_space :: x) <$> rest)
  end.

(* ================================================================== *)
(** * Part II: properties *)
(* ================================================================== *)

(** ** Go's [int] *)

Module GoIntFacts.
Import GoInt.

Lemma pow63 : 2 ^ 63 = 9223372036854775808.
Proof. reflexivity. Qed.

Lemma pow64 : 2 ^ 64 = 18446744073709551616.
Proof. reflexivity. Qed.

Ltac unfold_int :=
  unfold add, sub, mul, neg, div, rem, wrap, in_range, min_int, max_int in *;
  rewrite ?pow63, ?pow64 in *.

Ltac int_lia := unfold_int; Z.div_mod_to_equations; lia.

Lemma wrap_in_range z : in_range (wrap z).
Proof. int_lia. Qed.

Lemma wrap_small z : in_range z -> wrap z = z.
Proof. intros H. int_lia. Qed.

(** The truncated quotient is no larger than the dividend, and leaves the
    range only for [min_int / -1]. *)
Lemma quot_in_range a b :
  in_range a -> in_range b -> b <> 0 -> ~ (a = min_int /\ b = -1) ->
  in_range (Z.quot a b).
Proof.
  intros Ha Hb Hb0 Hmin.
  pose proof (Z.quot_rem' a b) as Hqr.
  pose proof (Z.rem_bound_abs a b Hb0) as Hr.
  pose proof (Z.rem_sign_mul a b Hb0) as Hs.
  unfold_int. nia.
Qed.

Lemma quot_mul_in_range a b :
  in_range a -> b <> 0 -> in_range (Z.quot a b * b).
Proof.
  intros Ha Hb0.
  destruct (Z.le_ge_cases 0 a) as [H0 | H0].
  - pose proof (Z.mul_quot_le a b H0 Hb0). unfold_int. lia.
  - pose proof (Z.mul_quot_ge a b H0 Hb0). unfold_int. lia.
Qed.

End GoIntFacts.

(** ** [Int.Div2] *)

Section Div2.
Import GoInt GoIntFacts.

(** The test [r*n == int(a)] of [Div2] succeeds exactly on exact
    divisions, the wrapped quotient of [min_int] by [-1] included. *)
Lemma Div2_test_divide a b :
  in_range a -> in_range b -> b <> 0 ->
  mul (div a b) b = a <-> (b | a).
Proof.
  intros Ha Hb Hb0.
  destruct (Z.eq_dec a min_int) as [Ea | Ea];
    [destruct (Z.eq_dec b (-1)) as [Eb | Eb] |].
  - subst. split; [intros _; exists (2 ^ 63); reflexivity | reflexivity].
  - assert (Hq : in_range (a ÷ b)) by (apply quot_in_range; tauto).
    unfold div, mul. rewrite (wrap_small _ Hq).
    rewrite wrap_small by (apply quot_mul_in_range; assumption).
    rewrite <- (Z.rem_divide a b Hb0).
    pose proof (Z.quot_rem' a b). lia.
  - assert (Hq : in_range (a ÷ b)) by (apply quot_in_range; tauto).
    unfold div, mul. rewrite (wrap_small _ Hq).
    rewrite wrap_small by (apply quot_mul_in_range; assumption).
    rewrite <- (Z.rem_divide a b Hb0).
    pose proof (Z.quot_rem' a b). lia.
Qed.

End Div2.

(** C6.  For all [Int] values [a] and [b], [a.Div2(b)] returns the quotient
    [a/b] with [true] if and only if [b] is nonzero and divides [a] exactly,
    and the returned quotient [q] then satisfies [q*b == a]; in every other
    case it returns [(nil, false)], the signal that the operation does not
    close. *)
Theorem Int_Div2_closes_iff_exact (a b : Z) :
  GoInt.in_range a -> GoInt.in_range b ->
  (forall q, Int_Div2 a b = Some q <->
             b <> 0 /\ (b | a) /\ q = GoInt.div a b) /\
  (forall q, Int_Div2 a b = Some q -> GoInt.mul q b = a) /\
  (Int_Div2 a b = None <-> ~ (b <> 0 /\ (b | a))).
Proof.
  intros Ha Hb. unfold Int_Div2.
  destruct (Z.eqb_spec b 0) as [E0 | N0].
  - repeat split; try discriminate; tauto.
  - pose proof (Div2_test_divide a b Ha Hb N0) as Ht.
    destruct (Z.eqb_spec (GoInt.mul (GoInt.div a b) b) a) as [Em | Nm].
    + repeat split; try tauto; try discriminate; try congruence.
      * intros (_ & _ & ->). reflexivity.
    + repeat split; try tauto; try discriminate; try congruence.
  Qed.

Lemma Int_Div2_closes_iff_exact_witness :
  (forall q, Int_Div2 12 (-4) = Some q <->
             -4 <> 0 /\ (-4 | 12) /\ q = GoInt.div 12 (-4)) /\
  (forall q, Int_Div2 12 (-4) = Some q -> GoInt.mul q (-4) = 12) /\
  (Int_Div2 12 (-4) = None <-> ~ (-4 <> 0 /\ (-4 | 12))).
Proof.
  apply (Int_Div2_closes_iff_exact 12 (-4)); unfold GoInt.in_range; split; discriminate.
Defined.

Example Int_Div2_exact : Int_Div2 12 (-4) = Some (-3).
Proof. reflexivity. Qed.

Example Int_Div2_remainder : Int_Div2 7 2 = None.
Proof. reflexivity. Qed.

Example Int_Div2_zero : Int_Div2 7 0 = None.
Proof. reflexivity. Qed.

Example Int_Div2_min_int : Int_Div2 GoInt.min_int (-1) = Some GoInt.min_int.
Proof. reflexivity. Qed.

(** ** [Int.Gamma2]: depth of the recursion *)

Section Gamma2.
Import GoInt GoIntFacts.

Ltac case_cmp :=
  repeat match goal with
    | H : context [?a >=? ?b] |- _ => destruct (Z.geb_spec a b)
    | H : context [?a <? ?b] |- _ => destruct (Z.ltb_spec a b)
    | |- context [?a >=? ?b] => destruct (Z.geb_spec a b)
    | |- context [?a <? ?b] => destruct (Z.ltb_spec a b)
    end; simpl in *.

Lemma Gamma2_select_ReflectR L R :
  Gamma2_select L R = GReflectR -> 0 <= L /\ R < 0 /\ sub R L < 0.
Proof. unfold Gamma2_select. case_cmp; intros; try discriminate; lia. Qed.

Lemma Gamma2_select_ReflectLR L R :
  Gamma2_select L R = GReflectLR -> L < 0 /\ R < 0 /\ 0 <= sub R L.
Proof. unfold Gamma2_select. case_cmp; intros; try discriminate; lia. Qed.

(** With both arguments nonnegative only the first two rows apply. *)
Lemma Gamma2_select_nonneg L R :
  0 <= L -> 0 <= R ->
  Gamma2_select L R = GClosed \/ Gamma2_select L R = GZero.
Proof. intros HL HR. unfold Gamma2_select. case_cmp; auto; lia. Qed.

Lemma Gamma2_call_nonneg L R L' R' :
  in_range L -> in_range R ->
  Gamma2_call L R = Some (L', R') -> 0 <= L' /\ 0 <= R'.
Proof.
  intros HL HR. unfold Gamma2_call.
  destruct (Gamma2_select L R) eqn:E; try discriminate.
  - apply Gamma2_select_ReflectR in E. intros [= <- <-]. int_lia.
  - apply Gamma2_select_ReflectLR in E. intros [= <- <-].
    destruct (Z.ltb_spec (add 1 L) 0); int_lia.
Qed.

Lemma Gamma2_call_leaf L R :
  0 <= L -> 0 <= R -> Gamma2_call L R = None.
Proof.
  intros HL HR. unfold Gamma2_call.
  destruct (Gamma2_select_nonneg L R HL HR) as [-> | ->]; reflexivity.
Qed.

Lemma Int_Gamma2_leaf L R :
  0 <= L -> 0 <= R ->
  exists v, forall depth, Int_Gamma2 (S depth) L R = Some v.
Proof.
  intros HL HR.
  destruct (Gamma2_select_nonneg L R HL HR) as [E | E];
    eexists; intros depth; simpl; rewrite E; reflexivity.
Qed.

End Gamma2.

(** C10.  The dyadic [Gamma2] on [Int] terminates for every pair of
    arguments within two nested activations: the row [L >= 0, R < 0] calls
    it on [L] and [L-(1+R)], both nonnegative; the row
    [L < 0, R < 0, R-L >= 0] calls it on [-(R+1)] and [|1+L|] with a
    nonnegative left argument; and the call made there makes no further
    recursive call. *)
Theorem Int_Gamma2_depth_two (L R : Z) :
  GoInt.in_range L -> GoInt.in_range R ->
  (exists v, forall depth, (2 <= depth)%nat -> Int_Gamma2 depth L R = Some v) /\
  (Gamma2_select L R = GReflectR ->
     Gamma2_call L R = Some (L, GoInt.sub L (GoInt.add 1 R)) /\
     0 <= L /\ 0 <= GoInt.sub L (GoInt.add 1 R)) /\
  (Gamma2_select L R = GReflectLR ->
     exists al1, Gamma2_call L R = Some (GoInt.neg (GoInt.add R 1), al1) /\
                 al1 = Z.abs (1 + L) /\ 0 <= GoInt.neg (GoInt.add R 1)) /\
  (forall L' R', Gamma2_call L R = Some (L', R') ->
     0 <= L' /\ 0 <= R' /\ Gamma2_call L' R' = None).
Proof.
  intros HL HR.
  assert (Hcall : forall L' R', Gamma2_call L R = Some (L', R') ->
                                0 <= L' /\ 0 <= R' /\ Gamma2_call L' R' = None).
  { intros L' R' Hc.
    destruct (Gamma2_call_nonneg L R L' R' HL HR Hc) as [H1 H2].
    auto using Gamma2_call_leaf. }
  split; [| split; [| split]]; [| | | exact Hcall].
  - destruct (Gamma2_select L R) eqn:E.
    + eexists. intros [| d] Hd; [lia |]. simpl. rewrite E. reflexivity.
    + eexists. intros [| d] Hd; [lia |]. simpl. rewrite E. reflexivity.
    + destruct (Hcall L (GoInt.sub L (GoInt.add 1 R))) as (H1 & H2 & _).
      { unfold Gamma2_call. rewrite E. reflexivity. }
      destruct (Int_Gamma2_leaf _ _ H1 H2) as [v Hv].
      exists (match v with
              | None => None
              | Some v => Some (GoInt.mul (m1exp L) v)
              end).
      intros [| [| d]] Hd; try lia.
      cbn [Int_Gamma2]. rewrite E. cbn [Int_Gamma2] in Hv. rewrite Hv.
      destruct v; reflexivity.
    + set (al1 := if GoInt.add 1 L <? 0 then GoInt.neg (GoInt.add 1 L)
                  else GoInt.add 1 L).
      destruct (Hcall (GoInt.neg (GoInt.add R 1)) al1) as (H1 & H2 & _).
      { unfold Gamma2_call. rewrite E. reflexivity. }
      destruct (Int_Gamma2_leaf _ _ H1 H2) as [v Hv].
      exists (match v with
              | None => None
              | Some v => Some (GoInt.mul (m1exp (GoInt.sub R L)) v)
              end).
      intros [| [| d]] Hd; try lia.
      cbn [Int_Gamma2]. rewrite E. cbn [Int_Gamma2] in Hv. fold al1. rewrite Hv.
      destruct v; reflexivity.
    + eexists. intros [| d] Hd; [lia |]. simpl. rewrite E. reflexivity.
  - intros E.
    assert (Hc : Gamma2_call L R = Some (L, GoInt.sub L (GoInt.add 1 R)))
      by (unfold Gamma2_call; rewrite E; reflexivity).
    destruct (Hcall _ _ Hc) as (H1 & H2 & _). auto.
  - intros E.
    set (al1 := if GoInt.add 1 L <? 0 then GoInt.neg (GoInt.add 1 L)
                else GoInt.add 1 L).
    assert (Hc : Gamma2_call L R = Some (GoInt.neg (GoInt.add R 1), al1))
      by (unfold Gamma2_call; rewrite E; reflexivity).
    destruct (Hcall _ _ Hc) as (H1 & H2 & _).
    exists al1. repeat split; auto.
    apply Gamma2_select_ReflectLR in E. subst al1.
    destruct (Z.ltb_spec (GoInt.add 1 L) 0); GoIntFacts.int_lia.
Qed.

Lemma Int_Gamma2_depth_two_witness :
  (exists v, forall depth, (2 <= depth)%nat -> Int_Gamma2 depth 3 (-2) = Some v) /\
  (Gamma2_select 3 (-2) = GReflectR ->
     Gamma2_call 3 (-2) = Some (3, GoInt.sub 3 (GoInt.add 1 (-2))) /\
     0 <= 3 /\ 0 <= GoInt.sub 3 (GoInt.add 1 (-2))) /\
  (Gamma2_select 3 (-2) = GReflectLR ->
     exists al1, Gamma2_call 3 (-2) = Some (GoInt.neg (GoInt.add (-2) 1), al1) /\
                 al1 = Z.abs (1 + 3) /\ 0 <= GoInt.neg (GoInt.add (-2) 1)) /\
  (forall L' R', Gamma2_call 3 (-2) = Some (L', R') ->
     0 <= L' /\ 0 <= R' /\ Gamma2_call L' R' = None).
Proof.
  apply (Int_Gamma2_depth_two 3 (-2)); unfold GoInt.in_range; split; discriminate.
Defined.

(** [3 ! ¯2]: one nested call, on [(3, 4)]. *)
Example Int_Gamma2_reflectR : Int_Gamma2 2 3 (-2) = Some (Some (-4)).
Proof. reflexivity. Qed.

(** [¯5 ! ¯3]: one nested call, on [(2, 4)]. *)
Example Int_Gamma2_reflectLR : Int_Gamma2 2 (-5) (-3) = Some (Some 6).
Proof. reflexivity. Qed.

(** One activation is not enough for these rows. *)
Example Int_Gamma2_needs_two : Int_Gamma2 1 3 (-2) = None.
Proof. reflexivity. Qed.

Example Int_Gamma2_binomial : Int_Gamma2 2 2 5 = Some (Some 10).
Proof. reflexivity. Qed.

(** ** [Dict]: keys and insertion order *)

Section DictFacts.
Context {Key Val : Type} `{Countable Key} `{MapKey Key} `{Copier Key} `{Copier Val}.
Implicit Types (d : Dict Key Val) (k : Key) (v : Val).
Implicit Types (ops : list (Key * Val)).

Lemma Dict_wf_zero : Dict_wf (Dict_zero (Key:=Key) (Val:=Val)).
Proof.
  split; [constructor |]. intros k. unfold Dict_get. simpl.
  split; [intros []%elem_of_nil | intros [? [=]]].
Qed.

Lemma value_keys_hashable k : value_keys Key -> hashable k = true.
Proof. intros Hval. apply (Hval k O). Qed.

Lemma value_keys_self_equal k : value_keys Key -> self_equal k = true.
Proof. intros Hval. apply (Hval k O). Qed.

(** [At] on a key that can be hashed is the index expression. *)
Lemma Dict_At_get d k : hashable k = true -> Dict_At d k = Some (Dict_get d k).
Proof.
  intros Hk. unfold Dict_At, Dict_get. destruct (M d); [| reflexivity].
  rewrite Hk. reflexivity.
Qed.

Lemma Dict_get_put d k v k' :
  self_equal k = true ->
  Dict_get (Dict_put d k k k v) k'
  = if decide (k = k') then Some v else Dict_get d k'.
Proof.
  intros Hs. unfold Dict_get, Dict_put, map_index, map_store. simpl. rewrite Hs.
  case_decide as Hk.
  - subst k'. rewrite Hs, lookup_insert, decide_True by reflexivity. reflexivity.
  - destruct (self_equal k'); [| destruct (M d); reflexivity].
    rewrite lookup_insert, decide_False by exact Hk.
    destruct (M d); [reflexivity | apply lookup_empty].
Qed.

Lemma Dict_Keys_put d k v :
  Dict_Keys (Dict_put d k k k v) =
  match Dict_get d k with Some _ => Dict_Keys d | None => Dict_Keys d ++ [k] end.
Proof.
  unfold Dict_Keys, Dict_get, Dict_put, map_index. simpl.
  destruct (M d); [reflexivity |].
  destruct (self_equal k); [rewrite lookup_empty |]; reflexivity.
Qed.

Lemma Dict_Keys_put_wf d k v :
  Dict_wf d ->
  Dict_Keys (Dict_put d k k k v) =
  if decide (k ∈ Dict_Keys d) then Dict_Keys d else Dict_Keys d ++ [k].
Proof.
  intros [_ Hdom]. rewrite Dict_Keys_put. unfold Dict_Keys.
  case_decide as Hin.
  - apply Hdom in Hin as [x ->]. reflexivity.
  - destruct (Dict_get d k) eqn:E; [| reflexivity].
    exfalso. apply Hin, Hdom. eauto.
Qed.

Lemma Dict_put_wf d k v :
  self_equal k = true -> Dict_wf d -> Dict_wf (Dict_put d k k k v).
Proof.
  intros Hs Hwf. pose proof (Dict_Keys_put_wf d k v Hwf) as HK.
  destruct Hwf as [Hnd Hdom]. unfold Dict_Keys in HK.
  split.
  - rewrite HK. case_decide as Hin; [assumption |].
    apply NoDup_app. repeat split; [assumption | | apply NoDup_singleton].
    intros x Hx ->%list_elem_of_singleton. contradiction.
  - intros k'. rewrite HK, Dict_get_put by exact Hs.
    destruct (decide (k = k')) as [<- | Hne].
    + split; [eauto |]. intros _. case_decide; [assumption |].
      apply elem_of_app. right. apply list_elem_of_singleton. reflexivity.
    + rewrite <- Hdom. case_decide; [reflexivity |].
      rewrite elem_of_app, list_elem_of_singleton.
      split; [intros [? | ?]; [assumption | congruence] | auto].
Qed.

(** [Set] with a key that is a value: no panic, the key itself goes into
    the key list and into the map, with the copy of the value. *)
Lemma Dict_Set_value d k v next :
  value_keys Key ->
  Dict_Set d k v next
  = Some (Dict_put d k k k (Copy v next).1, (Copy v next).2).
Proof.
  intros Hval. unfold Dict_Set.
  destruct (Hval k next) as (Hh & _ & Hc). rewrite Hh. simpl.
  assert ((match map_index (match M d with None => ∅ | Some m => m end) k with
           | Some _ => (k, next)
           | None => Copy k next
           end) = (k, next)) as ->.
  { destruct (map_index _ k); [reflexivity | exact Hc]. }
  rewrite Hc. destruct (Copy v next) as [v' next']. rewrite Hh. reflexivity.
Qed.

Lemma Dict_SetAll_cons d k v ops next :
  value_keys Key ->
  Dict_SetAll d ((k, v) :: ops) next
  = Dict_SetAll (Dict_put d k k k (Copy v next).1) ops (Copy v next).2.
Proof.
  intros Hval. cbn [Dict_SetAll fst snd]. rewrite Dict_Set_value by assumption.
  reflexivity.
Qed.

Lemma Dict_SetAll_total ops d next :
  value_keys Key -> is_Some (Dict_SetAll d ops next).
Proof.
  intros Hval. revert d next. induction ops as [| [k v] ops IH]; intros d next.
  - simpl. eauto.
  - rewrite Dict_SetAll_cons by assumption. apply IH.
Qed.

Lemma Dict_SetAll_wf ops d next d' next' :
  value_keys Key ->
  Dict_SetAll d ops next = Some (d', next') -> Dict_wf d -> Dict_wf d'.
Proof.
  intros Hval. revert d next.
  induction ops as [| [k v] ops IH]; intros d next E Hwf.
  - simpl in E. congruence.
  - rewrite Dict_SetAll_cons in E by assumption.
    eapply IH; [exact E |].
    apply Dict_put_wf; [apply value_keys_self_equal, Hval | exact Hwf].
Qed.

(** Only membership in [seen] matters. *)
Lemma first_insertions_ext (s1 s2 l : list Key) :
  (forall x, x ∈ s1 <-> x ∈ s2) ->
  first_insertions s1 l = first_insertions s2 l.
Proof.
  revert s1 s2. induction l as [| k l IH]; intros s1 s2 Hs; [reflexivity |].
  simpl. destruct (decide (k ∈ s1)) as [H1' | H1'], (decide (k ∈ s2)) as [H2' | H2'].
  - apply IH, Hs.
  - exfalso. apply H2', Hs, H1'.
  - exfalso. apply H1', Hs, H2'.
  - f_equal. apply IH. intros x. rewrite !elem_of_cons. rewrite Hs. reflexivity.
Qed.

Lemma Dict_Keys_SetAll ops d next d' next' :
  value_keys Key ->
  Dict_SetAll d ops next = Some (d', next') ->
  Dict_wf d ->
  Dict_Keys d' = Dict_Keys d ++ first_insertions (Dict_Keys d) ops.*1.
Proof.
  intros Hval. revert d next.
  induction ops as [| [k v] ops IH]; intros d next E Hwf.
  - simpl in E. injection E as <- <-. simpl. rewrite app_nil_r. reflexivity.
  - rewrite Dict_SetAll_cons in E by assumption.
    rewrite (IH _ _ E)
      by (apply Dict_put_wf; [apply value_keys_self_equal, Hval | exact Hwf]).
    cbn [fmap list_fmap fst first_insertions].
    rewrite (Dict_Keys_put_wf d k _ Hwf).
    destruct (decide (k ∈ Dict_Keys d)) as [Hin | Hin]; [reflexivity |].
    rewrite <- app_assoc. simpl. do 2 f_equal.
    apply first_insertions_ext. intros x.
    rewrite elem_of_app, list_elem_of_singleton, elem_of_cons. tauto.
Qed.

Lemma Dict_get_SetAll_None ops d next d' next' k :
  value_keys Key ->
  Dict_SetAll d ops next = Some (d', next') ->
  Dict_get d' k = None <-> Dict_get d k = None /\ (k ∉ ops.*1).
Proof.
  intros Hval. revert d next.
  induction ops as [| [k' v] ops IH]; intros d next E.
  - simpl in E. injection E as <- <-. simpl. rewrite elem_of_nil. tauto.
  - rewrite Dict_SetAll_cons in E by assumption.
    rewrite (IH _ _ E), Dict_get_put by (apply value_keys_self_equal, Hval).
    cbn [fmap list_fmap fst]. rewrite not_elem_of_cons.
    case_decide as Hk; [subst; split; [intros [[=] _] | tauto] |].
    split; intros [? ?]; repeat split; auto; tauto.
Qed.

End DictFacts.

(** C7.  For every [Dict] whose key list names the keys of its map, each
    once (the zero value and everything [Set] makes of it), and every
    sequence of [Set] operations with keys that are values (they can be
    hashed, and [Copy] returns them as they are): no [Set] panics,
    [Keys()] has no duplicates and lists the keys in first-insertion
    order; [Set] on a key already present replaces the stored value by the
    copy of the new one and leaves the key order alone; [At(k)] is [nil]
    exactly for the keys that were never set. *)
Theorem Dict_Set_keys_invariant {Key Val : Type} `{Countable Key}
    `{MapKey Key} `{Copier Key} `{Copier Val}
    (d : Dict Key Val) (ops : list (Key * Val)) (next : nat) :
  value_keys Key ->
  Dict_wf d ->
  exists d' next',
    Dict_SetAll d ops next = Some (d', next') /\
    NoDup (Dict_Keys d') /\
    Dict_Keys d' = Dict_Keys d ++ first_insertions (Dict_Keys d) ops.*1 /\
    (forall k v n, k ∈ Dict_Keys d' ->
       exists d'',
         Dict_Set d' k v n = Some (d'', (Copy v n).2) /\
         Dict_Keys d'' = Dict_Keys d' /\
         Dict_At d'' k = Some (Some (Copy v n).1) /\
         forall k', k' <> k -> Dict_At d'' k' = Dict_At d' k') /\
    (forall k, Dict_At d' k = Some None <-> (k ∉ Dict_Keys d) /\ (k ∉ ops.*1)).
Proof.
  intros Hval Hwf.
  destruct (Dict_SetAll_total ops d next Hval) as [[d' next'] E].
  exists d', next'. split; [exact E |].
  pose proof (Dict_SetAll_wf ops d next d' next' Hval E Hwf) as Hwf'.
  split; [apply Hwf' |].
  split; [exact (Dict_Keys_SetAll ops d next d' next' Hval E Hwf) |]. split.
  - intros k v n Hin. eexists. split; [apply Dict_Set_value, Hval |].
    split; [| split].
    + rewrite (Dict_Keys_put_wf d' k _ Hwf'). rewrite decide_True by assumption.
      reflexivity.
    + rewrite Dict_At_get by (apply value_keys_hashable, Hval).
      rewrite Dict_get_put by (apply value_keys_self_equal, Hval).
      rewrite decide_True by reflexivity. reflexivity.
    + intros k' Hne. rewrite !Dict_At_get by (apply value_keys_hashable, Hval).
      rewrite Dict_get_put by (apply value_keys_self_equal, Hval).
      rewrite decide_False by congruence. reflexivity.
  - intros k. rewrite Dict_At_get by (apply value_keys_hashable, Hval).
    assert (Some (Dict_get d' k) = Some None <-> Dict_get d' k = None) as ->
      by (split; congruence).
    rewrite (Dict_get_SetAll_None ops d next d' next' k Hval E).
    destruct Hwf as [_ Hdom]. unfold Dict_Keys. rewrite Hdom.
    rewrite eq_None_not_Some. reflexivity.
Qed.

Lemma Dict_Set_keys_invariant_witness :
  exists d' next',
    @Dict_SetAll Z Z _ _ number_MapKey number_Copier number_Copier
      Dict_zero [(2, 20); (1, 10); (2, 21)] 0 = Some (d', next') /\
    NoDup (Dict_Keys d') /\
    Dict_Keys d' = [] ++ first_insertions [] [2; 1; 2] /\
    (forall k v n, k ∈ Dict_Keys d' ->
       exists d'',
         @Dict_Set Z Z _ _ number_MapKey number_Copier number_Copier d' k v n
         = Some (d'', (number_Copier v n).2) /\
         Dict_Keys d'' = Dict_Keys d' /\
         @Dict_At Z Z _ _ number_MapKey d'' k = Some (Some (number_Copier v n).1) /\
         forall k', k' <> k ->
           @Dict_At Z Z _ _ number_MapKey d'' k' = @Dict_At Z Z _ _ number_MapKey d' k') /\
    (forall k, @Dict_At Z Z _ _ number_MapKey d' k = Some None
               <-> (k ∉ []) /\ (k ∉ [2; 1; 2])).
Proof.
  apply (@Dict_Set_keys_invariant Z Z _ _ number_MapKey number_Copier number_Copier
           Dict_zero [(2, 20); (1, 10); (2, 21)] 0%nat).
  - intros k next. repeat split; reflexivity.
  - split; [constructor |]. intros k. unfold Dict_get. simpl.
    split; [intros Hk; inversion Hk | intros [? [=]]].
Defined.

(** C7, as the specification has it, fails in two ways.  A key that is a
    pointer, as a [*Dict] is, is copied by [Set] into a new object: the map
    gets a key at another address, [At] of the key that was set is [nil]
    right after the [Set], and the key list names a key, another copy,
    that the map does not have; a second [Set] of the same key adds a
    second entry.  And a [Dict] is a struct with public fields: one whose
    key list names a key twice has duplicates in [Keys()] without any
    [Set]. *)
Lemma Dict_Set_pointer_key :
  let set := @Dict_Set pointer Z _ _ pointer_MapKey pointer_Copier number_Copier in
  let at_ := @Dict_At pointer Z _ _ pointer_MapKey in
  let k := Pointer 0 in
  (exists d' d'',
     set Dict_zero k 7 1%nat = Some (d', 3%nat) /\
     at_ d' k = Some None /\
     Dict_Keys d' = [Pointer 1] /\
     at_ d' (Pointer 1) = Some None /\
     at_ d' (Pointer 2) = Some (Some 7) /\
     set d' k 8 3%nat = Some (d'', 5%nat) /\
     Dict_Keys d'' = [Pointer 1; Pointer 3] /\
     at_ d'' k = Some None) /\
  (let d := {| K := [1; 1]; M := None |} in
   @Dict_SetAll Z Z _ _ number_MapKey number_Copier number_Copier d [] 0
   = Some (d, 0%nat) /\
   ~ NoDup (Dict_Keys d)).
Proof.
  split.
  - eexists _, _. vm_compute. repeat split; reflexivity.
  - split; [reflexivity |]. simpl. intros Hnd.
    apply NoDup_cons in Hnd as [Hnot _]. apply Hnot. left.
Qed.

(** A key that is not equal to itself is never found: every [Set] of it
    adds it to the key list once more, and [At] is [nil] for it. *)
Example Dict_Set_key_not_self_equal :
  exists d,
    (fst <$> @Dict_SetAll float_key Z _ _ float_MapKey float_Copier number_Copier
               Dict_zero [(NaN, 1); (NaN, 2)] 0) = Some d /\
    Dict_Keys d = [NaN; NaN] /\
    @Dict_At float_key Z _ _ float_MapKey d NaN = Some None.
Proof. eexists. vm_compute. repeat split; reflexivity. Qed.

Example Dict_Keys_first_insertion :
  (d ← fst <$> @Dict_SetAll Z Z _ _ number_MapKey number_Copier number_Copier
                 Dict_zero [(2, 20); (1, 10); (2, 21)] 0;
   Some (Dict_Keys d))
  = Some [2; 1].
Proof. reflexivity. Qed.

Example Dict_At_last_value :
  (d ← fst <$> @Dict_SetAll Z Z _ _ number_MapKey number_Copier number_Copier
                 Dict_zero [(2, 20); (1, 10); (2, 21)] 0;
   @Dict_At Z Z _ _ number_MapKey d 2)
  = Some (Some 21).
Proof. vm_compute. reflexivity. Qed.


(** ** [SetPP] *)

Lemma SetPP_EmptyArray a :
  SetPP a VEmptyArray = ({| PP := 0; Fmt := ∅ |}, None).
Proof. reflexivity. Qed.

Lemma SetPP_Int a i :
  SetPP a (VInt i) = ({| PP := i; Fmt := Fmt a |}, None).
Proof. reflexivity. Qed.

Lemma SetPP_Number a t i :
  SetPP a (VNumber t (Some i)) = ({| PP := i; Fmt := Fmt a |}, None).
Proof. reflexivity. Qed.

(** Every other value that is not an [Object] is refused, and the
    configuration stays as it was. *)
Lemma SetPP_other a R :
  match R with
  | VEmptyArray | VInt _ | VNumber _ (Some _) | VObject _ _ => True
  | _ => SetPP a R = (a, Some (Errorf "illegal type for PP"))
  end.
Proof. destruct R as [| ? [] | | | | |]; reflexivity || exact I. Qed.

(** An [Object] sets the format strings, and is then reported as an
    illegal type all the same: the branch has no [return nil]. *)
Lemma SetPP_Object a t entries :
  exists fmt', SetPP a (VObject t entries)
               = ({| PP := PP a; Fmt := fmt' |}, Some (Errorf "illegal type for PP")).
Proof. eexists. reflexivity. Qed.

Lemma SetPP_Object_fold entries (m : gmap GoType gostring) t :
  fold_left
    (fun (m : gmap GoType gostring) (kv : Value * option Value) =>
       match kv.2 with
       | Some (VString s) => <[TypeOf kv.1 := s]> m
       | _ => m
       end)
    entries m !! t
  = object_format (m !! t) entries t.
Proof.
  revert m. induction entries as [| [k [[| | s | | | |] |]] entries IH]; intros m;
    [reflexivity | cbn [fold_left snd fst object_format] in *; rewrite IH ..];
    try reflexivity.
  rewrite lookup_insert. reflexivity.
Qed.

(** C2.  [SetPP] on an object value: it sets the format strings of the
    types of the keys whose values are strings, leaves [PP] alone, and
    returns the error for an illegal type instead of no error, whatever the
    object holds. *)
Theorem SetPP_Object_returns_error (a : Format) (t : GoType)
    (entries : list (Value * option Value)) :
  (SetPP a (VObject t entries)).2 = Some (Errorf "illegal type for PP") /\
  PP (SetPP a (VObject t entries)).1 = PP a /\
  (forall ty, Fmt (SetPP a (VObject t entries)).1 !! ty
              = object_format (Fmt a !! ty) entries ty) /\
  SetPP {| PP := 0; Fmt := ∅ |}
        (VObject TDict [(VInt 0, Some (VString (runes "%d")))])
  = ({| PP := 0; Fmt := {[ TInt := runes "%d" ]} |},
     Some (Errorf "illegal type for PP")).
Proof.
  split; [reflexivity |]. split; [reflexivity |]. split; [| reflexivity].
  intros ty. cbn [SetPP fst Fmt]. apply SetPP_Object_fold.
Qed.

(** ** [Int.String] *)

Section IntString.
Context `{Package}.

Lemma Int_String_default a i :
  Fmt a !! TInt = None ->
  Int_String a i = replace_first r_minus r_macron (itoa i).
Proof. intros E. unfold Int_String. rewrite E. reflexivity. Qed.

(** A registered format that does not begin with the minus sign. *)
Lemma Int_String_rewrites a i r f :
  Fmt a !! TInt = Some (r :: f) -> r <> r_minus ->
  Int_String a i = replace_first r_minus r_macron (Sprintf (r :: f) i).
Proof.
  intros E Hr. unfold Int_String. rewrite E. cbn [default from_option id].
  destruct (Z.eqb_spec r r_minus) as [-> | _]; [contradiction |].
  rewrite andb_false_r. reflexivity.
Qed.

(** A registered format of a minus sign and more. *)
Lemma Int_String_keeps_minus a i r f :
  Fmt a !! TInt = Some (r_minus :: r :: f) ->
  Int_String a i = Sprintf (r :: f) i.
Proof.
  intros E. unfold Int_String. rewrite E. cbn [default from_option id].
  replace (1 <? Z.of_nat (length (r_minus :: r :: f))) with true
    by (symmetry; apply Z.ltb_lt; simpl length; lia).
  reflexivity.
Qed.

End IntString.

(** C9.  [Int.String] with the registered format [-]: the format begins
    with the minus sign, and yet it is neither stripped nor exempt from the
    rewriting; the minus sign of the format itself comes out as [¯]. *)
Theorem Int_String_lone_minus_is_rewritten `{Package} (i : Z) :
  Int_String {| PP := 0; Fmt := {[ TInt := runes "-" ]} |} i
  = r_macron :: runes "%!(EXTRA apl.Int=" ++ itoa i ++ runes ")".
Proof. reflexivity. Qed.

Example Int_String_negative :
  @Int_String IntHost {| PP := 0; Fmt := ∅ |} (-5) = [r_macron; 53].
Proof. reflexivity. Qed.

Example Int_String_plain_minus :
  @Int_String IntHost {| PP := 0; Fmt := {[ TInt := runes "-%d" ]} |} (-5)
  = runes "-5".
Proof. reflexivity. Qed.

(** ** [ArrayString]: vectors, and the matrix literal *)

Section ArrayStringFacts.
Context `{Package}.

Lemma mapM_lookup_seq {A B} (g : A -> B) (l : list A) (j n : nat) :
  (j + n <= length l)%nat ->
  mapM (fun i : Z => g <$> (if i <? 0 then None else l !! Z.to_nat i))
       (Z.of_nat <$> seq j n)
  = Some (g <$> take n (drop j l)).
Proof.
  revert j. induction n as [| n IH]; intros j Hlen; [reflexivity |].
  destruct (lookup_lt_is_Some_2 l j) as [a Ha]; [lia |].
  cbn [seq fmap list_fmap mapM].
  destruct (Z.ltb_spec (Z.of_nat j) 0) as [? | _]; [lia |].
  rewrite Nat2Z.id, Ha. cbn [fmap option_fmap option_map mbind option_bind].
  change (list_fmap nat Z Z.of_nat (seq (S j) n)) with (Z.of_nat <$> seq (S j) n).
  rewrite IH by lia. cbn [mbind option_bind mret option_ret].
  rewrite (drop_S l a j Ha). reflexivity.
Qed.

Lemma mapM_At f v n :
  0 <= n <= Size v ->
  mapM (fun i => Value_String f <$> At v i) (upto n)
  = Some (Value_String f <$> take (Z.to_nat n) (Elems v)).
Proof.
  intros Hn. unfold upto, At, Size in *.
  rewrite (mapM_lookup_seq (Value_String f) (Elems v) 0 (Z.to_nat n)) by lia.
  reflexivity.
Qed.

Lemma slice_in_range {A} (s : list A) lo hi :
  0 <= lo <= hi -> hi <= Z.of_nat (length s) ->
  slice s lo hi = Some (take (Z.to_nat (hi - lo)) (drop (Z.to_nat lo) s)).
Proof.
  intros Hlo Hhi. unfold slice.
  destruct (Z.leb_spec 0 lo), (Z.leb_spec lo hi),
    (Z.leb_spec hi (Z.of_nat (length s))); try lia. reflexivity.
Qed.

Lemma chunks_nil_iff {A} n w (l : list A) : chunks n w l = [] <-> n = O.
Proof. destruct n; simpl; split; intros; congruence. Qed.

Lemma Join_cons {A} (e : list A) rest sep :
  Join (e :: rest) sep
  = match rest with [] => e | _ => e ++ sep ++ Join rest sep end.
Proof. destruct rest; reflexivity. Qed.

(** The row loop of [matArray] writes the rows with semicolons in
    between. *)
Lemma mat_rows_chunks d0 d1 (Strings : list gostring) n i off b :
  0 <= d1 -> 0 <= off -> i + Z.of_nat n = d0 ->
  off + Z.of_nat n * d1 <= Z.of_nat (length Strings) ->
  mat_rows d0 d1 Strings n i off b
  = Some (b ++ Join ((fun row => Join row (runes ",")) <$>
                       chunks n (Z.to_nat d1) (drop (Z.to_nat off) Strings))
                    (runes ";")).
Proof.
  revert i off b. induction n as [| n IH]; intros i off b Hd1 Hoff Hi Hlen.
  - simpl. rewrite app_nil_r. reflexivity.
  - cbn [mat_rows]. rewrite slice_in_range by nia.
    cbn [mbind option_bind].
    replace (off + d1 - off) with d1 by lia.
    rewrite IH by nia.
    cbn [chunks fmap list_fmap]. rewrite Join_cons.
    replace (Z.to_nat (off + d1)) with (Z.to_nat off + Z.to_nat d1)%nat by lia.
    rewrite <- drop_drop.
    destruct n as [| n].
    + destruct (Z.ltb_spec i (d0 - 1)); [lia |]. simpl.
      rewrite app_nil_r. reflexivity.
    + destruct (Z.ltb_spec i (d0 - 1)); [| lia].
      cbn [chunks fmap list_fmap].
      rewrite <- !app_assoc. reflexivity.
Qed.

(** [strings.Join] with a blank puts every string but the first behind
    one blank. *)
Lemma Join_joined_by_blanks (strs : list gostring) :
  Join strs [r_space] = joined_by_blanks strs.
Proof.
  destruct strs as [| s rest]; [reflexivity |]. unfold joined_by_blanks.
  revert s. induction rest as [| s' rest IH]; intros s.
  - simpl. rewrite app_nil_r. reflexivity.
  - rewrite Join_cons, IH. reflexivity.
Qed.

End ArrayStringFacts.

(** C5.  Default rendering ([PP >= -1]): a rank-1 array is written as the
    strings of its elements with single blanks in between; an array with
    an empty shape is written as the empty string, and so is a scalar, an
    array of rank 0 with its single element. *)
Theorem ArrayString_default `{Package} (f : Format) (v : Array) :
  -1 <= PP f ->
  (forall n, Shape v = [n] -> 0 <= n <= Size v ->
     ArrayString f v
     = Some (joined_by_blanks (Value_String f <$> take (Z.to_nat n) (Elems v)))) /\
  (Shape v = [] -> ArrayString f v = Some []).
Proof.
  intros HPP. unfold ArrayString.
  destruct (Z.eqb_spec (PP f) (-2)) as [? | _]; [lia |].
  destruct (Z.eqb_spec (PP f) (-3)) as [? | _]; [lia |].
  split.
  - intros n -> Hn. destruct (Z.ltb_spec n 0); [lia |].
    rewrite mapM_At by assumption. cbn [mbind option_bind].
    f_equal. apply Join_joined_by_blanks.
  - intros ->. reflexivity.
Qed.

(** The vector [1 ¯2 3] and an array without axes. *)
Lemma ArrayString_default_witness :
  @ArrayString IntHost {| PP := 0; Fmt := ∅ |}
    (mkArray [3] [VInt 1; VInt (-2); VInt 3])
  = Some [49; 32; 175; 50; 32; 51] /\
  @ArrayString IntHost {| PP := -1; Fmt := ∅ |} (mkArray [] []) = Some [].
Proof.
  split.
  - assert (-1 <= PP {| PP := 0; Fmt := ∅ |}) as HPP by (simpl; lia).
    assert (0 <= 3 <= Size (mkArray [3] [VInt 1; VInt (-2); VInt 3])) as Hn
      by (unfold Size; simpl; lia).
    exact (proj1 (@ArrayString_default IntHost {| PP := 0; Fmt := ∅ |}
                    (mkArray [3] [VInt 1; VInt (-2); VInt 3]) HPP) 3 eq_refl Hn).
  - assert (-1 <= PP {| PP := -1; Fmt := ∅ |}) as HPP by (simpl; lia).
    exact (proj2 (@ArrayString_default IntHost {| PP := -1; Fmt := ∅ |}
                    (mkArray [] []) HPP) eq_refl).
Defined.

(** C5, as the specification has it, fails for a scalar: an array of rank
    0 with the single element 5 is written as the empty string, not as
    the string of its element. *)
Lemma ArrayString_scalar_prints_nothing :
  let f := {| PP := 0; Fmt := ∅ |} in
  let v := mkArray [] [VInt 5] in
  Shape v = [] /\ Size v = 1 /\ product (Shape v) = 1 /\
  @Value_String IntHost f (VInt 5) = [53] /\
  @ArrayString IntHost f v = Some [] /\
  @ArrayString IntHost f v <> Some (@Value_String IntHost f (VInt 5)).
Proof. repeat split. discriminate. Qed.

Example ArrayString_vector :
  @ArrayString IntHost {| PP := 0; Fmt := ∅ |}
    (mkArray [3] [VInt 1; VInt (-2); VInt 3])
  = Some [49; r_space; r_macron; 50; r_space; 51].
Proof. reflexivity. Qed.

(** C4, as the code has it.  In matrix-literal mode ([PP = -3]) a rank-1
    array is written as [[a,b,c]] and a rank-2 array as [[a,b;c,d]], its
    rows separated by semicolons; for every other rank the result is the
    string [[rank error]], returned like any other string: [ArrayString]
    has no error result and does not fail. *)
Theorem matArray_literal_or_rank_error_text `{Package} (f : Format) (v : Array) :
  PP f = -3 ->
  (forall n, Shape v = [n] ->
     ArrayString f v
     = Some (runes "[" ++ Join (Value_String f <$> Elems v) (runes ",")
             ++ runes "]")) /\
  (forall d0 d1, Shape v = [d0; d1] -> 0 <= d0 -> 0 <= d1 -> Size v = d0 * d1 ->
     ArrayString f v
     = Some (runes "[" ++
             Join ((fun row => Join row (runes ",")) <$>
                     chunks (Z.to_nat d0) (Z.to_nat d1) (Value_String f <$> Elems v))
                  (runes ";")
             ++ runes "]")) /\
  (length (Shape v) <> 1%nat -> length (Shape v) <> 2%nat ->
     ArrayString f v = Some (runes "[rank error]")).
Proof.
  intros HPP. unfold ArrayString. rewrite HPP. cbn [Z.eqb Pos.eqb].
  unfold matArray, stringArray. cbn [fst snd].
  split; [| split].
  - intros n ->. reflexivity.
  - intros d0 d1 -> Hd0 Hd1 Hsize. unfold Size in Hsize.
    rewrite (mat_rows_chunks d0 d1) by (rewrite ?length_fmap; lia).
    cbn [mbind option_bind]. rewrite <- app_assoc. reflexivity.
  - intros H1 H2. destruct (Shape v) as [| ? [| ? [| ? ?]]]; simpl in *;
      congruence.
Qed.

Lemma matArray_literal_or_rank_error_text_witness :
  let f := {| PP := -3; Fmt := ∅ |} in
  let v := mkArray [2; 2] [VInt 1; VInt 2; VInt 3; VInt 4] in
  (forall n, Shape v = [n] ->
     @ArrayString IntHost f v
     = Some (runes "[" ++ Join (@Value_String IntHost f <$> Elems v) (runes ",")
             ++ runes "]")) /\
  (forall d0 d1, Shape v = [d0; d1] -> 0 <= d0 -> 0 <= d1 -> Size v = d0 * d1 ->
     @ArrayString IntHost f v
     = Some (runes "[" ++
             Join ((fun row => Join row (runes ",")) <$>
                     chunks (Z.to_nat d0) (Z.to_nat d1)
                       (@Value_String IntHost f <$> Elems v))
                  (runes ";")
             ++ runes "]")) /\
  (length (Shape v) <> 1%nat -> length (Shape v) <> 2%nat ->
     @ArrayString IntHost f v = Some (runes "[rank error]")).
Proof.
  intros f v. apply (@matArray_literal_or_rank_error_text IntHost f v).
  reflexivity.
Defined.

(** A rank-3 array in matrix-literal mode: [ArrayString] returns, and what
    it returns is the twelve runes [[rank error]]. *)
Lemma matArray_rank3_returns_a_string :
  let f := {| PP := -3; Fmt := ∅ |} in
  let v := mkArray [1; 1; 2] [VInt 1; VInt 2] in
  @ArrayString IntHost f v = Some (runes "[rank error]") /\
  @ArrayString IntHost f v <> None.
Proof. split; [reflexivity | discriminate]. Qed.

Example matArray_matrix :
  @ArrayString IntHost {| PP := -3; Fmt := ∅ |}
    (mkArray [2; 2] [VInt 1; VInt 2; VInt 3; VInt 4])
  = Some (runes "[1,2;3,4]").
Proof. reflexivity. Qed.

(** ** [ScanRankArray]: the shape and the number of values *)

Section ScanFacts.
Context `{Package}.

Lemma fold_left_mul (l : list Z) (a b : Z) :
  fold_left Z.mul l (a * b) = a * fold_left Z.mul l b.
Proof.
  revert b. induction l as [| x l IH]; intros b; simpl; [reflexivity |].
  rewrite <- Z.mul_assoc. apply IH.
Qed.

Lemma Prod_cons q d ds : Prod (q :: d :: ds) = q * Prod (d :: ds).
Proof. unfold Prod. simpl. apply fold_left_mul. Qed.

Lemma Prod_singleton d : Prod [d] = d.
Proof. reflexivity. Qed.

(** On a shape that is not empty [Prod] is the product of the entries. *)
Lemma Prod_product shape : shape <> [] -> Prod shape = product shape.
Proof.
  destruct shape as [| d ds]; [congruence |]. intros _. unfold Prod, product.
  revert d. induction ds as [| x ds IH]; intros d; simpl; [lia |].
  rewrite IH. simpl. lia.
Qed.

(** Prepending the quotient keeps the product within the number of
    values. *)
Lemma Prod_prepend_quot shape n :
  shape <> [] -> 1 <= Prod shape <= n ->
  1 <= Prod (n ÷ Prod shape :: shape) <= n.
Proof.
  destruct shape as [| d ds]; [congruence |]. intros _ Hp.
  rewrite Prod_cons. set (p := Prod (d :: ds)) in *.
  rewrite Z.quot_div_nonneg by lia.
  pose proof (Z.mul_div_le n p ltac:(lia)).
  assert (1 <= n / p) by (apply Z.div_le_lower_bound; lia).
  nia.
Qed.

Lemma scan_loop_inv fuel rank s values c shape :
  scan_inv rank values c shape ->
  match scan_loop fuel rank s values c shape with
  | ScanBreak values' shape' rest =>
      (shape' = [] \/ 1 <= Prod shape' <= Z.of_nat (length values')) /\
      (0 < rank -> Z.of_nat (length shape') < rank) /\
      (rank = 0 -> values' = [])
  | ScanPanic => False
  | _ => True
  end.
Proof.
  revert s values c shape.
  induction fuel as [| fuel IH]; intros s values c shape Hinv; [exact I |].
  destruct Hinv as (Hshape & Hrank & Hzero).
  cbn [scan_loop]. destruct s as [| r s].
  { split; [assumption |]. split; [apply Hrank | assumption]. }
  destruct (is_terminator r).
  - destruct (Z.eqb_spec (Z.of_nat (length values)) 0) as [E0 | N0].
    { apply IH. split; [assumption |]. split; assumption. }
    destruct (Z.eqb_spec (c + 1) rank) as [Ec | Nc].
    { split; [assumption |]. split; [apply Hrank | assumption]. }
    destruct (Z.gtb_spec (c + 1) (Z.of_nat (length shape))) as [Hgt | Hle].
    + destruct shape as [| d ds].
      * apply IH. split; [| split; [| assumption]].
        -- right. rewrite Prod_singleton. lia.
        -- intros Hr. specialize (Hrank Hr). simpl length in *. lia.
      * destruct Hshape as [? | Hp]; [discriminate |].
        destruct (Z.eqb_spec (Prod (d :: ds)) 0) as [? | _]; [lia |].
        apply IH. split; [| split; [| assumption]].
        -- right. apply Prod_prepend_quot; [discriminate | assumption].
        -- intros Hr. specialize (Hrank Hr). simpl length in *. lia.
    + apply IH. split; [assumption |]. split; [| assumption].
      intros Hr. specialize (Hrank Hr). lia.
  - destruct (is_skipped r).
    { apply IH. split; [assumption |]. split; assumption. }
    assert (Hpush : forall v, rank <> 0 -> scan_inv rank (values ++ [v]) 0 shape).
    { intros v Hr. split; [| split].
      - destruct Hshape as [? | ?]; [left; assumption | right].
        rewrite length_app. simpl. lia.
      - intros Hr0. specialize (Hrank Hr0). lia.
      - intros ?. contradiction. }
    destruct (r =? r_quote).
    + destruct (scan_ReadString (r :: s)) as [[str rest] |]; [| exact I].
      destruct (Z.eqb_spec rank 0); [exact I |]. apply IH, Hpush. assumption.
    + destruct (scan_ScanNumber (r :: s)) as [[num rest] |]; [| exact I].
      destruct (Tower_Parse num) as [n |]; [| exact I].
      destruct (Z.eqb_spec rank 0); [exact I |]. apply IH, Hpush. assumption.
Qed.





(** What the loop returns by itself, for rank 0, is a string or the struct
    of a number. *)
Lemma scan_loop_return fuel rank s values c shape v rest :
  scan_loop fuel rank s values c shape = ScanReturn v rest ->
  (exists str, v = VString str) \/ (exists n, v = NumExpr_Value n).
Proof.
  revert s values c shape.
  induction fuel as [| fuel IH]; intros s values c shape; [discriminate |].
  cbn [scan_loop]. destruct s as [| r s]; [discriminate |].
  destruct (is_terminator r).
  - destruct (Z.of_nat (length values) =? 0); [apply IH |].
    destruct (c + 1 =? rank); [discriminate |].
    destruct (c + 1 >? Z.of_nat (length shape)); [| apply IH].
    destruct shape; [apply IH |].
    destruct (Prod _ =? 0); [discriminate | apply IH].
  - destruct (is_skipped r); [apply IH |].
    destruct (r =? r_quote).
    + destruct (scan_ReadString (r :: s)) as [[str rest'] |]; [| discriminate].
      destruct (rank =? 0); [intros [= <- _]; eauto | apply IH].
    + destruct (scan_ScanNumber (r :: s)) as [[num rest'] |]; [| discriminate].
      destruct (Tower_Parse num) as [n |]; [| discriminate].
      destruct (rank =? 0); [intros [= <- _]; eauto | apply IH].
Qed.

Lemma scan_inv_init rank : scan_inv rank [] 0 [].
Proof. split; [left; reflexivity |]. split; [simpl; lia | reflexivity]. Qed.

End ScanFacts.


(** ** The host with the integer tower *)








Example ScanRankArray_ragged :
  exists e, @ScanRankArray IntHost (runes "1 2 3;4 5") (-1) = Done (Err e, []).
Proof. eexists. reflexivity. Qed.

(** ** Round trip: from the text to its tokens *)

Section RenderFacts.
Context `{Package}.

Lemma tok_run_app toks1 toks2 st :
  tok_run (toks1 ++ toks2) st = tok_run toks2 (tok_run toks1 st).
Proof. apply fold_left_app. Qed.

Lemma tok_run_None toks : tok_run toks None = None.
Proof. induction toks; [reflexivity | assumption]. Qed.

(** The loop of [ScanRankArray], with unrestricted rank, on a text that
    renders a sequence of tokens: it goes through the tokens and ends at the
    end of the text. *)
Lemma scan_loop_renders f text toks :
  renders f text toks ->
  forall fuel values c shape,
    (length text < fuel)%nat -> 0 <= c ->
    scan_loop fuel (-1) text values c shape
    = match tok_run toks (Some (values, c, shape)) with
      | Some (values', _, shape') => ScanBreak values' shape' []
      | None => ScanPanic
      end.
Proof.
  induction 1 as [| r text toks Ht Hs _ IH | r text toks Ht _ IH
                  | e text toks He Hd _ IH];
    intros fuel values c shape Hfuel Hc.
  - destruct fuel; [simpl in Hfuel; lia | reflexivity].
  - destruct fuel; [lia |]. simpl length in Hfuel. cbn [scan_loop].
    rewrite Ht, Hs. apply IH; lia.
  - destruct fuel; [lia |]. simpl length in Hfuel. cbn [scan_loop].
    rewrite Ht. cbn [tok_run fold_left tok_step].
    destruct (Z.eqb_spec (Z.of_nat (length values)) 0); [apply IH; lia |].
    destruct (Z.eqb_spec (c + 1) (-1)); [lia |].
    destruct (c + 1 >? Z.of_nat (length shape)); [| apply IH; lia].
    destruct shape as [| d ds]; [apply IH; lia |].
    destruct (Prod (d :: ds) =? 0); [| apply IH; lia].
    change (fold_left tok_step toks None) with (tok_run toks None).
    rewrite tok_run_None. reflexivity.
  - destruct He as ((r & lex & Hstr & Ht & Hs) & _ & Hscan).
    specialize (Hscan text Hd). rewrite Hstr in *.
    destruct fuel; [lia |]. rewrite length_app in Hfuel. simpl length in Hfuel.
    cbn [scan_loop app]. rewrite Ht, Hs.
    cbn [tok_run fold_left tok_step]. unfold scan_elem in Hscan.
    cbn [app] in Hscan.
    destruct (r =? r_quote).
    + destruct (scan_ReadString (r :: lex ++ text)) as [[str rest] |];
        [| discriminate].
      injection Hscan as <- <-. cbn [Z.eqb]. apply IH; lia.
    + destruct (scan_ScanNumber (r :: lex ++ text)) as [[num rest] |];
        [| discriminate].
      destruct (Tower_Parse num) as [n |]; [| discriminate].
      injection Hscan as <- <-. cbn [Z.eqb]. apply IH; lia.
Qed.

(** [ParseArray] on such a text. *)
Lemma ParseArray_renders f text toks values c shape dims :
  renders f text toks ->
  tok_run toks (Some ([], 0, [])) = Some (values, c, shape) ->
  scan_finish (-1) values shape = Done (Ok (VMixedArray dims values)) ->
  ParseArray None text = Done (Ok (VMixedArray dims values)).
Proof.
  intros Hr Hrun Hfin. unfold ParseArray, ScanRankArray.
  rewrite (scan_loop_renders f text toks Hr) by lia.
  rewrite Hrun, Hfin. reflexivity.
Qed.

End RenderFacts.

(** ** Round trip: from the tokens to the shape *)

Section ShapeFacts.
Context `{Package}.

Lemma product_cons d ds : product (d :: ds) = d * product ds.
Proof. reflexivity. Qed.

Lemma product_pos dims : Forall (fun d => 1 <= d) dims -> 1 <= product dims.
Proof.
  induction 1 as [| d ds Hd _ IH]; simpl; [lia | nia].
Qed.

Lemma tok_run_cons t toks st :
  tok_run (t :: toks) st = tok_run toks (tok_step st t).
Proof. reflexivity. Qed.

Lemma tok_run_nil st : tok_run [] st = st.
Proof. reflexivity. Qed.

Lemma tok_run_elems elems values c shape :
  elems <> [] ->
  tok_run (TElem <$> elems) (Some (values, c, shape))
  = Some (values ++ elems, 0, shape).
Proof.
  revert values c. induction elems as [| e elems IH]; intros values c Hne;
    [congruence |].
  rewrite fmap_cons, tok_run_cons. cbn [tok_step].
  destruct elems as [| e' elems']; [reflexivity |].
  rewrite IH by discriminate. rewrite <- app_assoc. reflexivity.
Qed.

(** Terminators within the length of the shape only count. *)
Lemma tok_run_terms_within k values c shape :
  values <> [] -> 0 <= c -> c + Z.of_nat k <= Z.of_nat (length shape) ->
  tok_run (replicate k TTerm) (Some (values, c, shape))
  = Some (values, c + Z.of_nat k, shape).
Proof.
  intros Hne. revert c. induction k as [| k IH]; intros c Hc Hk.
  - simpl. rewrite Z.add_0_r. reflexivity.
  - rewrite replicate_S, tok_run_cons. cbn [tok_step].
    destruct (Z.eqb_spec (Z.of_nat (length values)) 0) as [E | _];
      [destruct values; [congruence | simpl in E; lia] |].
    destruct (Z.gtb_spec (c + 1) (Z.of_nat (length shape))); [lia |].
    rewrite IH by lia. do 3 f_equal. lia.
Qed.

(** The terminator that exceeds the length of the shape prepends the
    quotient. *)
Lemma tok_step_term_grows values shape :
  values <> [] -> (shape = [] \/ Prod shape <> 0) ->
  tok_step (Some (values, Z.of_nat (length shape), shape)) TTerm
  = Some (values, Z.of_nat (length shape) + 1,
          match shape with
          | [] => [Z.of_nat (length values)]
          | _ => Z.of_nat (length values) ÷ Prod shape :: shape
          end).
Proof.
  intros Hne Hp. cbn [tok_step].
  destruct (Z.eqb_spec (Z.of_nat (length values)) 0) as [E | _];
    [destruct values; [congruence | simpl in E; lia] |].
  destruct (Z.gtb_spec (Z.of_nat (length shape) + 1) (Z.of_nat (length shape)));
    [| lia].
  destruct shape as [| d ds]; [reflexivity |].
  destruct Hp as [? | Hp]; [discriminate |].
  destruct (Z.eqb_spec (Prod (d :: ds)) 0); [contradiction | reflexivity].
Qed.

Lemma established_length dims : (length (established dims) <= length dims)%nat.
Proof.
  induction dims as [| d ds IH]; simpl; [lia |].
  destruct (d =? 1); lia.
Qed.

Lemma Prod_pos shape :
  shape <> [] -> Forall (fun d => 1 <= d) shape -> Prod shape = product shape /\ 1 <= Prod shape.
Proof.
  intros Hne Hall. rewrite Prod_product by assumption.
  split; [reflexivity | apply product_pos, Hall].
Qed.

(** As many terminators as the array has axes complete the established
    shape to the shape of the array. *)
Lemma tok_run_terms_complete dims values :
  dims <> [] -> Forall (fun d => 1 <= d) dims ->
  Z.of_nat (length values) = product dims ->
  tok_run (replicate (length dims) TTerm) (Some (values, 0, established dims))
  = Some (values, Z.of_nat (length dims), dims).
Proof.
  intros Hne Hall. revert values Hne.
  induction Hall as [| d ds Hd Hds IH]; intros values Hne Hlen; [congruence |].
  assert (Hv : values <> []).
  { pose proof (product_pos (d :: ds) ltac:(constructor; assumption)).
    destruct values; [cbn [length] in Hlen; lia | discriminate]. }
  cbn [length]. rewrite replicate_S_end, tok_run_app.
  cbn [established]. destruct (Z.eqb_spec d 1) as [-> | Hd1].
  - destruct ds as [| d' ds'].
    + simpl replicate. rewrite tok_run_nil, tok_run_cons, tok_run_nil.
      cbn [established length].
      pose proof (tok_step_term_grows values [] Hv (or_introl eq_refl)) as Hg.
      change (Z.of_nat (length (@nil Z))) with 0 in Hg. rewrite Hg.
      simpl in Hlen. rewrite Hlen. reflexivity.
    + rewrite product_cons, Z.mul_1_l in Hlen.
      rewrite IH; [| discriminate | assumption].
      rewrite tok_run_cons, tok_run_nil.
      rewrite (tok_step_term_grows values (d' :: ds')); [| assumption |].
      * destruct (Prod_pos (d' :: ds') ltac:(discriminate) Hds) as [Ep Hp].
        rewrite Ep, Hlen.
        rewrite Z.quot_same by (rewrite <- Ep; lia).
        do 3 f_equal. simpl length. lia.
      * right. destruct (Prod_pos (d' :: ds') ltac:(discriminate) Hds). lia.
  - rewrite tok_run_terms_within by (try assumption; lia).
    rewrite tok_run_cons, tok_run_nil, Z.add_0_l.
    rewrite (tok_step_term_grows values ds); [| assumption |].
    + destruct ds as [| d' ds'].
      * simpl in Hlen. rewrite Hlen, Z.mul_1_r. reflexivity.
      * destruct (Prod_pos (d' :: ds') ltac:(discriminate) Hds) as [Ep Hp].
        rewrite product_cons in Hlen. rewrite Ep, Hlen.
        rewrite Z.quot_mul by (rewrite <- Ep; lia).
        do 3 f_equal. simpl length. lia.
    + destruct ds as [| d' ds']; [left; reflexivity | right].
      destruct (Prod_pos (d' :: ds') ltac:(discriminate) Hds). lia.
Qed.

Lemma Join_chunks_S {A B} (g : list A -> list B) n p l sep :
  Join (g <$> chunks (S (S n)) p l) sep
  = g (take p l) ++ sep ++ Join (g <$> chunks (S n) p (drop p l)) sep.
Proof. reflexivity. Qed.

Lemma chunks_one {A} p (l : list A) : length l = p -> chunks 1 p l = [l].
Proof. intros <-. simpl. rewrite firstn_all. reflexivity. Qed.

Lemma length_Z_nonempty {A} (l : list A) n : Z.of_nat (length l) = n -> 1 <= n -> l <> [].
Proof. intros <- Hn ->. simpl in Hn. lia. Qed.

(** Once the shape is as long as the parts have axes, further parts only
    add their values. *)
Lemma tok_run_block_later dims :
  dims <> [] -> Forall (fun d => 1 <= d) dims ->
  forall elems values c shape,
    Z.of_nat (length elems) = product dims ->
    (length dims <= S (length shape))%nat ->
    tok_run (block dims elems) (Some (values, c, shape))
    = Some (values ++ elems, 0, shape).
Proof.
  intros Hne Hall. revert Hne.
  induction Hall as [| d ds Hd Hds IH]; intros Hne; [congruence |].
  intros elems values c shape Hlen Hshape.
  destruct ds as [| d' ds'].
  { cbn [block]. apply tok_run_elems.
    apply (length_Z_nonempty _ _ Hlen). simpl. lia. }
  specialize (IH ltac:(discriminate)).
  set (ds := d' :: ds') in *.
  change (block (d :: ds) elems)
    with (Join (block ds <$> chunks (Z.to_nat d) (Z.to_nat (product ds)) elems)
               (replicate (length ds) TTerm)).
  pose proof (product_pos ds Hds) as Hp.
  rewrite product_cons in Hlen.
  assert (Hn : Z.of_nat (length elems)
               = Z.of_nat (Z.to_nat d) * product ds) by lia.
  clear Hlen. revert elems values c Hn.
  assert (Hd' : (1 <= Z.to_nat d)%nat) by lia.
  induction (Z.to_nat d) as [| n IHn]; [lia |]. clear Hd'.
  intros elems values c Hn. destruct n as [| n].
  - rewrite chunks_one by lia. cbn [fmap list_fmap Join]. apply IH; [lia |].
    simpl in Hshape |- *. lia.
  - assert (Hge : product ds <= Z.of_nat (length elems)) by nia.
    rewrite Join_chunks_S, !tok_run_app.
    rewrite IH; [| rewrite length_take; lia | simpl in Hshape |- *; lia].
    rewrite tok_run_terms_within.
    + rewrite IHn; [| lia | rewrite length_drop; nia].
      rewrite <- app_assoc, take_drop. reflexivity.
    + intros E. apply app_eq_nil in E as [_ E].
      apply (f_equal length) in E. rewrite length_take in E.
      cbn [length] in E. lia.
    + lia.
    + simpl in Hshape |- *. lia.
Qed.

(** The first array of a text establishes the shape. *)
Lemma tok_run_block_first dims :
  dims <> [] -> Forall (fun d => 1 <= d) dims ->
  forall elems c,
    Z.of_nat (length elems) = product dims ->
    tok_run (block dims elems) (Some ([], c, []))
    = Some (elems, 0, established dims).
Proof.
  intros Hne Hall. revert Hne.
  induction Hall as [| d ds Hd Hds IH]; intros Hne; [congruence |].
  intros elems c Hlen.
  destruct ds as [| d' ds'].
  { cbn [block established]. rewrite tok_run_elems.
    - destruct (d =? 1); reflexivity.
    - apply (length_Z_nonempty _ _ Hlen). simpl. lia. }
  specialize (IH ltac:(discriminate)).
  set (ds := d' :: ds') in *.
  change (block (d :: ds) elems)
    with (Join (block ds <$> chunks (Z.to_nat d) (Z.to_nat (product ds)) elems)
               (replicate (length ds) TTerm)).
  pose proof (product_pos ds Hds) as Hp.
  rewrite product_cons in Hlen. cbn [established].
  destruct (Z.eqb_spec d 1) as [-> | Hd1].
  - change (Z.to_nat 1) with 1%nat. rewrite chunks_one by lia.
    cbn [fmap list_fmap Join]. apply IH. lia.
  - destruct (Z.to_nat d) as [| [| n]] eqn:En; [lia | lia |].
    assert (Hge : product ds <= Z.of_nat (length elems)) by nia.
    rewrite Join_chunks_S, !tok_run_app.
    rewrite IH by (rewrite length_take; lia).
    rewrite tok_run_terms_complete;
      [| discriminate | assumption | rewrite length_take; lia].
    pose proof (tok_run_block_later (Z.of_nat (S n) :: ds) ltac:(discriminate)
                  ltac:(constructor; [lia | assumption])
                  (drop (Z.to_nat (product ds)) elems)
                  (take (Z.to_nat (product ds)) elems)
                  (Z.of_nat (length ds)) ds) as Hl.
    change (block (Z.of_nat (S n) :: ds) ?e)
      with (Join (block ds <$> chunks (Z.to_nat (Z.of_nat (S n)))
                                      (Z.to_nat (product ds)) e)
                 (replicate (length ds) TTerm)) in Hl.
    rewrite Nat2Z.id in Hl. rewrite Hl.
    + rewrite take_drop. reflexivity.
    + rewrite length_drop, product_cons. nia.
    + simpl. lia.
Qed.

Lemma fill_loop_stop n rank nvalues i shape :
  rank - Z.of_nat (length shape) < i ->
  fill_loop n rank nvalues i shape = Done (Ok shape).
Proof.
  intros Hi. destruct n; cbn [fill_loop];
    destruct (Z.leb_spec i (rank - Z.of_nat (length shape))); (lia || reflexivity).
Qed.

Lemma fill_loop_S n rank nvalues i shape :
  fill_loop (S n) rank nvalues i shape
  = if i <=? rank - Z.of_nat (length shape) then
      let p := match shape with [] => 1 | _ => Prod shape end in
      if negb (bool_decide (shape = [])) && (p =? 0) then
        Done (Err (Errorf "parse array: divide by zero"))
      else
        let shape := nvalues ÷ p :: shape in
        if negb (Prod shape =? nvalues) then
          Done (Err (Errorf "parse array: array is not rectangular"))
        else fill_loop n rank nvalues (i + 1) shape
    else Done (Ok shape).
Proof. reflexivity. Qed.

(** The end of [ScanRankArray] on a shape that is complete. *)
Lemma scan_finish_complete values dims :
  values <> [] -> Prod dims = Z.of_nat (length values) ->
  scan_finish (-1) values dims = Done (Ok (VMixedArray dims values)).
Proof.
  intros Hne Hp. unfold scan_finish.
  destruct (Z.eqb_spec (Z.of_nat (length values)) 0) as [E | _];
    [destruct values; [congruence | simpl in E; lia] |].
  cbn [Z.ltb Z.compare]. rewrite Hp, Z.eqb_refl.
  rewrite fill_loop_stop by lia. reflexivity.
Qed.

(** The end of [ScanRankArray] on a shape that lacks its first axis. *)
Lemma scan_finish_prepends values d ds :
  Forall (fun d => 1 <= d) ds ->
  Z.of_nat (length values) = d * product ds ->
  (ds = [] /\ 1 <= d /\ Prod_nil <> d) \/ (ds <> [] /\ 2 <= d) ->
  scan_finish (-1) values ds = Done (Ok (VMixedArray (d :: ds) values)).
Proof.
  intros Hds Hlen Hcase. unfold scan_finish.
  pose proof (product_pos ds Hds) as Hpp.
  destruct (Z.eqb_spec (Z.of_nat (length values)) 0) as [E | _]; [nia |].
  cbn [Z.ltb Z.compare].
  assert (Hne : Prod ds <> Z.of_nat (length values)).
  { destruct Hcase as [(-> & _ & Hn) | (Hne & Hd)].
    - simpl in Hlen |- *. lia.
    - rewrite Prod_product by assumption. nia. }
  destruct (Z.eqb_spec (Prod ds) (Z.of_nat (length values))); [contradiction |].
  replace (Z.of_nat (length ds) - Z.of_nat (length ds) + 1) with 1 by lia.
  change (Z.to_nat 1) with 1%nat. rewrite fill_loop_S. cbv zeta.
  destruct (Z.leb_spec 0 (Z.of_nat (length ds) - Z.of_nat (length ds))); [| lia].
  assert (Hq : Z.of_nat (length values)
               ÷ match ds with [] => 1 | _ => Prod ds end = d).
  { destruct ds as [| d' ds'].
    - simpl in Hlen. rewrite Z.quot_1_r. lia.
    - rewrite Prod_product, Hlen by discriminate. apply Z.quot_mul. lia. }
  assert (Hz : negb (bool_decide (ds = [])) &&
               (match ds with [] => 1 | _ => Prod ds end =? 0) = false).
  { destruct ds as [| d' ds']; [reflexivity |].
    rewrite Prod_product by discriminate.
    destruct (Z.eqb_spec (product (d' :: ds')) 0); [lia |].
    apply andb_false_r. }
  rewrite Hz, Hq.
  assert (Hprod : Prod (d :: ds) = Z.of_nat (length values)).
  { rewrite Prod_product, product_cons by discriminate. lia. }
  rewrite Hprod, Z.eqb_refl. cbn [negb].
  rewrite fill_loop_stop by (cbn [length]; lia). reflexivity.
Qed.

End ShapeFacts.

(** ** Round trip: integers *)

Section IntLexeme.
Context `{Package}.

Lemma runes_of_uint_digits u : Forall (fun r => is_digit r = true) (runes_of_uint u).
Proof. induction u; simpl; constructor; (reflexivity || assumption). Qed.

Lemma uint_of_runes_of_uint u : uint_of_runes (runes_of_uint u) = Some u.
Proof. induction u; simpl; [reflexivity | rewrite IHu; reflexivity ..]. Qed.

Lemma runes_of_uint_nonnil u : u <> Decimal.Nil -> runes_of_uint u <> [].
Proof. destruct u; simpl; congruence. Qed.

Lemma replace_first_absent old new s :
  Forall (fun r => r <> old) s -> replace_first old new s = s.
Proof.
  induction 1 as [| r s Hr _ IH]; simpl; [reflexivity |].
  destruct (Z.eqb_spec r old); [contradiction | rewrite IH; reflexivity].
Qed.

Lemma replace_all_absent old new s :
  Forall (fun r => r <> old) s -> replace_all old new s = s.
Proof.
  unfold replace_all.
  induction 1 as [| r s Hr _ IH]; simpl; [reflexivity |].
  destruct (Z.eqb_spec r old); [contradiction |]. f_equal. exact IH.
Qed.

Lemma is_digit_range r : is_digit r = true <-> 48 <= r <= 57.
Proof. unfold is_digit. rewrite andb_true_iff, !Z.leb_le. reflexivity. Qed.

Lemma Int_digits_spec i :
  Int_digits i <> [] /\ Forall (fun r => is_digit r = true) (Int_digits i).
Proof.
  destruct i as [| p | p]; simpl.
  - split; [discriminate | repeat constructor].
  - split; [apply runes_of_uint_nonnil, DecimalPos.Unsigned.to_uint_nonnil
           | apply runes_of_uint_digits].
  - split; [apply runes_of_uint_nonnil, DecimalPos.Unsigned.to_uint_nonnil
           | apply runes_of_uint_digits].
Qed.

Lemma digits_not (old : Z) :
  (old < 48 \/ 57 < old) ->
  forall s, Forall (fun r => is_digit r = true) s -> Forall (fun r => r <> old) s.
Proof.
  intros Hold s Hs. eapply Forall_impl; [exact Hs |].
  intros x Hx%is_digit_range. simpl. lia.
Qed.

Lemma itoa_digits i :
  itoa i = if i <? 0 then r_minus :: Int_digits i else Int_digits i.
Proof. destruct i; reflexivity. Qed.

Lemma Int_lexeme_digits i :
  Int_lexeme i = if i <? 0 then r_macron :: Int_digits i else Int_digits i.
Proof.
  unfold Int_lexeme. rewrite itoa_digits.
  destruct (Int_digits_spec i) as [_ Hd]. destruct (i <? 0).
  - reflexivity.
  - apply replace_first_absent. apply digits_not; [unfold r_minus; lia | exact Hd].
Qed.

Lemma Atoi_itoa i : GoInt.in_range i -> Atoi (itoa i) = Some i.
Proof.
  intros Hr. unfold GoInt.in_range in Hr.
  assert (Hrange : (GoInt.min_int <=? i) && (i <=? GoInt.max_int) = true).
  { rewrite andb_true_iff, !Z.leb_le. exact Hr. }
  destruct i as [| p | p]; [reflexivity | |].
  - unfold itoa, Atoi. cbn [Z.to_int].
    destruct (runes_of_uint (Pos.to_uint p)) as [| r s] eqn:E.
    { apply runes_of_uint_nonnil in E;
        [contradiction | apply DecimalPos.Unsigned.to_uint_nonnil]. }
    pose proof (runes_of_uint_digits (Pos.to_uint p)) as Hd. rewrite E in Hd.
    inversion Hd as [| ? ? Hr0 _]; subst. apply is_digit_range in Hr0.
    destruct (Z.eqb_spec r r_minus); [unfold r_minus in *; lia |].
    destruct (Z.eqb_spec r r_plus); [unfold r_plus in *; lia |].
    rewrite <- E, uint_of_runes_of_uint.
    unfold N.of_uint. rewrite DecimalPos.Unsigned.of_to. cbn [Z.of_N].
    rewrite Hrange. reflexivity.
  - unfold itoa, Atoi. cbn [Z.to_int]. rewrite Z.eqb_refl.
    destruct (runes_of_uint (Pos.to_uint p)) as [| r s] eqn:E.
    { apply runes_of_uint_nonnil in E;
        [contradiction | apply DecimalPos.Unsigned.to_uint_nonnil]. }
    rewrite <- E, uint_of_runes_of_uint.
    unfold N.of_uint. rewrite DecimalPos.Unsigned.of_to.
    change (- Z.of_N (N.pos p)) with (Z.neg p).
    rewrite Hrange. reflexivity.
Qed.

Lemma ParseInt_Int_lexeme i : GoInt.in_range i -> ParseInt (Int_lexeme i) = Some i.
Proof.
  intros Hr. unfold ParseInt. rewrite Int_lexeme_digits.
  destruct (Int_digits_spec i) as [_ Hd].
  assert (Hm : replace_all r_macron r_minus (Int_digits i) = Int_digits i).
  { apply replace_all_absent, digits_not; [unfold r_macron; lia | exact Hd]. }
  rewrite <- (Atoi_itoa i Hr), itoa_digits. destruct (i <? 0).
  - unfold replace_all in *. cbn [map]. rewrite Hm. reflexivity.
  - rewrite Hm. reflexivity.
Qed.

Lemma delimited_cons r rest :
  delimited (r :: rest) <-> is_terminator r || is_skipped r = true.
Proof. reflexivity. Qed.

(** A rune at which a lexeme ends is not part of a number. *)
Lemma delimiter_not_number r :
  is_terminator r || is_skipped r = true ->
  is_digit r = false /\ r <> r_macron /\ r <> r_quote /\ r <> 46 /\ r <> 69 /\
  r <> 101 /\ r <> 74 /\ r <> 106 /\ r <> 64.
Proof.
  unfold is_terminator, is_skipped, IsSpace, is_digit,
    r_newline, r_semicolon, r_rbrack, r_comma, r_lbrack, r_lparen, r_rparen,
    r_macron, r_quote.
  rewrite !orb_true_iff, !andb_true_iff, andb_false_iff, !Z.eqb_eq, !Z.leb_le,
    !Z.leb_gt.
  lia.
Qed.

(** A rune of an integer lexeme starts a lexeme and is neither a tab nor a
    newline. *)
Lemma lexeme_rune r :
  is_digit r = true \/ r = r_macron ->
  is_terminator r = false /\ is_skipped r = false /\ r <> r_quote /\
  r <> r_tab /\ r <> r_newline.
Proof.
  intros Hr.
  assert (48 <= r <= 57 \/ r = 175) as Hr'
      by (destruct Hr as [Hr%is_digit_range | ->]; [left; lia | right; reflexivity]).
  unfold is_terminator, is_skipped, IsSpace,
    r_newline, r_semicolon, r_rbrack, r_comma, r_lbrack, r_lparen, r_rparen,
    r_quote, r_tab.
  rewrite !orb_false_iff, !andb_false_iff, !Z.eqb_neq, !Z.leb_gt.
  lia.
Qed.

Lemma Int_lexeme_runes i :
  exists r lex, Int_lexeme i = r :: lex /\
    Forall (fun r => is_digit r = true \/ r = r_macron) (r :: lex).
Proof.
  rewrite Int_lexeme_digits. destruct (Int_digits_spec i) as [Hne Hd].
  assert (Hd' : Forall (fun r => is_digit r = true \/ r = r_macron) (Int_digits i))
    by (eapply Forall_impl; [exact Hd | auto]).
  destruct (i <? 0).
  - eexists _, _. split; [reflexivity |]. constructor; auto.
  - destruct (Int_digits i) as [| r lex]; [congruence |].
    eexists _, _. split; [reflexivity | exact Hd'].
Qed.

(** With a tower that reads integers, an [Int] without a registered format
    survives printing and scanning. *)
Lemma Int_round_trips f i :
  int_tower -> Fmt f !! TInt = None -> GoInt.in_range i ->
  elem_round_trips f (VInt i).
Proof.
  intros [Hscan Hparse] Hfmt Hr. unfold elem_round_trips.
  cbn [Value_String]. rewrite (Int_String_default f i Hfmt).
  fold (Int_lexeme i).
  destruct (Int_lexeme_runes i) as (r & lex & E & Hall).
  split; [| split].
  - exists r, lex. split; [exact E |].
    inversion Hall as [| ? ? Hr0 _]; subst.
    destruct (lexeme_rune r Hr0) as (? & ? & _). auto.
  - intros x Hx. rewrite E in Hx.
    rewrite Forall_forall in Hall. specialize (Hall x Hx).
    destruct (lexeme_rune x Hall) as (_ & _ & _ & ? & ?). auto.
  - intros rest Hd. unfold scan_elem.
    rewrite (Hscan i rest Hr Hd), (Hparse i Hr).
    rewrite E. cbn [app].
    inversion Hall as [| ? ? Hr0 _]; subst.
    destruct (lexeme_rune r Hr0) as (_ & _ & Hq & _).
    destruct (Z.eqb_spec r r_quote); [contradiction | reflexivity].
Qed.

End IntLexeme.

Lemma span_digits_exact d rest :
  Forall (fun r => is_digit r = true) d ->
  match rest with [] => True | r :: _ => is_digit r = false end ->
  span_digits (d ++ rest) = (d, rest).
Proof.
  intros Hd Hrest. induction Hd as [| r d Hr _ IH]; simpl.
  - destruct rest as [| r rest]; [reflexivity |]. simpl. rewrite Hrest. reflexivity.
  - rewrite Hr, IH. reflexivity.
Qed.

Lemma IntHost_int_tower : @int_tower IntHost.
Proof.
  split; simpl.
  - intros i rest Hr Hd.
    assert (Hrest : match rest with
                    | [] => True
                    | r :: _ => is_digit r = false /\ r <> 46 /\ r <> 69 /\
                                r <> 101 /\ r <> 74 /\ r <> 106 /\ r <> 64
                    end).
    { destruct rest as [| r rest]; [exact I |].
      apply delimited_cons, delimiter_not_number in Hd. tauto. }
    destruct (Int_digits_spec i) as [Hne Hdig].
    assert (Hsd : scan_signed_digits (Int_lexeme i ++ rest)
                  = Some (Int_lexeme i, rest)).
    { rewrite Int_lexeme_digits. unfold scan_signed_digits.
      destruct (i <? 0).
      - cbn [app]. rewrite Z.eqb_refl.
        rewrite span_digits_exact;
          [| exact Hdig | destruct rest; [exact I | tauto]].
        destruct (Int_digits i); [congruence | reflexivity].
      - destruct (Int_digits i) as [| r d] eqn:E; [congruence |].
        cbn [app]. inversion Hdig as [| ? ? Hr0 Hd0]; subst.
        apply is_digit_range in Hr0 as Hr1.
        destruct (Z.eqb_spec r r_macron); [unfold r_macron in *; lia |].
        change (r :: d ++ rest) with ((r :: d) ++ rest).
        rewrite span_digits_exact;
          [| exact Hdig | destruct rest; [exact I | tauto]].
        reflexivity. }
    unfold ScanNumber, scan_real. rewrite Hsd.
    destruct rest as [| r rest]; [rewrite !app_nil_r; reflexivity |].
    destruct Hrest as (_ & H46 & H69 & H101 & H74 & H106 & H64).
    apply Z.eqb_neq in H46, H69, H101, H74, H106, H64.
    rewrite H46. cbn [orb]. rewrite H69, H101. cbn [orb].
    rewrite !app_nil_r. rewrite H74, H106, H64. reflexivity.
  - intros i Hr. unfold IntTower_Parse. rewrite ParseInt_Int_lexeme by assumption.
    reflexivity.
Qed.


(** ** Round trip: from the array to its text *)

Section FormatFacts.
Context `{Package}.
Variable f : Format.

Lemma delimited_terminator r rest : is_terminator r = true -> delimited (r :: rest).
Proof. intros Hr. simpl. rewrite Hr. reflexivity. Qed.

Lemma delimited_skipped r rest : is_skipped r = true -> delimited (r :: rest).
Proof. intros Hr. simpl. rewrite Hr. apply orb_true_r. Qed.

(** The strings of values, joined by a rune that is skipped. *)
Lemma renders_Join_elems sep (es : list Value) rest toks :
  is_terminator sep = false -> is_skipped sep = true ->
  es <> [] -> Forall (elem_round_trips f) es ->
  delimited rest -> renders f rest toks ->
  renders f (Join (Value_String f <$> es) [sep] ++ rest) ((TElem <$> es) ++ toks).
Proof.
  intros Ht Hs Hne Hall Hd Hr. induction Hall as [| e es He Hes IH]; [congruence |].
  destruct es as [| e' es'].
  - cbn [fmap list_fmap Join app]. apply renders_elem; assumption.
  - rewrite !fmap_cons, Join_cons. rewrite <- !fmap_cons.
    rewrite fmap_cons at 1. rewrite <- !app_assoc. cbn [app].
    apply renders_elem; [assumption | apply delimited_skipped, Hs |].
    apply renders_skip; [assumption .. |]. apply IH. discriminate.
Qed.

Lemma chunks_fmap {A B} (g : A -> B) n w (l : list A) :
  chunks n w (fmap (M:=list) g l)
  = fmap (M:=list) (fmap (M:=list) g) (chunks n w l).
Proof.
  revert l. induction n as [| n IH]; intros l; [reflexivity |].
  cbn [chunks fmap list_fmap]. rewrite <- fmap_take, <- fmap_drop, IH. reflexivity.
Qed.

Lemma chunks_Forall {A} (P : A -> Prop) n w (l : list A) :
  Forall P l -> Forall (Forall P) (chunks n w l).
Proof.
  revert l. induction n as [| n IH]; intros l Hl; cbn [chunks]; constructor.
  - apply Forall_take, Hl.
  - apply IH, Forall_drop, Hl.
Qed.

Lemma r_comma_skipped : is_terminator r_comma = false /\ is_skipped r_comma = true.
Proof. split; reflexivity. Qed.

Lemma r_space_skipped : is_terminator r_space = false /\ is_skipped r_space = true.
Proof. split; reflexivity. Qed.

(** The rows of the matrix literal, each ended by a terminator: the
    semicolons between the rows and whatever [rest] begins with. *)
Lemma renders_mat_rows n w (es : list Value) rest toks :
  (1 <= w)%nat -> (length es = S n * w)%nat ->
  Forall (elem_round_trips f) es ->
  (exists r rest', rest = r :: rest' /\ is_terminator r = true) ->
  renders f rest toks ->
  renders f
    (Join ((fun row => Join row (runes ",")) <$>
             chunks (S n) w (Value_String f <$> es)) (runes ";") ++ rest)
    (Join ((fun row : list Value => TElem <$> row) <$> chunks (S n) w es) [TTerm] ++ toks).
Proof.
  intros Hw. revert es. induction n as [| n IH]; intros es Hlen Hall Hrest Hr.
  - rewrite !chunks_one by (rewrite ?length_fmap; lia).
    cbn [fmap list_fmap Join].
    destruct Hrest as (r & rest' & -> & Ht).
    apply (renders_Join_elems r_comma);
      [reflexivity | reflexivity | | assumption
      | apply delimited_terminator, Ht | assumption].
    destruct es; [simpl in Hlen; lia | discriminate].
  - rewrite !Join_chunks_S. rewrite <- !app_assoc.
    rewrite <- fmap_take, <- fmap_drop.
    apply (renders_Join_elems r_comma);
      [reflexivity | reflexivity | | apply Forall_take, Hall
      | apply delimited_terminator; reflexivity |].
    + intros E. apply (f_equal length) in E. rewrite length_take in E.
      simpl in E. nia.
    + apply renders_term; [reflexivity |].
      apply IH; [rewrite length_drop; nia | apply Forall_drop, Hall | assumption ..].
Qed.

Lemma chunks_app_exact {A} n w (l extra : list A) :
  (length l = n * w)%nat -> chunks n w (l ++ extra) = chunks n w l.
Proof.
  revert l. induction n as [| n IH]; intros l Hl; [reflexivity |].
  cbn [chunks]. rewrite take_app_le, drop_app_le by lia.
  rewrite IH by (rewrite length_drop; lia). reflexivity.
Qed.

Lemma concat_Join_trailing {A} (bs : list (list A)) sep :
  bs <> [] -> concat ((fun b => b ++ sep) <$> bs) = Join bs sep ++ sep.
Proof.
  induction bs as [| b bs IH]; [congruence |]. intros _.
  cbn [fmap list_fmap concat]. rewrite Join_cons. destruct bs as [| b' bs'].
  - simpl. rewrite app_nil_r. reflexivity.
  - change (list_fmap _ _ (fun b => b ++ sep) (b' :: bs'))
      with ((fun b => b ++ sep) <$> b' :: bs').
    rewrite IH by discriminate. rewrite <- !app_assoc. reflexivity.
Qed.

Lemma slice_from_in_range {A} (s : list A) lo :
  0 <= lo <= Z.of_nat (length s) -> slice_from s lo = Some (drop (Z.to_nat lo) s).
Proof.
  intros Hlo. unfold slice_from. rewrite slice_in_range by lia.
  rewrite take_ge; [reflexivity |]. rewrite length_drop. lia.
Qed.

(** The parts of a JSON array: the texts of [m] parts from part [j] on,
    each rendering its tokens and the terminators that end it. *)
Lemma vector_parts ds (p : nat) (L : list Value) :
  (forall elems extra rest toks,
      length elems = p -> Forall (elem_round_trips f) elems ->
      renders f rest toks ->
      exists text,
        vector ds (Value_String f <$> elems ++ extra) = Some text /\
        renders f (text ++ rest)
                (block ds elems ++ replicate (length ds) TTerm ++ toks)) ->
  Z.of_nat p = Prod ds ->
  forall m j, ((j + m) * p <= length L)%nat ->
    Forall (elem_round_trips f) (take ((j + m) * p) L) ->
    exists texts,
      mapM (fun i => sub ← slice_from (Value_String f <$> L) (i * Prod ds);
                     vector ds sub) (Z.of_nat <$> seq j m) = Some texts /\
      forall rest toks, renders f rest toks ->
        renders f (Join texts (runes ",") ++ rest)
          (concat ((fun c => block ds c ++ replicate (length ds) TTerm) <$>
                     chunks m p (drop (j * p) L)) ++ toks).
Proof.
  intros Hsub Hp. induction m as [| m IH]; intros j Hlen HL.
  - exists []. split; [reflexivity |]. intros rest toks Hr. exact Hr.
  - destruct (IH (S j)) as (texts & Hm & Hrs);
      [lia | replace ((S j + m) * p)%nat with ((j + S m) * p)%nat by lia; exact HL |].
    assert (Hpart : forall rest toks, renders f rest toks ->
              exists text,
                vector ds (Value_String f <$> drop (j * p) L) = Some text /\
                renders f (text ++ rest)
                  (block ds (take p (drop (j * p) L))
                   ++ replicate (length ds) TTerm ++ toks)).
    { intros rest toks Hr.
      destruct (Hsub (take p (drop (j * p) L)) (drop p (drop (j * p) L)) rest toks)
        as (text & Hv & Hr'); [rewrite length_take, length_drop; nia | | exact Hr |].
      - rewrite take_drop_commute. apply Forall_drop.
        replace (j * p + p)%nat
          with (Nat.min (j * p + p) ((j + S m) * p)) by lia.
        rewrite <- take_take. apply Forall_take, HL.
      - rewrite take_drop in Hv. exists text. split; assumption. }
    cbn [seq fmap list_fmap mapM].
    rewrite slice_from_in_range by (rewrite length_fmap; nia).
    cbn [mbind option_bind].
    replace (Z.to_nat (Z.of_nat j * Prod ds)) with (j * p)%nat by nia.
    rewrite <- fmap_drop.
    destruct (Hpart [] [] ltac:(constructor)) as (text & Hv & _).
    rewrite Hv. cbn [mbind option_bind].
    change (list_fmap nat Z Z.of_nat (seq (S j) m)) with (Z.of_nat <$> seq (S j) m).
    rewrite Hm. cbn [mbind option_bind mret option_ret].
    eexists. split; [reflexivity |]. intros rest toks Hr.
    cbn [chunks fmap list_fmap concat]. rewrite Join_cons.
    rewrite drop_drop. replace (j * p + p)%nat with (S j * p)%nat by lia.
    specialize (Hrs rest toks Hr).
    destruct texts as [| t ts].
    + apply length_mapM in Hm. rewrite length_fmap, length_seq in Hm.
      cbn [length] in Hm. subst m. cbn [chunks fmap list_fmap concat app] in *.
      destruct (Hpart rest toks Hr) as (text' & Hv' & Hr').
      rewrite Hv in Hv'. injection Hv' as <-.
      rewrite app_nil_r, <- app_assoc. exact Hr'.
    + rewrite <- !app_assoc.
      destruct (Hpart (runes "," ++ Join (t :: ts) (runes ",") ++ rest)
                  (concat ((fun c => block ds c ++ replicate (length ds) TTerm) <$>
                             chunks m p (drop (S j * p) L)) ++ toks))
        as (text' & Hv' & Hr');
        [apply renders_skip; [reflexivity | reflexivity | exact Hrs] |].
      rewrite Hv in Hv'. injection Hv' as <-. exact Hr'.
Qed.

(** [jsonArray]: the nested brackets render the array and as many
    terminators as it has axes. *)
Lemma vector_renders dims :
  dims <> [] -> Forall (fun d => 1 <= d) dims ->
  forall elems extra rest toks,
    Z.of_nat (length elems) = product dims ->
    Forall (elem_round_trips f) elems ->
    renders f rest toks ->
    exists text,
      vector dims (Value_String f <$> elems ++ extra) = Some text /\
      renders f (text ++ rest)
              (block dims elems ++ replicate (length dims) TTerm ++ toks).
Proof.
  intros Hne Hall. revert Hne.
  induction Hall as [| d ds Hd Hds IH]; intros Hne; [congruence |].
  intros elems extra rest toks Hlen Hel Hr.
  destruct ds as [| d' ds'].
  - cbn [vector]. unfold slice_to. rewrite slice_in_range;
      [| lia | rewrite length_fmap, length_app; simpl in Hlen; lia].
    cbn [mbind option_bind]. simpl in Hlen.
    rewrite drop_0, Z.sub_0_r, fmap_app.
    rewrite take_app_length' by (rewrite length_fmap; lia).
    eexists. split; [reflexivity |].
    cbn [block length replicate]. rewrite <- !app_assoc.
    apply renders_skip; [reflexivity | reflexivity |].
    apply (renders_Join_elems r_comma);
      [reflexivity | reflexivity | | assumption
      | apply delimited_terminator; reflexivity |].
    + destruct elems; [simpl in Hlen; lia | discriminate].
    + apply renders_term; [reflexivity | exact Hr].
  - specialize (IH ltac:(discriminate)). set (ds := d' :: ds') in *.
    pose proof (product_pos ds Hds) as Hp.
    rewrite product_cons in Hlen.
    assert (Hprod : Z.of_nat (Z.to_nat (product ds)) = Prod ds).
    { rewrite Prod_product by discriminate. lia. }
    destruct (vector_parts ds (Z.to_nat (product ds)) (elems ++ extra))
      with (m := Z.to_nat d) (j := O) as (texts & Hm & Hrs).
    + intros el ex rs tk Hl. apply IH. lia.
    + exact Hprod.
    + rewrite length_app. nia.
    + replace ((0 + Z.to_nat d) * Z.to_nat (product ds))%nat with (length elems) by nia.
      rewrite take_app_length. exact Hel.
    + cbn [vector]. fold ds. destruct (Z.ltb_spec d 0); [lia |].
      unfold upto. rewrite Hm. cbn [mbind option_bind].
      eexists. split; [reflexivity |].
      rewrite <- !app_assoc. apply renders_skip; [reflexivity | reflexivity |].
      specialize (Hrs (runes "]" ++ rest) (TTerm :: toks)
                    ltac:(apply renders_term; [reflexivity | exact Hr])).
      change (block (d :: ds) elems)
        with (Join (block ds <$> chunks (Z.to_nat d) (Z.to_nat (product ds)) elems)
                   (replicate (length ds) TTerm)).
      cbn [length]. rewrite replicate_S_end, <- !app_assoc.
      rewrite drop_0 in Hrs.
      assert (Hch : chunks (Z.to_nat d) (Z.to_nat (product ds)) (elems ++ extra)
                    = chunks (Z.to_nat d) (Z.to_nat (product ds)) elems).
      { apply chunks_app_exact. nia. }
      rewrite Hch in Hrs.
      rewrite (list_fmap_compose (block ds)
                 (fun b => b ++ replicate (length ds) TTerm)) in Hrs.
      rewrite concat_Join_trailing in Hrs.
      * rewrite <- !app_assoc in Hrs. exact Hrs.
      * destruct (Z.to_nat d) eqn:En; [lia | discriminate].
Qed.

End FormatFacts.

(** ** Round trip: the table *)

Section TableFacts.
Context `{Package}.
Variable f : Format.

Lemma raw_cons t toks : raw f (t :: toks) = raw_token f t ++ raw f toks.
Proof. reflexivity. Qed.

Lemma raw_app toks1 toks2 : raw f (toks1 ++ toks2) = raw f toks1 ++ raw f toks2.
Proof. unfold raw. rewrite fmap_app, concat_app. reflexivity. Qed.

Lemma raw_terms n : raw f (replicate n TTerm) = replicate n r_newline.
Proof.
  induction n as [| n IH]; [reflexivity |].
  rewrite !replicate_S, raw_cons. cbn [raw_token app]. f_equal. exact IH.
Qed.

(** A cell without tabs is collected up to its tab. *)
Lemma tw_line_cell i j s cell more :
  Forall (fun r => r <> r_tab) s ->
  tw_line i j cell (s ++ r_tab :: more)
  = replicate (S (tabwriter_pad i j)) r_space ++ (cell ++ s)
    ++ tw_line i (S j) [] more.
Proof.
  intros Hs. revert cell. induction Hs as [| r s Hr _ IH]; intros cell.
  - cbn [app tw_line]. rewrite Z.eqb_refl, app_nil_r. reflexivity.
  - cbn [app tw_line]. destruct (Z.eqb_spec r r_tab); [contradiction |].
    rewrite IH, <- (app_assoc cell [r] s). reflexivity.
Qed.

(** A line without newlines is collected up to its newline. *)
Lemma tw_lines_line i s line text :
  Forall (fun r => r <> r_newline) s ->
  tw_lines i line (s ++ text) = tw_lines i (line ++ s) text.
Proof.
  intros Hs. revert line. induction Hs as [| r s Hr _ IH]; intros line.
  - rewrite app_nil_r. reflexivity.
  - cbn [app tw_lines]. destruct (Z.eqb_spec r r_newline); [contradiction |].
    rewrite IH, <- (app_assoc line [r] s). reflexivity.
Qed.

Lemma plain_no_tab e : plain f e -> Forall (fun r => r <> r_tab) (Value_String f e).
Proof. intros He. apply Forall_forall. intros r Hr. apply (He r Hr). Qed.

Lemma plain_no_newline e :
  plain f e -> Forall (fun r => r <> r_newline) (Value_String f e ++ [r_tab]).
Proof.
  intros He. apply Forall_app. split.
  - apply Forall_forall. intros r Hr. apply (He r Hr).
  - repeat constructor. discriminate.
Qed.

Lemma tw_line_cells i es j :
  Forall (plain f) es ->
  tw_line i j [] (raw f (TElem <$> es)) = tw_out f i j (TElem <$> es).
Proof.
  intros Hes. revert j. induction Hes as [| e es He _ IH]; intros j; [reflexivity |].
  rewrite fmap_cons, raw_cons. cbn [raw_token tw_out].
  rewrite <- app_assoc. cbn [app].
  rewrite tw_line_cell by (apply plain_no_tab, He).
  rewrite IH. reflexivity.
Qed.

Lemma tw_out_app_elems i j es toks :
  tw_out f i j ((TElem <$> es) ++ toks)
  = tw_out f i j (TElem <$> es) ++ tw_out f i (j + length es) toks.
Proof.
  revert j. induction es as [| e es IH]; intros j.
  - simpl. rewrite Nat.add_0_r. reflexivity.
  - rewrite fmap_cons. cbn [app tw_out length]. rewrite IH, <- !app_assoc.
    replace (S j + length es)%nat with (j + S (length es))%nat by lia.
    reflexivity.
Qed.

(** The tabwriter on what [ArrayString] writes. *)
Lemma tw_lines_raw toks i es :
  Forall (plain f) es ->
  Forall (fun t => match t with TElem e => plain f e | TTerm => True end) toks ->
  tw_lines i (raw f (TElem <$> es)) (raw f toks)
  = tw_out f i 0 ((TElem <$> es) ++ toks).
Proof.
  intros Hes Htoks. revert i es Hes.
  induction Htoks as [| t toks Ht _ IH]; intros i es Hes.
  - cbn [raw fmap list_fmap concat tw_lines]. rewrite app_nil_r.
    apply tw_line_cells, Hes.
  - rewrite raw_cons. destruct t as [e |].
    + cbn [raw_token]. rewrite tw_lines_line by (apply plain_no_newline, Ht).
      replace (raw f (TElem <$> es) ++ Value_String f e ++ [r_tab])
        with (raw f (TElem <$> (es ++ [e])))
        by (rewrite fmap_app, raw_app; cbn; rewrite app_nil_r; reflexivity).
      rewrite IH by (apply Forall_app; split; [assumption | constructor; [assumption | constructor]]).
      rewrite fmap_app, <- app_assoc. reflexivity.
    + cbn [raw_token app tw_lines]. rewrite Z.eqb_refl.
      rewrite tw_line_cells by assumption.
      rewrite tw_out_app_elems. cbn [tw_out]. f_equal. f_equal.
      apply (IH (S i) [] ltac:(constructor)).
Qed.

Lemma tabwriter_Flush_raw toks :
  Forall (fun t => match t with TElem e => plain f e | TTerm => True end) toks ->
  tabwriter_Flush (raw f toks) = tw_out f 0 0 toks.
Proof. intros Ht. apply (tw_lines_raw toks O [] ltac:(constructor) Ht). Qed.

Lemma tw_out_snoc_term toks i j :
  tw_out f i j (toks ++ [TTerm]) = tw_out f i j toks ++ [r_newline].
Proof.
  revert i j. induction toks as [| [e |] toks IH]; intros i j; cbn [app tw_out].
  - reflexivity.
  - rewrite IH, <- !app_assoc. reflexivity.
  - rewrite IH. reflexivity.
Qed.

Lemma renders_blanks n text toks :
  renders f text toks -> renders f (replicate n r_space ++ text) toks.
Proof.
  intros Hr. induction n as [| n IH]; [exact Hr |].
  cbn [replicate app]. apply renders_skip; [reflexivity | reflexivity | exact IH].
Qed.

Lemma tw_out_delimited i j toks : delimited (tw_out f i j toks).
Proof. destruct toks as [| [e |] toks]; cbn [tw_out]; [exact I | reflexivity ..]. Qed.

(** The table renders its tokens. *)
Lemma renders_tw_out toks i j :
  Forall (fun t => match t with TElem e => elem_round_trips f e | TTerm => True end)
         toks ->
  renders f (tw_out f i j toks) toks.
Proof.
  intros Ht. revert i j. induction Ht as [| t toks Ht _ IH]; intros i j.
  - constructor.
  - destruct t as [e |]; cbn [tw_out].
    + apply (renders_blanks (S _)).
      apply renders_elem; [exact Ht | apply tw_out_delimited | apply IH].
    + apply renders_term; [reflexivity | apply IH].
Qed.

End TableFacts.

(** ** Round trip: the odometer of [ArrayString] *)

Section OdometerFacts.
Context `{Package}.
Variable f : Format.
Variable v : Array.

Lemma chunks_take {A} n w (l : list A) :
  chunks n w (take (n * w) l) = chunks n w l.
Proof.
  revert l. induction n as [| n IH]; intros l; [reflexivity |].
  cbn [chunks Nat.mul]. rewrite take_take, <- take_drop_commute.
  replace (Nat.min w (w + n * w)) with w by lia.
  rewrite IH. reflexivity.
Qed.

Lemma At_lookup (k : nat) e :
  Elems v !! k = Some e -> At v (Z.of_nat k) = Some e.
Proof.
  intros He. unfold At. destruct (Z.ltb_spec (Z.of_nat k) 0); [lia |].
  rewrite Nat2Z.id. exact He.
Qed.

Lemma table_loop_S n i idx buf e :
  At v i = Some e ->
  table_loop f v (S n) i idx buf
  = let buf := buf ++ Value_String f e ++ [r_tab] in
    let '(idx, term) := inc (Shape v) idx in
    let buf :=
      if term >? 0 then buf ++ replicate (Z.to_nat term) r_newline
      else if term =? -1 then buf ++ [r_newline]
      else buf in
    table_loop f v n (i + 1) idx buf.
Proof. intros He. cbn [table_loop]. rewrite He. reflexivity. Qed.

Lemma newlines_term_count buf term :
  (if term >? 0 then buf ++ replicate (Z.to_nat term) r_newline
   else if term =? -1 then buf ++ [r_newline]
   else buf)
  = buf ++ raw f (replicate (term_count term) TTerm).
Proof.
  rewrite raw_terms. unfold term_count.
  destruct (term >? 0); [reflexivity |].
  destruct (term =? -1); [reflexivity | rewrite app_nil_r; reflexivity].
Qed.

(** Along the last axis: [m] values from position [x] on, then the carry
    into the axes in front. *)
Lemma table_loop_last_axis pre pidx d :
  Shape v = pre ++ [d] ->
  forall m x k n buf,
    (1 <= m)%nat -> x + Z.of_nat m = d ->
    (k + m <= length (Elems v))%nat ->
    table_loop f v (m + n) (Z.of_nat k) (pidx ++ [x]) buf
    = let '(pr, t) := inc_from 1 (rev pre) (rev pidx) in
      table_loop f v n (Z.of_nat (k + m)) (rev pr ++ [0])
        (buf ++ raw f (TElem <$> take m (drop k (Elems v)))
             ++ raw f (replicate (term_count t) TTerm)).
Proof.
  intros Hshape. induction m as [| m IH]; intros x k n buf Hm Hx Hk; [lia |].
  destruct (lookup_lt_is_Some_2 (Elems v) k) as [e He]; [lia |].
  cbn [Nat.add]. rewrite (table_loop_S _ _ _ _ e (At_lookup k e He)).
  cbv zeta. unfold inc. rewrite Hshape, !rev_unit. cbn [inc_from].
  rewrite (drop_S _ _ _ He). cbn [take fmap list_fmap].
  rewrite raw_cons. cbn [raw_token].
  destruct (Z.eqb_spec (x + 1) d) as [Ex | Nx].
  - assert (m = O) by lia. subst m. clear IH.
    change (0 + 1) with 1.
    destruct (inc_from 1 (rev pre) (rev pidx)) as [pr t].
    rewrite newlines_term_count.
    replace (Z.of_nat (k + 1)) with (Z.of_nat k + 1) by lia.
    cbn [rev take fmap list_fmap Nat.add]. unfold raw at 3. cbn [fmap list_fmap concat].
    rewrite app_nil_r, <- !app_assoc. reflexivity.
  - rewrite newlines_term_count. cbn [term_count Z.gtb Z.compare Z.eqb replicate].
    unfold raw at 1. cbn [fmap list_fmap concat]. rewrite app_nil_r.
    cbn [rev]. rewrite rev_involutive.
    replace (Z.of_nat k + 1) with (Z.of_nat (S k)) by lia.
    rewrite (IH (x + 1) (S k) n) by lia.
    destruct (inc_from 1 (rev pre) (rev pidx)) as [pr t].
    replace (S k + m)%nat with (k + S m)%nat by lia.
    rewrite <- !app_assoc. reflexivity.
Qed.

(** [m] parts along an axis in front of the axes [ds]: their tokens with
    the separators in between, then the carry into the axes in front. *)
Lemma table_loop_parts pre pidx d ds (p : nat) :
  ds <> [] -> Shape v = pre ++ d :: ds ->
  (forall pidx' k n buf,
      length pidx' = S (length pidx) ->
      (k + p <= length (Elems v))%nat ->
      table_loop f v (p + n) (Z.of_nat k) (pidx' ++ replicate (length ds) 0) buf
      = let '(pr, t) := inc_from (Z.of_nat (length ds)) (rev (pre ++ [d])) (rev pidx') in
        table_loop f v n (Z.of_nat (k + p)) (rev pr ++ replicate (length ds) 0)
          (buf ++ raw f (block ds (take p (drop k (Elems v))))
               ++ raw f (replicate (term_count t) TTerm))) ->
  forall m x k n buf,
    (1 <= m)%nat -> x + Z.of_nat m = d ->
    (k + m * p <= length (Elems v))%nat ->
    table_loop f v (m * p + n) (Z.of_nat k)
               (pidx ++ x :: replicate (length ds) 0) buf
    = let '(pr, t) := inc_from (Z.of_nat (length ds) + 1) (rev pre) (rev pidx) in
      table_loop f v n (Z.of_nat (k + m * p))
        (rev pr ++ 0 :: replicate (length ds) 0)
        (buf ++ raw f (Join (block ds <$> chunks m p (drop k (Elems v)))
                            (replicate (length ds) TTerm))
             ++ raw f (replicate (term_count t) TTerm)).
Proof.
  intros Hds Hshape Hsub. induction m as [| m IH]; intros x k n buf Hm Hx Hk; [lia |].
  cbn [Nat.mul]. rewrite <- Nat.add_assoc.
  rewrite (cons_middle x pidx), app_assoc.
  rewrite Hsub by (rewrite ?length_app; simpl; lia).
  rewrite !rev_unit. cbn [inc_from].
  destruct (Z.eqb_spec (x + 1) d) as [Ex | Nx].
  - assert (m = O) by lia. subst m. clear IH.
    destruct (inc_from (Z.of_nat (length ds) + 1) (rev pre) (rev pidx)) as [pr t].
    cbn [Nat.mul Nat.add chunks fmap list_fmap Join rev].
    rewrite <- app_assoc. cbn [app]. rewrite Nat.add_0_r. reflexivity.
  - assert (Hpos : term_count (Z.of_nat (length ds)) = length ds).
    { unfold term_count. destruct ds; [congruence |].
      destruct (Z.gtb_spec (Z.of_nat (length (z :: ds))) 0); [lia | simpl in *; lia]. }
    rewrite Hpos. cbn [rev]. rewrite rev_involutive, <- app_assoc. cbn [app].
    rewrite (IH (x + 1) (k + p)%nat n) by lia.
    destruct (inc_from (Z.of_nat (length ds) + 1) (rev pre) (rev pidx)) as [pr t].
    destruct m as [| m]; [lia |].
    rewrite Join_chunks_S, !raw_app, drop_drop.
    replace (k + p + S m * p)%nat with (k + (p + S m * p))%nat by lia.
    rewrite <- !app_assoc. reflexivity.
Qed.

(** A whole array of axes [ds] behind the axes [pre]. *)
Lemma table_loop_block ds :
  ds <> [] -> Forall (fun d => 1 <= d) ds ->
  forall pre pidx k n buf,
    Shape v = pre ++ ds ->
    (k + Z.to_nat (product ds) <= length (Elems v))%nat ->
    table_loop f v (Z.to_nat (product ds) + n) (Z.of_nat k)
               (pidx ++ replicate (length ds) 0) buf
    = let '(pr, t) := inc_from (Z.of_nat (length ds)) (rev pre) (rev pidx) in
      table_loop f v n (Z.of_nat (k + Z.to_nat (product ds)))
        (rev pr ++ replicate (length ds) 0)
        (buf ++ raw f (block ds (take (Z.to_nat (product ds)) (drop k (Elems v))))
             ++ raw f (replicate (term_count t) TTerm)).
Proof.
  intros Hne Hall. revert Hne.
  induction Hall as [| d ds Hd Hds IH]; intros Hne; [congruence |].
  intros pre pidx k n buf Hshape Hk.
  destruct ds as [| d' ds'].
  - cbn [product fold_right] in *. rewrite Z.mul_1_r in *.
    cbn [length replicate block].
    rewrite (table_loop_last_axis pre pidx d Hshape (Z.to_nat d) 0 k n buf)
      by lia.
    reflexivity.
  - specialize (IH ltac:(discriminate)). set (ds := d' :: ds') in *.
    pose proof (product_pos ds Hds) as Hp.
    rewrite product_cons in *.
    replace (Z.to_nat (d * product ds))
      with (Z.to_nat d * Z.to_nat (product ds))%nat in * by nia.
    change (block (d :: ds) ?e)
      with (Join (block ds <$> chunks (Z.to_nat d) (Z.to_nat (product ds)) e)
                 (replicate (length ds) TTerm)).
    cbn [length replicate].
    rewrite (table_loop_parts pre pidx d ds (Z.to_nat (product ds))
               ltac:(discriminate) Hshape) with (x := 0); try lia.
    + replace (Z.of_nat (S (length ds))) with (Z.of_nat (length ds) + 1) by lia.
      destruct (inc_from (Z.of_nat (length ds) + 1) (rev pre) (rev pidx)) as [pr t].
      rewrite chunks_take. reflexivity.
    + intros pidx' k' n' buf' Hl Hk'.
      apply IH; [| exact Hk']. rewrite Hshape, <- app_assoc. reflexivity.
Qed.

End OdometerFacts.

(** ** Round trip: the theorem *)

Section RoundTrip.
Context `{Package}.

Lemma fold_left_mul_product shape : fold_left Z.mul shape 1 = product shape.
Proof.
  assert (Hgen : forall l a, fold_left Z.mul l a = a * product l).
  { induction l as [| x l IHl]; intros a; simpl; [lia |].
    rewrite IHl. unfold product. lia. }
  rewrite Hgen. lia.
Qed.

Lemma Forall_Join {A} (P : A -> Prop) (bs : list (list A)) sep :
  Forall (Forall P) bs -> Forall P sep -> Forall P (Join bs sep).
Proof.
  intros Hbs Hsep. induction Hbs as [| b bs Hb _ IH]; [constructor |].
  rewrite Join_cons. destruct bs; [exact Hb |].
  apply Forall_app. split; [exact Hb |]. apply Forall_app. split; assumption.
Qed.

Lemma block_Forall (Q : Value -> Prop) dims elems :
  Forall Q elems ->
  Forall (fun t => match t with TElem e => Q e | TTerm => True end)
         (block dims elems).
Proof.
  revert elems. induction dims as [| d ds IH]; intros elems He; [constructor |].
  destruct ds as [| d' ds'].
  - cbn [block]. apply Forall_fmap. exact He.
  - set (ds := d' :: ds') in *.
    change (block (d :: ds) elems)
      with (Join (block ds <$> chunks (Z.to_nat d) (Z.to_nat (product ds)) elems)
                 (replicate (length ds) TTerm)).
    apply Forall_Join.
    + apply Forall_fmap. eapply Forall_impl; [apply chunks_Forall, He |].
      intros row Hrow. apply IH, Hrow.
    + apply Forall_replicate. exact I.
Qed.

Lemma round_trips_plain f es :
  Forall (elem_round_trips f) es -> Forall (plain f) es.
Proof.
  intros Hes. eapply Forall_impl; [exact Hes |].
  intros e (_ & Hp & _). exact Hp.
Qed.

(** What the tokens of an array and [k] terminators leave in the variables
    of [ScanRankArray], for the cases that come back. *)
Lemma tok_run_block_complete dims elems :
  dims <> [] -> Forall (fun d => 1 <= d) dims ->
  Z.of_nat (length elems) = product dims ->
  tok_run (block dims elems ++ replicate (length dims) TTerm) (Some ([], 0, []))
  = Some (elems, Z.of_nat (length dims), dims).
Proof.
  intros Hne Hall Hlen.
  rewrite tok_run_app, tok_run_block_first by assumption.
  apply tok_run_terms_complete; assumption.
Qed.

Lemma elems_nonempty dims (elems : list Value) :
  Forall (fun d => 1 <= d) dims ->
  Z.of_nat (length elems) = product dims -> elems <> [].
Proof.
  intros Hall Hlen. apply (length_Z_nonempty _ _ Hlen), product_pos, Hall.
Qed.

(** The text is parsed to the array when its tokens are those of the array
    and as many terminators as it has axes. *)
Lemma ParseArray_complete f text dims elems :
  dims <> [] -> Forall (fun d => 1 <= d) dims ->
  Z.of_nat (length elems) = product dims ->
  renders f text (block dims elems ++ replicate (length dims) TTerm) ->
  ParseArray None text = Done (Ok (VMixedArray dims elems)).
Proof.
  intros Hne Hall Hlen Hr.
  eapply ParseArray_renders; [exact Hr | apply tok_run_block_complete; assumption |].
  apply scan_finish_complete; [eapply elems_nonempty; eassumption |].
  rewrite Prod_product by assumption. symmetry. exact Hlen.
Qed.

(** The text is parsed to the array when its tokens are those of the array
    and at most as many terminators as the established shape is long. *)
Lemma ParseArray_prepends f text d ds elems k :
  Forall (fun d => 1 <= d) (d :: ds) ->
  Z.of_nat (length elems) = product (d :: ds) ->
  (ds = [] /\ Prod_nil <> d) \/ (ds <> [] /\ 2 <= d) ->
  (k <= length ds)%nat -> (ds = [] -> k = O) ->
  renders f text (block (d :: ds) elems ++ replicate k TTerm) ->
  ParseArray None text = Done (Ok (VMixedArray (d :: ds) elems)).
Proof.
  intros Hall Hlen Hcase Hk Hk0 Hr.
  pose proof (elems_nonempty _ _ Hall Hlen) as Hne.
  inversion Hall as [| ? ? Hd Hds]; subst.
  assert (Hest : established (d :: ds) = ds).
  { cbn [established]. destruct Hcase as [[-> _] | [_ Hd2]].
    - destruct (d =? 1); reflexivity.
    - destruct (Z.eqb_spec d 1); [lia | reflexivity]. }
  eapply ParseArray_renders; [exact Hr | |].
  - rewrite tok_run_app, tok_run_block_first by (try assumption; discriminate).
    rewrite Hest. apply tok_run_terms_within; [assumption | lia | lia].
  - apply scan_finish_prepends; [assumption | exact Hlen |].
    destruct Hcase as [[-> Hn] | ?]; [left | right; assumption].
    repeat split; assumption.
Qed.

End RoundTrip.

(** C1, as the code has it.  Let the array [v] have at least one axis, all
    axes of length at least one, as many elements as the product of its
    shape, and elements that each survive printing and scanning on their own
    (as an [Int] does when no format is registered for it and the tower
    reads integers, [Int_round_trips]).  Then [ParseArray] applied to the
    string of [ArrayString] yields a mixed array of the shape and the
    elements of [v]
    - under [PP = -2] always;
    - under [PP = -3] for a vector, and for a matrix of at least two rows;
    - under [PP = -1] for a vector whose length is not what [Prod] returns
      for the empty shape, and for an array of two or more axes whose first
      axis is at least two long. *)
Theorem array_round_trip `{Package} (f : Format) (v : Array) :
  Forall (fun d => 1 <= d) (Shape v) ->
  Size v = product (Shape v) ->
  Forall (elem_round_trips f) (Elems v) ->
  round_trip_shape (PP f) (Shape v) ->
  round_trip f v.
Proof.
  intros Hall Hsize Hel Hshape. unfold Size in Hsize.
  destruct (Shape v) as [| d ds] eqn:Edims; [contradiction |].
  cbn [round_trip_shape] in Hshape. unfold round_trip. rewrite Edims.
  assert (Hne : d :: ds <> []) by discriminate.
  inversion Hall as [| ? ? Hd Hds]; subst.
  pose proof (elems_nonempty _ _ Hall Hsize) as Hnel.
  destruct Hshape as [HPP | [[HPP Hrank] | [HPP Hrank]]].
  - (* PP = -2: nested brackets *)
    destruct (vector_renders f (d :: ds) Hne Hall (Elems v) [] [] []
                Hsize Hel ltac:(constructor)) as (text & Hv & Hr).
    rewrite !app_nil_r in Hv, Hr. rewrite (app_nil_r (replicate _ TTerm)) in Hr.
    exists text. split.
    + unfold ArrayString, jsonArray, stringArray. rewrite HPP, Edims. exact Hv.
    + exact (ParseArray_complete f text (d :: ds) (Elems v) Hne Hall Hsize Hr).
  - (* PP = -3: the matrix literal *)
    unfold ArrayString, matArray, stringArray. rewrite HPP, Edims.
    cbn [Z.eqb Pos.eqb fst snd].
    destruct Hrank as [-> | [Hlen Hd2]].
    + eexists. split; [reflexivity |].
      apply (ParseArray_complete f _ [d] (Elems v)); try assumption.
      apply renders_skip; [reflexivity | reflexivity |].
      apply (renders_Join_elems f r_comma);
        [reflexivity | reflexivity | assumption | assumption
        | apply delimited_terminator; reflexivity |].
      apply renders_term; [reflexivity | constructor].
    + destruct ds as [| d1 [| ? ?]]; try discriminate Hlen. clear Hlen.
      inversion Hds as [| ? ? Hd1 _]; subst.
      cbn [product fold_right] in Hsize. rewrite Z.mul_1_r in Hsize.
      rewrite (mat_rows_chunks d d1) by (rewrite ?length_fmap; lia).
      cbn [mbind option_bind]. rewrite drop_0.
      eexists. split; [reflexivity |].
      apply (ParseArray_prepends f _ d [d1] (Elems v) 1);
        [assumption | cbn [product fold_right]; lia
        | right; split; [discriminate | assumption]
        | simpl; lia | discriminate |].
      rewrite <- !app_assoc.
      apply renders_skip; [reflexivity | reflexivity |].
      change (block [d; d1] (Elems v))
        with (Join ((fun row : list Value => TElem <$> row) <$>
                      chunks (Z.to_nat d) (Z.to_nat (product [d1])) (Elems v))
                   [TTerm]).
      cbn [product fold_right]. rewrite Z.mul_1_r.
      destruct (Z.to_nat d) as [| n] eqn:En; [lia |].
      apply (renders_mat_rows f n (Z.to_nat d1) (Elems v));
        [lia | nia | assumption | eexists _, _; split; reflexivity |].
      apply renders_term; [reflexivity | constructor].
  - (* PP = -1: blanks, and the table *)
    unfold ArrayString. rewrite HPP, Edims. cbn [Z.eqb Pos.eqb].
    destruct Hrank as [[-> Hnil] | [Hds0 Hd2]].
    + cbn [product fold_right] in Hsize. rewrite Z.mul_1_r in Hsize.
      destruct (Z.ltb_spec d 0); [lia |].
      rewrite mapM_At by (unfold Size; lia).
      rewrite take_ge by lia. cbn [mbind option_bind].
      eexists. split; [reflexivity |].
      apply (ParseArray_prepends f _ d [] (Elems v) 0);
        [assumption | cbn [product fold_right]; lia
        | left; split; [reflexivity | assumption] | simpl; lia | reflexivity |].
      cbn [replicate]. rewrite app_nil_r.
      rewrite <- (app_nil_r (Join _ _)), <- (app_nil_r (block _ _)).
      apply (renders_Join_elems f r_space);
        [reflexivity | reflexivity | assumption | assumption | exact I | constructor].
    + destruct ds as [| d1 ds1]; [congruence |].
      set (dims := d :: d1 :: ds1) in *.
      rewrite fold_left_mul_product.
      pose proof (table_loop_block f v dims Hne Hall [] [] O O []
                    Edims ltac:(lia)) as Hloop.
      cbn [rev inc_from app Nat.add] in Hloop.
      rewrite Nat.add_0_r in Hloop. change (Z.of_nat 0) with 0 in Hloop.
      rewrite Hloop. clear Hloop.
      cbn [table_loop mbind option_bind].
      rewrite drop_0, take_ge by lia.
      change (term_count (-1)) with 1%nat. rewrite <- raw_app.
      rewrite tabwriter_Flush_raw.
      2:{ apply Forall_app. split; [| repeat constructor].
          apply block_Forall, round_trips_plain, Hel. }
      rewrite tw_out_snoc_term, last_snoc, Z.eqb_refl, removelast_last.
      eexists. split; [reflexivity |].
      apply (ParseArray_prepends f _ d (d1 :: ds1) (Elems v) 0);
        [assumption | assumption | right; split; [discriminate | assumption]
        | simpl; lia | discriminate |].
      cbn [replicate]. rewrite app_nil_r.
      apply renders_tw_out, block_Forall, Hel.
Qed.

Lemma array_round_trip_witness :
  @round_trip IntHost {| PP := -1; Fmt := ∅ |}
    (mkArray [2; 3] [VInt 1; VInt (-2); VInt 3; VInt 4; VInt 5; VInt 6]).
Proof.
  apply (@array_round_trip IntHost).
  - repeat constructor; discriminate.
  - reflexivity.
  - cbn [Elems].
    repeat (apply List.Forall_cons;
              [apply (@Int_round_trips IntHost);
               [exact IntHost_int_tower | reflexivity
               | unfold GoInt.in_range; split; discriminate] |]).
    apply List.Forall_nil.
  - right. right. split; [reflexivity |]. right. split; [discriminate | discriminate].
Defined.

(** Arrays that do not come back: a matrix of one row, under [PP = -1] and
    under [PP = -3], is parsed to a vector; the empty vector is printed as
    the empty string, which is not parsed at all; an array of three axes is
    printed as [[rank error]] under [PP = -3]. *)
Lemma round_trip_fails_on_row_matrix :
  let row := mkArray [1; 3] [VInt 1; VInt 2; VInt 3] in
  ~ @round_trip IntHost {| PP := -1; Fmt := ∅ |} row /\
  ~ @round_trip IntHost {| PP := -3; Fmt := ∅ |} row /\
  ~ @round_trip IntHost {| PP := -1; Fmt := ∅ |} (mkArray [0] []) /\
  ~ @round_trip IntHost {| PP := -3; Fmt := ∅ |}
      (mkArray [2; 1; 2] [VInt 1; VInt 2; VInt 3; VInt 4]).
Proof.
  intros row. repeat split; intros (text & Ht & Hp);
    vm_compute in Ht; injection Ht as <-; vm_compute in Hp; discriminate.
Qed.

Example ParseArray_row_matrix :
  @ParseArray IntHost None (runes " 1 2 3")
  = Done (Ok (VMixedArray [3] [VInt 1; VInt 2; VInt 3])).
Proof. reflexivity. Qed.

Example cube_round_trip :
  let v := mkArray [2; 1; 2] [VInt 1; VInt 2; VInt 3; VInt 4] in
  @ArrayString IntHost {| PP := -1; Fmt := ∅ |} v
  = Some (runes " 1 2" ++ [r_newline; r_newline] ++ runes " 3 4") /\
  @ParseArray IntHost None (runes " 1 2" ++ [r_newline; r_newline] ++ runes " 3 4")
  = Done (Ok (VMixedArray (Shape v) (Elems v))).
Proof. split; reflexivity. Qed.

(** ** The reader and the rows of [TestIv] *)

(** On every row of the test table the reader yields the rows that the
    expected output shows, values and flags. *)
Lemma iv_read_TestIv_cases :
  Forall (fun tc =>
            @iv_read IntHost (tc_rank tc) (tc_data tc)
            = (fun row : shown * Z => (@value_shown IntHost row.1, row.2))
                <$> tc_rows tc)
         TestIv_cases.
Proof. repeat constructor. Qed.



(* ================================================================== *)
(** * Part III: further properties of the code *)
(* ================================================================== *)

(** ** [apl/int.go]: arithmetic on [Int] *)

Section IntArith.
Import GoInt GoIntFacts.

(** X1.  [Abs] returns the absolute value of every [Int] but the least one:
    the negation of [min_int] wraps around, so that [Abs] returns the
    negative [min_int] itself there. *)
Theorem Int_Abs_wraps_at_min_int (i : Z) :
  in_range i ->
  Int_Abs i = Some (if i =? min_int then min_int else Z.abs i).
Proof.
  intros Hi. unfold Int_Abs.
  destruct (Z.ltb_spec i 0) as [Hn | Hn]; destruct (Z.eqb_spec i min_int) as [E | E];
    f_equal; int_lia.
Qed.

Lemma Int_Abs_wraps_at_min_int_witness :
  Int_Abs min_int = Some min_int /\ Int_Abs (-5) = Some 5.
Proof.
  split.
  - apply (Int_Abs_wraps_at_min_int min_int). unfold in_range, min_int, max_int. lia.
  - apply (Int_Abs_wraps_at_min_int (-5)). unfold in_range, min_int, max_int. lia.
Defined.

(** X2.  Signum and absolute value take an [Int] apart: the product of
    [Mul] (the signum) and [Abs] is the number itself, for [min_int] as
    well, where [Abs] has wrapped around. *)
Theorem Int_Mul_Abs_decompose (i : Z) :
  in_range i ->
  exists s a, Int_Mul i = Some s /\ Int_Abs i = Some a /\
              (s = -1 \/ s = 0 \/ s = 1) /\ Int_Mul2 s a = Some i.
Proof.
  intros Hi. unfold Int_Mul, Int_Abs, Int_Mul2.
  destruct (Z.gtb_spec i 0) as [Hp | Hp]; destruct (Z.ltb_spec i 0) as [Hn | Hn];
    try lia; eexists _, _; (split; [reflexivity |]); (split; [reflexivity |]);
    (split; [lia |]); f_equal; int_lia.
Qed.

Lemma Int_Mul_Abs_decompose_witness :
  exists s a, Int_Mul min_int = Some s /\ Int_Abs min_int = Some a /\
              (s = -1 \/ s = 0 \/ s = 1) /\ Int_Mul2 s a = Some min_int.
Proof.
  apply (Int_Mul_Abs_decompose min_int). unfold in_range, min_int, max_int. lia.
Defined.

(** X3.  Addition and subtraction undo each other whether or not the sum
    overflows: [(a + b) - b] is [a] for every [Int] [a] and [b]. *)
Theorem Int_Sub2_undoes_Add2 (a b : Z) :
  in_range a ->
  (s ← Int_Add2 a b; Int_Sub2 s b) = Some a /\
  (s ← Int_Sub2 a b; Int_Add2 s b) = Some a.
Proof.
  intros Ha. unfold Int_Add2, Int_Sub2. cbn [mbind option_bind].
  split; f_equal; int_lia.
Qed.

Lemma Int_Sub2_undoes_Add2_witness :
  (s ← Int_Add2 max_int 1; Int_Sub2 s 1) = Some max_int /\
  (s ← Int_Sub2 max_int 1; Int_Add2 s 1) = Some max_int.
Proof.
  apply (Int_Sub2_undoes_Add2 max_int 1). unfold in_range, min_int, max_int. lia.
Defined.

(** X4.  Negation: [Sub] is an involution, the sum of a number and its
    negation is zero, and subtracting is adding the negation; all three
    hold at [min_int] too, which is its own negation. *)
Theorem Int_Sub_negation (a b : Z) :
  in_range a -> in_range b ->
  (n ← Int_Sub a; Int_Sub n) = Some a /\
  (n ← Int_Sub a; Int_Add2 a n) = Some 0 /\
  (n ← Int_Sub b; Int_Add2 a n) = Int_Sub2 a b.
Proof.
  intros Ha Hb. unfold Int_Sub, Int_Add2, Int_Sub2. cbn [mbind option_bind].
  split; [| split]; f_equal; int_lia.
Qed.

Lemma Int_Sub_negation_witness :
  (n ← Int_Sub min_int; Int_Sub n) = Some min_int /\
  (n ← Int_Sub min_int; Int_Add2 min_int n) = Some 0 /\
  (n ← Int_Sub 3; Int_Add2 min_int n) = Int_Sub2 min_int 3.
Proof.
  apply (Int_Sub_negation min_int 3); unfold in_range, min_int, max_int; lia.
Defined.

(** X5.  The reciprocal [Div] closes on [1] and [-1] only, and it is the
    dyadic division of [1]: [i.Div()] and [Int(1).Div2(i)] agree on every
    [Int]. *)
Theorem Int_Div_is_Div2_of_one (i : Z) :
  in_range i ->
  Int_Div i = Int_Div2 1 i /\ (is_Some (Int_Div i) <-> i = 1 \/ i = -1).
Proof.
  intros Hi. split.
  - unfold Int_Div, Int_Div2.
    destruct (Z.eqb_spec i 1) as [-> | H1]; [reflexivity |].
    destruct (Z.eqb_spec i (-1)) as [-> | H2]; [reflexivity |].
    destruct (Z.eqb_spec i 0) as [-> | H0]; [reflexivity |].
    assert (E : 1 ÷ i = 0) by (apply Z.quot_small_iff; [lia |]; lia).
    unfold div, mul. rewrite E. reflexivity.
  - unfold Int_Div.
    destruct (Z.eqb_spec i 1); destruct (Z.eqb_spec i (-1)); split; intros Hs;
      try (eexists; reflexivity); try lia; try (destruct Hs; discriminate).
Qed.

Lemma Int_Div_is_Div2_of_one_witness :
  Int_Div (-1) = Int_Div2 1 (-1) /\ (is_Some (Int_Div (-1)) <-> -1 = 1 \/ -1 = -1).
Proof.
  apply (Int_Div_is_Div2_of_one (-1)). unfold in_range, min_int, max_int. lia.
Defined.

(** X6.  Division undoes multiplication: when the product [a*b] does not
    overflow and [b] is not zero, [(a*b).Div2(b)] closes and returns [a]. *)
Theorem Int_Div2_undoes_Mul2 (a b : Z) :
  in_range a -> in_range b -> in_range (a * b) -> b <> 0 ->
  (p ← Int_Mul2 a b; Int_Div2 p b) = Some a.
Proof.
  intros Ha Hb Hab Hb0. unfold Int_Mul2. cbn [mbind option_bind].
  unfold mul at 1. rewrite (wrap_small _ Hab). unfold Int_Div2.
  destruct (Z.eqb_spec b 0) as [| _]; [contradiction |].
  unfold div, mul. rewrite Z.quot_mul by assumption.
  rewrite (wrap_small _ Ha), (wrap_small _ Hab), Z.eqb_refl. reflexivity.
Qed.

Lemma Int_Div2_undoes_Mul2_witness :
  (p ← Int_Mul2 (-7) 6; Int_Div2 p 6) = Some (-7).
Proof.
  apply (Int_Div2_undoes_Mul2 (-7) 6); unfold in_range, min_int, max_int; lia.
Defined.

(** The loop of [Gamma] multiplies without overflow up to 20. *)
Lemma Gamma_loop_fact (n : nat) :
  (n <= 20)%nat -> Gamma_loop (Z.of_nat n) = factorial n.
Proof.
  intros Hn.
  do 21 (destruct n as [| n]; [vm_compute; reflexivity |]). lia.
Qed.

(** X7.  [Gamma] is the factorial: it closes exactly on [0 .. 20] and
    returns [i!] there, the number itself and not a wrapped one. *)
Theorem Int_Gamma_factorial (i : Z) :
  Int_Gamma i =
  if (0 <=? i) && (i <=? 20) then Some (factorial (Z.to_nat i)) else None.
Proof.
  unfold Int_Gamma.
  destruct (Z.ltb_spec i 0) as [Hn | Hn]; destruct (Z.gtb_spec i 20) as [Hg | Hg];
    destruct (Z.leb_spec 0 i) as [Hl | Hl]; destruct (Z.leb_spec i 20) as [Hu | Hu];
    try lia; cbn [orb andb]; try reflexivity.
  destruct (Z.eqb_spec i 0) as [-> | Hz]; [reflexivity |].
  f_equal. rewrite <- (Z2Nat.id i) at 1 by lia. apply Gamma_loop_fact. lia.
Qed.

End IntArith.
Section Gamma2Binomial.
Import GoInt GoIntFacts.

Lemma choose_gt n : forall k, (n < k)%nat -> choose n k = 0.
Proof.
  induction n as [| n IH]; intros [| k] Hk; try lia; [reflexivity |].
  cbn [choose]. rewrite !IH by lia. reflexivity.
Qed.

Lemma even_of_nat n : Z.even (Z.of_nat n) = Nat.even n.
Proof.
  induction n as [| n IH]; [reflexivity |].
  rewrite Nat2Z.inj_succ, Z.even_succ, <- Z.negb_even, IH, Nat.even_succ.
  unfold Nat.odd. reflexivity.
Qed.

(** More activations than needed do not change the result. *)
Lemma Int_Gamma2_more depth : forall L R v,
  Int_Gamma2 depth L R = Some v -> Int_Gamma2 (S depth) L R = Some v.
Proof.
  induction depth as [| depth IH]; intros L R v; [discriminate |].
  intros Hv. cbn [Int_Gamma2] in Hv. 
  change (Int_Gamma2 (S (S depth)) L R) with
    (match Gamma2_select L R with
      | GClosed =>
          Some (match Int_Gamma L with
                | None => None
                | Some lg =>
                    match Int_Gamma R with
                    | None => None
                    | Some rg =>
                        match Int_Gamma (GoInt.sub R L) with
                        | None => None
                        | Some rlg => Some (GoInt.div rg (GoInt.mul lg rlg))
                        end
                    end
                end)
      | GZero => Some (Some 0)
      | GReflectR =>
          match Int_Gamma2 (S depth) L (GoInt.sub L (GoInt.add 1 R)) with
          | None => None
          | Some None => Some None
          | Some (Some v) => Some (Some (GoInt.mul (m1exp L) v))
          end
      | GReflectLR =>
          let al1 := GoInt.add 1 L in
          let al1 := if al1 <? 0 then GoInt.neg al1 else al1 in
          match Int_Gamma2 (S depth) (GoInt.neg (GoInt.add R 1)) al1 with
          | None => None
          | Some None => Some None
          | Some (Some v) => Some (Some (GoInt.mul (m1exp (GoInt.sub R L)) v))
          end
      | GNone => Some None
      end).
  destruct (Gamma2_select L R); try exact Hv.
  - destruct (Int_Gamma2 depth L (GoInt.sub L (GoInt.add 1 R))) as [w |] eqn:E;
      [| discriminate].
    rewrite (IH _ _ _ E). exact Hv.
  - cbv zeta in Hv |- *.
    destruct (Int_Gamma2 depth (GoInt.neg (GoInt.add R 1))
                (if GoInt.add 1 L <? 0 then GoInt.neg (GoInt.add 1 L) else GoInt.add 1 L))
      as [w |] eqn:E; [| discriminate].
    rewrite (IH _ _ _ E). exact Hv.
Qed.

Lemma Int_Gamma2_ge d d' L R v :
  (d <= d')%nat -> Int_Gamma2 d L R = Some v -> Int_Gamma2 d' L R = Some v.
Proof.
  intros Hd Hv. induction Hd as [| d' _ IH]; [exact Hv |].
  apply Int_Gamma2_more, IH.
Qed.

(** The table of [Gamma2] against the rule of Pascal, for the arguments
    where every factorial is within [0 .. 20]. *)
Lemma Gamma2_table_ok :
  forallb (fun R =>
    forallb (fun L =>
      bool_decide (Int_Gamma2 1 (Z.of_nat L) (Z.of_nat R)
                   = Some (Some (choose R L))))
      (seq 0 (S R)))
    (seq 0 21) = true.
Proof. vm_compute. reflexivity. Qed.

(** X8.  On nonnegative arguments [L.Gamma2(R)] is the binomial
    coefficient [R] over [L] of the triangle of Pascal, as long as [R] is at
    most 20; it is 0 for [L] greater than [R]. *)
Theorem Int_Gamma2_is_binomial (depth : nat) (L R : Z) :
  0 <= L -> in_range L -> 0 <= R <= 20 ->
  Int_Gamma2 (S depth) L R = Some (Some (choose (Z.to_nat R) (Z.to_nat L))).
Proof.
  intros HL HLr HR.
  apply (Int_Gamma2_ge 1); [lia |].
  destruct (Z.lt_ge_cases R L) as [Hlt | Hle].
  - rewrite choose_gt by lia.
    cbn [Int_Gamma2]. unfold Gamma2_select.
    destruct (Z.geb_spec L 0); [| lia]. destruct (Z.geb_spec R 0); [| lia].
    assert (E : sub R L = R - L) by (apply wrap_small; unfold_int; lia).
    rewrite E.
    destruct (Z.geb_spec (R - L) 0); [lia |].
    destruct (Z.ltb_spec (R - L) 0); [| lia]. reflexivity.
  - pose proof Gamma2_table_ok as Hok.
    rewrite forallb_forall in Hok.
    specialize (Hok (Z.to_nat R)). rewrite forallb_forall in Hok.
    assert (HinR : In (Z.to_nat R) (seq 0 21)) by (apply in_seq; lia).
    assert (HinL : In (Z.to_nat L) (seq 0 (S (Z.to_nat R)))) by (apply in_seq; lia).
    specialize (Hok HinR _ HinL). apply bool_decide_eq_true in Hok.
    rewrite !Z2Nat.id in Hok by lia. exact Hok.
Qed.

Lemma Int_Gamma2_is_binomial_witness :
  Int_Gamma2 1 2 5 = Some (Some 10).
Proof.
  apply (Int_Gamma2_is_binomial 0 2 5); unfold in_range, min_int, max_int; lia.
Defined.

(** X9.  [Gamma2] gives up where a factorial leaves [Int]: for
    [0 <= L <= R] with [R] above 20 it does not close, however small the
    binomial coefficient is. *)
Theorem Int_Gamma2_gives_up_above_20 (depth : nat) (L R : Z) :
  0 <= L <= R -> 20 < R -> in_range R ->
  Int_Gamma2 (S depth) L R = Some None.
Proof.
  intros HL HR Hr.
  cbn [Int_Gamma2]. unfold Gamma2_select.
  assert (E : sub R L = R - L) by (apply wrap_small; unfold_int; lia).
  rewrite E.
  destruct (Z.geb_spec L 0); [| lia]. destruct (Z.geb_spec R 0); [| lia].
  destruct (Z.geb_spec (R - L) 0); [| lia]. cbn [andb].
  assert (ER : Int_Gamma R = None).
  { unfold Int_Gamma. destruct (Z.gtb_spec R 20); [| lia].
    rewrite orb_true_r. reflexivity. }
  rewrite ER. destruct (Int_Gamma L); reflexivity.
Qed.

Lemma Int_Gamma2_gives_up_above_20_witness :
  Int_Gamma2 1 1 21 = Some None.
Proof.
  apply (Int_Gamma2_gives_up_above_20 0 1 21); unfold in_range, min_int, max_int; lia.
Defined.

(** The two rows of the table with a negative right argument that call
    [Gamma2] again: [R = -(k+1)] with [L - 1 - R = L + k] at most 20, and
    [L = -(n+1)], [R = -(k+1)] with [k <= n]. *)
Lemma Gamma2_reflect_ok :
  forallb (fun L =>
    forallb (fun k =>
      bool_decide (Int_Gamma2 2 (Z.of_nat L) (- Z.of_nat (S k))
                   = Some (Some ((if Nat.even L then 1 else -1)
                                 * choose (L + k) L))))
      (seq 0 (21 - L)))
    (seq 0 21)
  &&
  forallb (fun n =>
    forallb (fun k =>
      bool_decide (Int_Gamma2 2 (- Z.of_nat (S n)) (- Z.of_nat (S k))
                   = Some (Some ((if Nat.even (n - k) then 1 else -1)
                                 * choose n k))))
      (seq 0 (S n)))
    (seq 0 21) = true.
Proof. vm_compute. reflexivity. Qed.

(** X10.  With a negative right argument [Gamma2] follows the reflection
    formulas of the binomial coefficient: for [L >= 0] it is
    [(-1)^L] times [L-1-R] over [L]; for [L <= R < 0] it is [(-1)^(R-L)]
    times [-(L+1)] over [-(R+1)]; for [R < L < 0] it is 0. *)
Theorem Int_Gamma2_negative_right (depth : nat) (L R : Z) :
  R < 0 -> in_range L -> in_range R ->
  (0 <= L -> L - 1 - R <= 20 ->
   Int_Gamma2 (S (S depth)) L R
   = Some (Some ((if Z.even L then 1 else -1)
                 * choose (Z.to_nat (L - 1 - R)) (Z.to_nat L)))) /\
  (-21 <= L <= R ->
   Int_Gamma2 (S (S depth)) L R
   = Some (Some ((if Z.even (R - L) then 1 else -1)
                 * choose (Z.to_nat (- (L + 1))) (Z.to_nat (- (R + 1)))))) /\
  (R < L < 0 -> Int_Gamma2 (S (S depth)) L R = Some (Some 0)).
Proof.
  intros HR HLr HRr.
  pose proof Gamma2_reflect_ok as Hok.
  apply andb_true_iff in Hok. destruct Hok as [Hok1 Hok2].
  split; [| split].
  - intros HL Hb. apply (Int_Gamma2_ge 2); [lia |].
    rewrite forallb_forall in Hok1.
    specialize (Hok1 (Z.to_nat L) ltac:(apply in_seq; lia)).
    rewrite forallb_forall in Hok1.
    specialize (Hok1 (Z.to_nat (- R - 1)) ltac:(apply in_seq; lia)).
    apply bool_decide_eq_true in Hok1.
    replace (- Z.of_nat (S (Z.to_nat (- R - 1)))) with R in Hok1 by lia.
    rewrite Z2Nat.id in Hok1 by lia.
    replace (Z.to_nat L + Z.to_nat (- R - 1))%nat with (Z.to_nat (L - 1 - R)) in Hok1 by lia.
    rewrite Hok1. do 3 f_equal.
    rewrite <- (Z2Nat.id L) at 2 by lia. rewrite even_of_nat. reflexivity. 
  - intros HL. apply (Int_Gamma2_ge 2); [lia |].
    rewrite forallb_forall in Hok2.
    specialize (Hok2 (Z.to_nat (- (L + 1))) ltac:(apply in_seq; lia)).
    rewrite forallb_forall in Hok2.
    specialize (Hok2 (Z.to_nat (- (R + 1))) ltac:(apply in_seq; lia)).
    apply bool_decide_eq_true in Hok2.
    replace (- Z.of_nat (S (Z.to_nat (- (L + 1))))) with L in Hok2 by lia.
    replace (- Z.of_nat (S (Z.to_nat (- (R + 1))))) with R in Hok2 by lia.
    rewrite Hok2. do 3 f_equal.
    replace (R - L) with (Z.of_nat (Z.to_nat (- (L + 1)) - Z.to_nat (- (R + 1)))) by lia.
    rewrite even_of_nat. reflexivity.
  - intros HL. apply (Int_Gamma2_ge 1); [lia |].
    cbn [Int_Gamma2]. unfold Gamma2_select.
    assert (E : sub R L = R - L) by (apply wrap_small; unfold_int; lia).
    rewrite E.
    destruct (Z.geb_spec L 0); [lia |]. destruct (Z.geb_spec R 0); [lia |].
    destruct (Z.ltb_spec L 0); [| lia]. destruct (Z.ltb_spec R 0); [| lia].
    destruct (Z.geb_spec (R - L) 0); [lia |].
    destruct (Z.ltb_spec (R - L) 0); [| lia]. reflexivity.
Qed.

Lemma Int_Gamma2_negative_right_witness :
  Int_Gamma2 2 3 (-2) = Some (Some (-4)) /\
  Int_Gamma2 2 (-4) (-2) = Some (Some 3) /\
  Int_Gamma2 2 (-2) (-4) = Some (Some 0).
Proof.
  assert (H2 : (-2) < 0) by lia.
  assert (H4 : (-4) < 0) by lia.
  assert (R3 : in_range 3) by (unfold in_range, min_int, max_int; lia).
  assert (Rm2 : in_range (-2)) by (unfold in_range, min_int, max_int; lia).
  assert (Rm4 : in_range (-4)) by (unfold in_range, min_int, max_int; lia).
  split; [| split].
  - apply (proj1 (Int_Gamma2_negative_right 0 3 (-2) H2 R3 Rm2)); lia.
  - apply (proj1 (proj2 (Int_Gamma2_negative_right 0 (-4) (-2) H2 Rm4 Rm2))); lia.
  - apply (proj2 (proj2 (Int_Gamma2_negative_right 0 (-2) (-4) H4 Rm2 Rm4))); lia.
Defined.

End Gamma2Binomial.

(** ** [ParseInt] and [Int.String] *)

Section ParseIntFacts.
Import GoInt.

Lemma uint_of_runes_digits s u :
  uint_of_runes s = Some u -> Forall (fun r => is_digit r = true) s.
Proof.
  revert u. induction s as [| r s IH]; intros u Hu; [constructor |].
  cbn [uint_of_runes] in Hu.
  destruct (uint_of_runes s) as [u' |]; [| discriminate].
  constructor; [| eapply IH; reflexivity].
  apply is_digit_range.
  repeat match type of Hu with
         | (if ?r =? ?c then _ else _) = _ =>
             destruct (Z.eqb_spec r c); [lia |]
         end.
  discriminate.
Qed.

Lemma replace_all_digits s :
  Forall (fun r => is_digit r = true) (replace_all r_macron r_minus s) ->
  Forall (fun r => is_digit r = true) s.
Proof.
  unfold replace_all. induction s as [| r s IH]; intros Hs; [constructor |].
  cbn [map] in Hs. apply List.Forall_cons_iff in Hs. destruct Hs as [Hr Hs].
  constructor; [| exact (IH Hs)].
  destruct (Z.eqb_spec r r_macron); [discriminate | exact Hr].
Qed.

Lemma Atoi_in_range s z : Atoi s = Some z -> in_range z.
Proof.
  unfold Atoi.
  destruct (match s with
            | [] => (false, [])
            | r :: s' =>
                if r =? r_minus then (true, s')
                else if r =? r_plus then (false, s') else (false, s)
            end) as [negative digits].
  destruct digits; [discriminate |].
  destruct (uint_of_runes _) as [u |]; [| discriminate].
  destruct (_ && _) eqn:E; [| discriminate].
  intros [= <-]. apply andb_true_iff in E. rewrite !Z.leb_le in E. exact E.
Qed.

(** X11.  [ParseInt] reads back what [Int.String] writes: without a
    registered format for [Int], every [Int] is parsed to itself from its
    string, the negative ones with their high minus. *)
Theorem ParseInt_reads_Int_String `{Package} (f : Format) (i : Z) :
  Fmt f !! TInt = None -> in_range i ->
  ParseInt (Int_String f i) = Some i.
Proof.
  intros Hf Hi. rewrite (Int_String_default f i Hf).
  exact (ParseInt_Int_lexeme i Hi).
Qed.

Lemma ParseInt_reads_Int_String_witness :
  ParseInt (@Int_String IntHost {| PP := 0; Fmt := ∅ |} min_int) = Some min_int.
Proof.
  apply (@ParseInt_reads_Int_String IntHost {| PP := 0; Fmt := ∅ |} min_int).
  - reflexivity.
  - unfold in_range, min_int, max_int. lia.
Defined.

(** X12.  [ParseInt] accepts nothing but an optional sign (the high minus,
    the ASCII minus or a plus) in front of one or more decimal digits, and
    the number that it returns fits an [Int]. *)
Theorem ParseInt_accepts_signed_digits_only (s : gostring) (z : Z) :
  ParseInt s = Some z ->
  in_range z /\
  exists sign digits,
    s = sign ++ digits /\
    (sign = [] \/ sign = [r_minus] \/ sign = [r_macron] \/ sign = [r_plus]) /\
    digits <> [] /\ Forall (fun r => is_digit r = true) digits.
Proof.
  unfold ParseInt. intros Hz. split; [exact (Atoi_in_range _ _ Hz) |].
  unfold Atoi in Hz.
  destruct s as [| r s]; [discriminate |].
  change (replace_all r_macron r_minus (r :: s))
    with ((if r =? r_macron then r_minus else r) :: replace_all r_macron r_minus s) in Hz.
  cbv beta iota in Hz.
  set (r' := if r =? r_macron then r_minus else r) in Hz.
  set (s' := replace_all r_macron r_minus s) in Hz.
  assert (Hdig : forall negative digits,
             match digits with
             | [] => None
             | _ :: _ =>
                 match uint_of_runes digits with
                 | Some u =>
                     let n := Z.of_N (N.of_uint u) in
                     let z := if negative : bool then - n else n in
                     if (min_int <=? z) && (z <=? max_int) then Some z else None
                 | None => None
                 end
             end = Some z ->
             digits <> [] /\ Forall (fun r => is_digit r = true) digits).
  { intros negative digits Hd. destruct digits as [| d digits]; [discriminate |].
    split; [discriminate |].
    destruct (uint_of_runes (d :: digits)) as [u |] eqn:Eu; [| discriminate].
    exact (uint_of_runes_digits _ _ Eu). }
  destruct (Z.eqb_spec r' r_minus) as [Em | Em].
  - apply (Hdig true s') in Hz. destruct Hz as [Hne Hd].
    exists [r], s. split; [reflexivity |]. split.
    + subst r'. destruct (Z.eqb_spec r r_macron) as [-> | _]; [tauto | subst r; tauto].
    + split; [| apply replace_all_digits; exact Hd].
      intros ->. apply Hne. reflexivity.
  - destruct (Z.eqb_spec r' r_plus) as [Ep | Ep].
    + apply (Hdig false s') in Hz. destruct Hz as [Hne Hd].
      exists [r], s. split; [reflexivity |]. split.
      * subst r'. destruct (Z.eqb_spec r r_macron) as [-> | _]; [tauto | subst r; tauto].
      * split; [| apply replace_all_digits; exact Hd].
        intros ->. apply Hne. reflexivity.
    + apply (Hdig false (r' :: s')) in Hz. destruct Hz as [Hne Hd].
      exists [], (r :: s). split; [reflexivity |]. split; [tauto |].
      split; [discriminate |].
      apply (replace_all_digits (r :: s)). exact Hd.
Qed.

Lemma ParseInt_accepts_signed_digits_only_witness :
  in_range (-42) /\
  exists sign digits,
    [r_macron; 52; 50] = sign ++ digits /\
    (sign = [] \/ sign = [r_minus] \/ sign = [r_macron] \/ sign = [r_plus]) /\
    digits <> [] /\ Forall (fun r => is_digit r = true) digits.
Proof.
  apply (ParseInt_accepts_signed_digits_only [r_macron; 52; 50] (-42)).
  reflexivity.
Defined.

(** X13.  A format registered through [SetPP]: once an object whose last
    entry maps an [Int] key to the format [-%d] has been assigned, whatever
    the configuration was before and whatever the other entries are,
    [Int.String] prints the plain decimal notation with the ASCII minus, and
    [ParseInt] reads it back. *)
Theorem SetPP_minus_format_round_trip `{Package} (a : Format) (t : GoType)
    (entries : list (Value * option Value)) (k i : Z) :
  in_range i ->
  let a' := (SetPP a (VObject t (entries ++ [(VInt k, Some (VString (runes "-%d")))]))).1 in
  Int_String a' i = itoa i /\ ParseInt (Int_String a' i) = Some i.
Proof.
  intros Hi a'.
  assert (E : Fmt a' !! TInt = Some (runes "-%d")).
  { subst a'. cbn [SetPP fst Fmt]. rewrite fold_left_app. cbn [fold_left snd fst TypeOf].
    apply lookup_insert_eq. }
  assert (Es : Int_String a' i = itoa i).
  { change (runes "-%d") with (r_minus :: r_percent :: [100]) in E.
    rewrite (Int_String_keeps_minus a' i _ _ E). reflexivity. }
  split; [exact Es |]. rewrite Es.
  unfold ParseInt. rewrite replace_all_absent; [exact (Atoi_itoa i Hi) |].
  rewrite itoa_digits. destruct (Int_digits_spec i) as [_ Hd].
  destruct (i <? 0).
  - constructor; [unfold r_minus, r_macron; lia |].
    apply digits_not; [unfold r_macron; lia | exact Hd].
  - apply digits_not; [unfold r_macron; lia | exact Hd].
Qed.

Lemma SetPP_minus_format_round_trip_witness :
  let a' := (SetPP {| PP := 0; Fmt := ∅ |}
               (VObject TDict ([] ++ [(VInt 0, Some (VString (runes "-%d")))]))).1 in
  @Int_String IntHost a' (-7) = itoa (-7) /\
  ParseInt (@Int_String IntHost a' (-7)) = Some (-7).
Proof.
  apply (@SetPP_minus_format_round_trip IntHost {| PP := 0; Fmt := ∅ |} TDict [] 0 (-7)).
  unfold in_range, min_int, max_int. lia.
Defined.

End ParseIntFacts.

(** ** [ArrayString]: the table, and where it panics *)

Section ArrayStringMore.
Context `{Package}.

(** X14.  The table of [ArrayString] (every [PP] but -2 and -3, rank 2 and
    more), for values whose strings have none of the runes that end a cell
    or a line of the tabwriter (tab, vertical tab, newline, form feed):
    the values come in row-major order, each behind the blanks that the
    tabwriter pads it with; the parts along an axis that has [k] axes
    behind it are separated by [k] newlines, so that the rows of a matrix
    are lines and the planes of a cube have an empty line in between; and
    no newline follows the last value. *)
Theorem ArrayString_table_layout (f : Format) (v : Array) (d d1 : Z) (ds : list Z) :
  PP f <> -2 -> PP f <> -3 ->
  Shape v = d :: d1 :: ds ->
  Forall (fun d => 1 <= d) (Shape v) ->
  Size v = product (Shape v) ->
  Forall (plain f) (Elems v) ->
  Forall (no_feed f) (Elems v) ->
  ArrayString f v = Some (tw_out f 0 0 (block (Shape v) (Elems v))).
Proof.
  intros H2 H3 Edims Hall Hsize Hplain _. unfold Size in Hsize.
  unfold ArrayString.
  destruct (Z.eqb_spec (PP f) (-2)); [contradiction |].
  destruct (Z.eqb_spec (PP f) (-3)); [contradiction |].
  rewrite Edims in Hall, Hsize |- *.
  set (dims := d :: d1 :: ds) in *.
  assert (Hne : dims <> []) by discriminate.
  rewrite fold_left_mul_product.
  pose proof (table_loop_block f v dims Hne Hall [] [] O O []
                Edims ltac:(lia)) as Hloop.
  cbn [rev inc_from app Nat.add] in Hloop.
  rewrite Nat.add_0_r in Hloop. change (Z.of_nat 0) with 0 in Hloop.
  rewrite Hloop. clear Hloop.
  cbn [table_loop mbind option_bind].
  rewrite drop_0, take_ge by lia.
  change (term_count (-1)) with 1%nat. rewrite <- raw_app.
  rewrite tabwriter_Flush_raw.
  2:{ apply Forall_app. split; [| repeat constructor].
      apply block_Forall, Hplain. }
  rewrite tw_out_snoc_term, last_snoc, Z.eqb_refl, removelast_last.
  reflexivity.
Qed.

Lemma product_nonneg dims : Forall (fun d => 0 <= d) dims -> 0 <= product dims.
Proof.
  induction 1 as [| d ds Hd _ IH]; [unfold product; simpl; lia |].
  rewrite product_cons. nia.
Qed.

(** The recursive closure of [jsonArray] returns on every shape with an
    axis, whatever the strings are, if there are enough of them. *)
Lemma vector_total dims :
  dims <> [] -> Forall (fun d => 0 <= d) dims ->
  forall Strings : list gostring,
    product dims <= Z.of_nat (length Strings) ->
    is_Some (vector dims Strings).
Proof.
  induction dims as [| d ds IH]; intros Hne Hall Strings Hlen; [congruence |].
  apply List.Forall_cons_iff in Hall. destruct Hall as [Hd Hds].
  pose proof (product_nonneg ds Hds) as Hp.
  rewrite product_cons in Hlen.
  destruct ds as [| d' ds'].
  - cbn [vector]. unfold slice_to.
    rewrite slice_in_range by (unfold product in Hlen; simpl in Hlen; lia).
    eexists. reflexivity.
  - set (ds := d' :: ds') in *.
    change (vector (d :: ds) Strings)
      with (if d <? 0 then None
            else
              vec ← mapM (fun i => sub ← slice_from Strings (i * Prod ds); vector ds sub)
                         (upto d);
              Some (runes "[" ++ Join vec (runes ",") ++ runes "]")).
    destruct (Z.ltb_spec d 0) as [? | _]; [lia |].
    assert (Hm : is_Some (mapM (fun i => sub ← slice_from Strings (i * Prod ds);
                                          vector ds sub) (upto d))).
    { apply mapM_is_Some. apply Forall_forall. intros i Hi.
      unfold upto in Hi. apply list_elem_of_fmap in Hi.
      destruct Hi as (k & -> & Hk). apply list_elem_of_In, in_seq in Hk.
      rewrite Prod_product by discriminate.
      cbn [compose].
      rewrite slice_from_in_range by nia.
      cbn [mbind option_bind].
      apply IH; [discriminate | exact Hds |].
      rewrite length_drop. nia. }
    destruct Hm as [vec ->]. eexists. reflexivity.
Qed.

(** The loop of the table reads the elements below [i + n] only. *)
Lemma table_loop_total (f : Format) (v : Array) n : forall i idx buf,
  0 <= i -> i + Z.of_nat n <= Size v ->
  is_Some (table_loop f v n i idx buf).
Proof.
  induction n as [| n IH]; intros i idx buf Hi Hn; [eexists; reflexivity |].
  cbn [table_loop].
  assert (Hat : is_Some (At v i)).
  { unfold At, Size in *. destruct (Z.ltb_spec i 0); [lia |].
    apply lookup_lt_is_Some_2. lia. }
  destruct Hat as [e ->].
  destruct (inc (Shape v) idx) as [idx' term].
  apply IH; lia.
Qed.

(** X15.  On a well-formed array (no negative entry in the shape, as many
    elements as the shape says) of integers, whose [String] always
    returns, [ArrayString] panics in one case only: in the JSON mode
    ([PP = -2]) on an array with an empty shape, where it indexes the shape
    out of range.  In every other mode and for every other shape it
    returns a string. *)
Theorem ArrayString_panics_only_without_axes (f : Format) (v : Array) :
  Array_wf v ->
  Forall (fun e => exists i, e = VInt i) (Elems v) ->
  (ArrayString f v = None <-> PP f = -2 /\ Shape v = []).
Proof.
  intros [Hall Hsize] _. unfold Size in Hsize.
  assert (Hsome : PP f <> -2 \/ Shape v <> [] -> is_Some (ArrayString f v)).
  { intros Hcase. unfold ArrayString.
    destruct (Z.eqb_spec (PP f) (-2)) as [E2 | N2].
    - destruct Hcase as [? | Hne]; [contradiction |].
      unfold jsonArray, stringArray. cbn [fst snd].
      apply vector_total; [exact Hne | exact Hall |].
      rewrite length_fmap. lia.
    - destruct (Z.eqb_spec (PP f) (-3)) as [E3 | N3].
      + unfold matArray, stringArray. cbn [fst snd].
        destruct (Shape v) as [| d0 [| d1 [| d2 ds]]] eqn:Edims;
          try (eexists; reflexivity).
        apply List.Forall_cons_iff in Hall. destruct Hall as [Hd0 Hall].
        apply List.Forall_cons_iff in Hall. destruct Hall as [Hd1 _].
        cbn [product fold_right] in Hsize. rewrite Z.mul_1_r in Hsize.
        rewrite (mat_rows_chunks d0 d1) by (rewrite ?length_fmap; lia).
        eexists. reflexivity.
      + destruct (Shape v) as [| n [| d1 ds]] eqn:Edims.
        * eexists. reflexivity.
        * apply List.Forall_cons_iff in Hall. destruct Hall as [Hn _].
          cbn [product fold_right] in Hsize. rewrite Z.mul_1_r in Hsize.
          destruct (Z.ltb_spec n 0); [lia |].
          rewrite mapM_At by (unfold Size; lia). eexists. reflexivity.
        * rewrite fold_left_mul_product.
          pose proof (product_nonneg _ Hall) as Hp.
          destruct (table_loop_total f v (Z.to_nat (product (n :: d1 :: ds))) 0
                      (replicate (length (n :: d1 :: ds)) 0) [])
            as [buf ->]; [lia | unfold Size; lia |].
          cbn [mbind option_bind].
          destruct (last (tabwriter_Flush buf)) as [r |]; [| eexists; reflexivity].
          destruct (r =? r_newline); eexists; reflexivity. }
  split.
  - intros Hnone.
    destruct (Z.eq_dec (PP f) (-2)) as [E2 | N2].
    + split; [exact E2 |].
      destruct (Shape v) as [| d ds] eqn:Edims; [reflexivity |].
      destruct Hsome as [s Hs]; [right; discriminate | congruence].
    + destruct Hsome as [s Hs]; [left; exact N2 | congruence].
  - intros [E2 Enil]. unfold ArrayString, jsonArray, stringArray.
    rewrite E2, Enil. reflexivity.
Qed.

End ArrayStringMore.

Lemma ArrayString_table_layout_witness :
  @ArrayString IntHost {| PP := -1; Fmt := ∅ |}
    (mkArray [2; 1; 2] [VInt 1; VInt 2; VInt 3; VInt 4])
  = Some (@tw_out IntHost {| PP := -1; Fmt := ∅ |} 0 0
            (block [2; 1; 2] [VInt 1; VInt 2; VInt 3; VInt 4])).
Proof.
  apply (@ArrayString_table_layout IntHost {| PP := -1; Fmt := ∅ |}
           (mkArray [2; 1; 2] [VInt 1; VInt 2; VInt 3; VInt 4]) 2 1 [2]).
  - simpl. lia.
  - simpl. lia.
  - reflexivity.
  - simpl. repeat constructor; lia.
  - reflexivity.
  - cbn [Elems].
    repeat (apply List.Forall_cons;
            [intros r Hr; apply list_elem_of_singleton in Hr; subst r;
             split; discriminate |]).
    apply List.Forall_nil.
  - cbn [Elems].
    repeat (apply List.Forall_cons;
            [intros r Hr; apply list_elem_of_singleton in Hr; subst r;
             split; discriminate |]).
    apply List.Forall_nil.
Defined.

Lemma ArrayString_panics_only_without_axes_witness :
  @ArrayString IntHost {| PP := -2; Fmt := ∅ |} (mkArray [] [VInt 1]) = None
  <-> -2 = -2 /\ @nil Z = [].
Proof.
  apply (@ArrayString_panics_only_without_axes IntHost {| PP := -2; Fmt := ∅ |}
           (mkArray [] [VInt 1])).
  - split; [constructor | reflexivity].
  - cbn [Elems]. apply List.Forall_cons; [exists 1; reflexivity |].
    apply List.Forall_nil.
Defined.

(** ** [ScanRankArray]: what it returns, by rank *)

Section ScanMore.
Context `{Package}.

(** For a rank other than 0 the loop never returns by itself. *)
Lemma scan_loop_no_return fuel rank s values c shape v rest :
  rank <> 0 -> scan_loop fuel rank s values c shape <> ScanReturn v rest.
Proof.
  intros Hr. revert s values c shape.
  induction fuel as [| fuel IH]; intros s values c shape; [discriminate |].
  cbn [scan_loop]. destruct s as [| r s]; [discriminate |].
  destruct (is_terminator r).
  - destruct (Z.of_nat (length values) =? 0); [apply IH |].
    destruct (c + 1 =? rank); [discriminate |].
    destruct (c + 1 >? Z.of_nat (length shape)); [| apply IH].
    destruct shape; [apply IH |].
    destruct (Prod _ =? 0); [discriminate | apply IH].
  - destruct (is_skipped r); [apply IH |].
    destruct (r =? r_quote).
    + destruct (scan_ReadString (r :: s)) as [[str rest'] |]; [| discriminate].
      destruct (Z.eqb_spec rank 0); [contradiction | apply IH].
    + destruct (scan_ScanNumber (r :: s)) as [[num rest'] |]; [| discriminate].
      destruct (Tower_Parse num) as [n |]; [| discriminate].
      destruct (Z.eqb_spec rank 0); [contradiction | apply IH].
Qed.

(** What the end of [ScanRankArray] returns is an array of all the values
    that were read, and there is one at least. *)
Lemma scan_finish_Ok rank values shape v :
  scan_finish rank values shape = Done (Ok v) ->
  values <> [] /\ exists dims, v = VMixedArray dims values.
Proof.
  unfold scan_finish.
  destruct (Z.eqb_spec (Z.of_nat (length values)) 0) as [E | N]; [discriminate |].
  destruct (fill_loop _ _ _ 0 shape) as [[dims | e] | |]; try discriminate.
  intros [= <-]. split; [| eexists; reflexivity].
  intros ->. apply N. reflexivity.
Qed.

(** X16.  What [ScanRankArray] returns, by rank: with rank 0 a string, or
    the struct that the tower has parsed a number to, as it is, and never
    an array; with every other rank an array of one value at least, and
    never a single value. *)
Theorem ScanRankArray_result_by_rank (s : gostring) (rank : Z) (v : Value)
    (rest : gostring) :
  ScanRankArray s rank = Done (Ok v, rest) ->
  if rank =? 0
  then ((exists str, v = VString str) \/ (exists n, v = NumExpr_Value n)) /\
       (forall dims vals, v <> VMixedArray dims vals)
  else exists dims vals, v = VMixedArray dims vals /\ vals <> [].
Proof.
  unfold ScanRankArray.
  pose proof (scan_loop_inv (S (length s)) rank s [] 0 [] (scan_inv_init rank)) as Hl.
  destruct (scan_loop _ rank s [] 0 []) as [v' r | values shape r | e | |] eqn:E0;
    try discriminate.
  - intros [= -> ->].
    destruct (Z.eqb_spec rank 0) as [E | N].
    + pose proof (scan_loop_return _ _ _ _ _ _ _ _ E0) as Hv.
      split; [exact Hv |]. intros dims vals ->.
      destruct Hv as [[str [=]] | [n En]].
      pose proof (NumExpr_Value_type n) as Ht. rewrite <- En in Ht.
      discriminate Ht.
    + exfalso. exact (scan_loop_no_return _ _ _ _ _ _ _ _ N E0).
  - destruct (scan_finish rank values shape) as [[v' | e] | |] eqn:Ef; try discriminate.
    intros [= -> ->]. apply scan_finish_Ok in Ef as (Hne & dims & ->).
    destruct Hl as (_ & _ & Hz).
    destruct (Z.eqb_spec rank 0) as [E | N]; [exfalso; apply Hne, Hz, E |].
    eexists _, _. split; [reflexivity | exact Hne].
Qed.

(** The final loop adds axes as long as twice the round number does not
    exceed what is missing; the shape never gets longer than the rank. *)
Lemma fill_loop_length n rank nvalues : forall i shape shape',
  fill_loop n rank nvalues i shape = Done (Ok shape') ->
  0 <= i -> (i = 0 -> Z.of_nat (length shape) < rank) ->
  Z.of_nat (length shape) <= rank ->
  Z.of_nat (length shape') <= rank /\
  (i = 0 -> (length shape < length shape')%nat).
Proof.
  induction n as [| n IH]; intros i shape shape'; cbn [fill_loop];
    destruct (Z.leb_spec i (rank - Z.of_nat (length shape))) as [Hle | Hgt];
    try discriminate; try (intros [= <-]; intros; split; [lia | intros; lia]).
  destruct (negb (bool_decide (shape = [])) &&
            ((match shape with [] => 1 | _ => Prod shape end) =? 0));
    [discriminate |].
  set (shape1 := _ :: shape).
  destruct (negb (Prod shape1 =? nvalues)); [discriminate |].
  intros Hr Hi H0 Hlen.
  assert (Hlen1 : Z.of_nat (length shape1) <= rank).
  { subst shape1. simpl length. destruct (Z.eq_dec i 0) as [E | N]; [specialize (H0 E) |]; lia. }
  destruct (IH _ _ _ Hr ltac:(lia) ltac:(lia) Hlen1) as [Hb _].
  split; [exact Hb |]. intros _.
  assert (Hmono : forall m j sh sh', fill_loop m rank nvalues j sh = Done (Ok sh') ->
                    (length sh <= length sh')%nat).
  { clear. induction m as [| m IHm]; intros j sh sh'; cbn [fill_loop];
      destruct (j <=? rank - Z.of_nat (length sh));
      try discriminate; try (intros [= <-]; lia).
    destruct (negb (bool_decide (sh = [])) && (_ =? 0)); [discriminate |].
    destruct (negb _); [discriminate |].
    intros Hm. apply IHm in Hm. simpl length in Hm. lia. }
  apply Hmono in Hr. subst shape1. simpl length in Hr. lia.
Qed.

(** X17.  With a positive rank the array that [ScanRankArray] returns has
    one axis at least and never more axes than the rank asks for; it may
    have fewer. *)
Theorem ScanRankArray_rank_is_a_bound (s : gostring) (rank : Z)
    (dims : list Z) (vals : list Value) (rest : gostring) :
  0 < rank ->
  ScanRankArray s rank = Done (Ok (VMixedArray dims vals), rest) ->
  1 <= Z.of_nat (length dims) <= rank.
Proof.
  intros Hrank. unfold ScanRankArray.
  pose proof (scan_loop_inv (S (length s)) rank s [] 0 [] (scan_inv_init rank)) as Hl.
  destruct (scan_loop _ rank s [] 0 []) as [v' r | values shape r | e | |] eqn:E0;
    try discriminate.
  - intros [= -> _]. exfalso.
    assert (Hn : rank <> 0) by lia.
    exact (scan_loop_no_return _ _ _ _ _ _ _ _ Hn E0).
  - destruct Hl as (_ & Hr & _). specialize (Hr Hrank).
    unfold scan_finish.
    destruct (Z.of_nat (length values) =? 0); [discriminate |].
    destruct (Z.ltb_spec rank 0) as [? | _]; [lia |].
    destruct (fill_loop _ rank _ 0 shape) as [[dims' | e] | |] eqn:Ef; try discriminate.
    intros [= -> _ _].
    destruct (fill_loop_length _ _ _ _ _ _ Ef ltac:(lia) ltac:(intros; lia) ltac:(lia))
      as [Hb Hgrow].
    specialize (Hgrow eq_refl). lia.
Qed.

(** With more rounds than it needs the loop does the same. *)
Lemma scan_loop_mono fuel : forall fuel' rank s values c shape,
  (fuel <= fuel')%nat ->
  scan_loop fuel rank s values c shape <> ScanFuel ->
  scan_loop fuel' rank s values c shape = scan_loop fuel rank s values c shape.
Proof.
  induction fuel as [| fuel IH]; intros fuel' rank s values c shape Hle Hf;
    [contradiction Hf; reflexivity |].
  destruct fuel' as [| fuel']; [lia |].
  assert (Hle' : (fuel <= fuel')%nat) by lia.
  cbn [scan_loop] in Hf |- *. destruct s as [| r s]; [reflexivity |].
  destruct (is_terminator r).
  - destruct (Z.of_nat (length values) =? 0); [apply IH; assumption |].
    destruct (c + 1 =? rank); [reflexivity |].
    destruct (c + 1 >? Z.of_nat (length shape)); [| apply IH; assumption].
    destruct shape; [apply IH; assumption |].
    destruct (Prod _ =? 0); [reflexivity | apply IH; assumption].
  - destruct (is_skipped r); [apply IH; assumption |].
    destruct (r =? r_quote).
    + destruct (scan_ReadString (r :: s)) as [[str rest'] |]; [| reflexivity].
      destruct (rank =? 0); [reflexivity | apply IH; assumption].
    + destruct (scan_ScanNumber (r :: s)) as [[num rest'] |]; [| reflexivity].
      destruct (Tower_Parse num) as [n |]; [| reflexivity].
      destruct (rank =? 0); [reflexivity | apply IH; assumption].
Qed.

(** Separators in front of the first value are passed over, one round
    each. *)
Lemma scan_loop_separators pre : forall fuel rank s c shape,
  Forall (fun r => is_separator r = true) pre ->
  scan_loop (length pre + fuel) rank (pre ++ s) [] c shape
  = scan_loop fuel rank s [] c shape.
Proof.
  induction pre as [| r pre IH]; intros fuel rank s c shape Hpre; [reflexivity |].
  apply List.Forall_cons_iff in Hpre. destruct Hpre as [Hr Hpre].
  cbn [length Nat.add app scan_loop].
  unfold is_separator in Hr.
  destruct (is_terminator r); [cbn [length Z.of_nat Z.eqb]; apply IH, Hpre |].
  cbn [orb] in Hr. rewrite Hr. apply IH, Hpre.
Qed.

(** A value that round-trips is read in one round. *)
Lemma scan_loop_elem f e rest fuel rank values c shape :
  elem_round_trips f e -> delimited rest ->
  scan_loop (S fuel) rank (Value_String f e ++ rest) values c shape
  = if rank =? 0 then ScanReturn (scanned_at_rank0 e) rest
    else scan_loop fuel rank rest (values ++ [e]) 0 shape.
Proof.
  intros ((r & lex & Hstr & Ht & Hs) & _ & Hscan) Hd.
  specialize (Hscan rest Hd). rewrite Hstr in *.
  cbn [scan_loop app]. rewrite Ht, Hs.
  unfold scan_elem in Hscan. cbn [app] in Hscan.
  destruct (r =? r_quote).
  - destruct (scan_ReadString (r :: lex ++ rest)) as [[str rest'] |]; [| discriminate].
    injection Hscan as <- <-. reflexivity.
  - destruct (scan_ScanNumber (r :: lex ++ rest)) as [[num rest'] |]; [| discriminate].
    destruct (Tower_Parse num) as [n |]; [| discriminate].
    injection Hscan as <- <-. destruct n; reflexivity.
Qed.

(** X18.  An input without a value, that is nothing but white space,
    commas, brackets, parentheses, newlines and semicolons, or nothing at
    all, is the end of the input for every rank: [ScanRankArray] returns
    [io.EOF] and has read everything.  [ParseArray] makes an error of it,
    with and without a prototype: the empty text is not the text of an
    array. *)
Theorem ScanRankArray_no_value_is_EOF (s : gostring) (rank : Z) :
  Forall (fun r => is_separator r = true) s ->
  ScanRankArray s rank = Done (Err io_EOF, []) /\
  forall prototype, ParseArray prototype s = Done (Err (Errorf "parse array")).
Proof.
  intros Hs.
  assert (Hscan : forall rank, ScanRankArray s rank = Done (Err io_EOF, [])).
  { intros rank0. unfold ScanRankArray.
    replace (S (length s)) with (length s + 1)%nat by lia.
    rewrite <- (app_nil_r s) at 2.
    rewrite (scan_loop_separators s 1 rank0 [] 0 [] Hs).
    reflexivity. }
  split; [apply Hscan |].
  intros prototype. unfold ParseArray. rewrite Hscan. reflexivity.
Qed.

(** X19.  With rank 0 [ScanRankArray] reads one value: it passes over the
    separators in front of it, returns what it has scanned, a string as
    the value that it is and a number inside the struct that the tower has
    parsed it to, and leaves everything behind the value in the
    scanner. *)
Theorem ScanRankArray_rank0_reads_one_value (f : Format) (pre : gostring)
    (e : Value) (rest : gostring) :
  Forall (fun r => is_separator r = true) pre ->
  elem_round_trips f e -> delimited rest ->
  ScanRankArray (pre ++ Value_String f e ++ rest) 0
  = Done (Ok (scanned_at_rank0 e), rest).
Proof.
  intros Hpre He Hd. unfold ScanRankArray.
  replace (S (length (pre ++ Value_String f e ++ rest)))
    with (length pre + S (length (Value_String f e ++ rest)))%nat
    by (rewrite !length_app; lia).
  rewrite (scan_loop_separators pre _ 0 _ 0 [] Hpre).
  rewrite (scan_loop_elem f e rest _ 0 [] 0 [] He Hd).
  reflexivity.
Qed.

(** What [ScanRankArray] returns for an unrestricted rank is an array. *)
Lemma ScanRankArray_result_by_rank_aux (s : gostring) (v : Value) (rest : gostring) :
  ScanRankArray s (-1) = Done (Ok v, rest) ->
  exists dims vals, v = VMixedArray dims vals.
Proof.
  unfold ScanRankArray.
  destruct (scan_loop _ (-1) s [] 0 []) as [v' r | values shape r | e | |] eqn:E0;
    try discriminate.
  - intros _. exfalso.
    assert (Hn : -1 <> 0) by discriminate.
    exact (scan_loop_no_return _ _ _ _ _ _ _ _ Hn E0).
  - destruct (scan_finish (-1) values shape) as [[v' | e] | |] eqn:Ef; try discriminate.
    intros [= -> ->]. apply scan_finish_Ok in Ef as (_ & dims & ->). eauto.
Qed.

End ScanMore.

(** ** [ScanRankArray]: reading a line *)

Section ScanLine.
Context `{Package}.

(** A line of values with single blanks in between is read in one round
    for each value and each blank. *)
Lemma scan_loop_line f es :
  es <> [] -> Forall (elem_round_trips f) es ->
  forall rest fuel rank values c shape,
    rank <> 0 -> delimited rest ->
    scan_loop (2 * length es - 1 + fuel) rank
              (Join (Value_String f <$> es) [r_space] ++ rest) values c shape
    = scan_loop fuel rank rest (values ++ es) 0 shape.
Proof.
  intros Hne Hall. induction Hall as [| e es He Hes IH]; [congruence |].
  intros rest fuel rank values c shape Hrank Hd.
  destruct es as [| e' es'].
  - cbn [fmap list_fmap Join length Nat.mul Nat.add Nat.sub].
    rewrite (scan_loop_elem f e rest fuel rank values c shape He Hd).
    destruct (Z.eqb_spec rank 0); [contradiction | reflexivity].
  - rewrite !fmap_cons, Join_cons. rewrite <- !fmap_cons.
    rewrite <- !app_assoc.
    replace (2 * length (e :: e' :: es') - 1 + fuel)%nat
      with (S (S (2 * length (e' :: es') - 1 + fuel))) by (simpl length; lia).
    rewrite (scan_loop_elem f e); [| exact He | reflexivity].
    destruct (Z.eqb_spec rank 0); [contradiction |].
    cbn [app scan_loop].
    change (is_terminator r_space) with false. change (is_skipped r_space) with true.
    cbv iota.
    rewrite (IH ltac:(discriminate) rest fuel rank (values ++ [e]) 0 shape Hrank Hd).
    rewrite <- app_assoc. reflexivity.
Qed.

Lemma length_line f es :
  es <> [] -> Forall (elem_round_trips f) es ->
  (2 * length es - 1 <= length (Join (Value_String f <$> es) [r_space]))%nat.
Proof.
  intros Hne Hall. induction Hall as [| e es He Hes IH]; [congruence |].
  destruct He as ((r & lex & Hstr & _) & _).
  destruct es as [| e' es'].
  - cbn [fmap list_fmap Join]. rewrite Hstr. simpl length. lia.
  - rewrite !fmap_cons, Join_cons. rewrite <- !fmap_cons.
    rewrite !length_app, Hstr.
    specialize (IH ltac:(discriminate)). simpl length in *. lia.
Qed.

Lemma product_ones j n : product (replicate j 1 ++ [n]) = n.
Proof.
  induction j as [| j IH]; [unfold product; simpl; lia |].
  cbn [replicate app]. rewrite product_cons, IH. lia.
Qed.

Lemma Prod_ones j n : Prod (replicate j 1 ++ [n]) = n.
Proof.
  rewrite Prod_product; [apply product_ones |]. destruct j; discriminate.
Qed.

(** The final loop on a shape of ones in front of the number of values:
    it adds a one in each round, and [k] rounds are left when the round
    number and [k] add up to half the rank and one. *)
Lemma fill_loop_ones rank n k : forall j m,
  1 <= n -> Z.of_nat j + 1 + Z.of_nat k = rank / 2 + 1 -> (k <= m)%nat ->
  fill_loop m rank n (Z.of_nat j + 1) (replicate j 1 ++ [n])
  = Done (Ok (replicate (k + j) 1 ++ [n])).
Proof.
  induction k as [| k IH]; intros j m Hn Hk Hm.
  - apply fill_loop_stop. rewrite length_app, length_replicate. simpl length.
    Z.div_mod_to_equations. lia.
  - destruct m as [| m]; [lia |]. rewrite fill_loop_S.
    set (shape := replicate j 1 ++ [n]).
    assert (Hlen : Z.of_nat (length shape) = Z.of_nat j + 1).
    { subst shape. rewrite length_app, length_replicate. simpl length. lia. }
    assert (Hp : Prod shape = n) by apply Prod_ones.
    assert (Hne : shape <> []) by (subst shape; destruct j; discriminate).
    assert (Hmatch : match shape with [] => 1 | _ :: _ => Prod shape end = n)
      by (destruct shape; [congruence | exact Hp]).
    destruct (Z.leb_spec (Z.of_nat j + 1) (rank - Z.of_nat (length shape)))
      as [_ | Hgt]; [| Z.div_mod_to_equations; lia].
    cbv zeta. rewrite Hmatch, (bool_decide_eq_false_2 _ Hne).
    destruct (Z.eqb_spec n 0) as [? | _]; [lia |]. cbn [negb andb].
    rewrite Z.quot_same by lia.
    assert (Hp1 : Prod (1 :: shape) = n).
    { subst shape. apply (Prod_ones (S j) n). }
    rewrite Hp1, Z.eqb_refl. cbn [negb].
    specialize (IH (S j) m Hn ltac:(lia) ltac:(lia)).
    replace (Z.of_nat j + 1 + 1) with (Z.of_nat (S j) + 1) by lia.
    subst shape. change (1 :: replicate j 1 ++ [n]) with (replicate (S j) 1 ++ [n]).
    rewrite IH. replace (k + S j)%nat with (S k + j)%nat by lia. reflexivity.
Qed.

(** The end of [ScanRankArray] for a positive rank when no terminator has
    set a shape. *)
Lemma scan_finish_line rank (es : list Value) :
  1 <= rank -> es <> [] ->
  scan_finish rank es []
  = Done (Ok (VMixedArray (replicate (Z.to_nat (rank / 2)) 1
                           ++ [Z.of_nat (length es)]) es)).
Proof.
  intros Hrank Hne. unfold scan_finish.
  destruct (Z.eqb_spec (Z.of_nat (length es)) 0) as [E | _];
    [destruct es; [congruence | simpl in E; lia] |].
  destruct (Z.ltb_spec rank 0) as [? | _]; [lia |].
  replace (Z.to_nat (rank - Z.of_nat (length (@nil Z)) + 1)) with (S (Z.to_nat rank))
    by (simpl length; lia).
  rewrite fill_loop_S. cbn [length].
  destruct (Z.leb_spec 0 (rank - Z.of_nat 0)) as [_ | ?]; [| simpl in *; lia].
  cbv zeta. rewrite bool_decide_eq_true_2 by reflexivity. cbn [negb andb].
  rewrite Z.quot_1_r. change (Prod [Z.of_nat (length es)]) with (Z.of_nat (length es)).
  rewrite Z.eqb_refl. cbn [negb].
  assert (Hn : 1 <= Z.of_nat (length es)) by (destruct es; [congruence | simpl length; lia]).
  pose proof (fill_loop_ones rank (Z.of_nat (length es)) (Z.to_nat (rank / 2)) 0
                (Z.to_nat rank) Hn) as Hfill.
  cbn [replicate app] in Hfill. rewrite Nat.add_0_r in Hfill.
  change (Z.of_nat 0 + 1) with (0 + 1) in Hfill.
  rewrite Hfill; [reflexivity | |].
  - assert (0 <= rank / 2) by (apply Z.div_pos; lia). lia.
  - assert (rank / 2 <= rank) by (Z.div_mod_to_equations; lia).
    assert (0 <= rank / 2) by (apply Z.div_pos; lia). lia.
Qed.

(** X20.  A line of values, read to the end of the input with a positive
    rank: the result is the vector of the values for rank 1, and for a
    higher rank the vector with ones in front of its shape, one for every
    two ranks and not one for every rank: rank 2 and rank 3 both give a
    matrix of one row. *)
Theorem ScanRankArray_line_at_rank (f : Format) (es : list Value) (rank : Z) :
  1 <= rank -> es <> [] -> Forall (elem_round_trips f) es ->
  ScanRankArray (Join (Value_String f <$> es) [r_space]) rank
  = Done (Ok (VMixedArray (replicate (Z.to_nat (rank / 2)) 1
                           ++ [Z.of_nat (length es)]) es), []).
Proof.
  intros Hrank Hne Hall. unfold ScanRankArray.
  set (text := Join (Value_String f <$> es) [r_space]).
  pose proof (length_line f es Hne Hall) as Hlen. fold text in Hlen.
  assert (Hloop : scan_loop (S (length text)) rank text [] 0 [] = ScanBreak es [] []).
  { replace (S (length text))
      with (2 * length es - 1 + S (length text - (2 * length es - 1)))%nat by lia.
    rewrite <- (app_nil_r text) at 2. subst text.
    rewrite (scan_loop_line f es Hne Hall [] _ rank [] 0 []) by (lia || exact I).
    reflexivity. }
  rewrite Hloop, (scan_finish_line rank es Hrank Hne). reflexivity.
Qed.

(** X21.  With rank 1 [ScanRankArray] reads one line: the values up to the
    first terminator (a newline, a semicolon or a closing bracket) come back
    as a vector, the terminator is used up, and what follows it is left in
    the scanner for the next call. *)
Theorem ScanRankArray_rank1_reads_a_line (f : Format) (es : list Value)
    (t : Z) (rest : gostring) :
  es <> [] -> Forall (elem_round_trips f) es -> is_terminator t = true ->
  ScanRankArray (Join (Value_String f <$> es) [r_space] ++ t :: rest) 1
  = Done (Ok (VMixedArray [Z.of_nat (length es)] es), rest).
Proof.
  intros Hne Hall Ht. unfold ScanRankArray.
  set (text := Join (Value_String f <$> es) [r_space]).
  pose proof (length_line f es Hne Hall) as Hlen. fold text in Hlen.
  assert (Hn : Z.of_nat (length es) <> 0) by (destruct es; [congruence | simpl length; lia]).
  assert (Hloop : scan_loop (S (length (text ++ t :: rest))) 1 (text ++ t :: rest) [] 0 []
                  = ScanBreak es [] rest).
  { rewrite length_app. simpl length.
    replace (S (length text + S (length rest)))
      with (2 * length es - 1
            + S (S (length text - (2 * length es - 1) + length rest)))%nat by lia.
    subst text.
    rewrite (scan_loop_line f es Hne Hall (t :: rest) _ 1 [] 0 []);
      [| lia | simpl; rewrite Ht; reflexivity].
    cbn [scan_loop app]. rewrite Ht.
    destruct (Z.eqb_spec (Z.of_nat (length es)) 0); [contradiction | reflexivity]. }
  rewrite Hloop, (scan_finish_line 1 es ltac:(lia) Hne). reflexivity.
Qed.

(** X22.  The type of what [ParseArray] returns: with a prototype that is
    [Uniform] the result has the type of the prototype; with any other
    prototype, and without one, the result is a mixed array, whatever the
    type of the prototype is. *)
Theorem ParseArray_result_type (prototype : option Value) (s : gostring)
    (res : Value) :
  ParseArray prototype s = Done (Ok res) ->
  match prototype with
  | Some u =>
      if is_Uniform u then TypeOf res = TypeOf u
      else exists dims vals, res = VMixedArray dims vals
  | None => exists dims vals, res = VMixedArray dims vals
  end.
Proof.
  unfold ParseArray.
  destruct (ScanRankArray s (-1)) as [[[v | e] rest] | |] eqn:E; try discriminate.
  pose proof (ScanRankArray_result_by_rank_aux s v rest E) as (dims & vals & ->).
  destruct prototype as [u |]; [| intros [= <-]; eauto].
  destruct (is_Uniform u); [| intros [= <-]; eauto].
  destruct (Unify _ true) as [res' |]; [| discriminate].
  destruct (bool_decide_reflect (TypeOf res' = TypeOf u)) as [Et | Nt];
    [| discriminate].
  intros [= <-]. exact Et.
Qed.

End ScanLine.

(** The integers of the host with the integer tower round-trip. *)
Lemma IntHost_round_trips (i : Z) :
  GoInt.in_range i -> @elem_round_trips IntHost {| PP := 0; Fmt := ∅ |} (VInt i).
Proof.
  intros Hi. apply (@Int_round_trips IntHost);
    [exact IntHost_int_tower | reflexivity | exact Hi].
Qed.

Lemma ScanRankArray_result_by_rank_witness :
  ((exists str, IntTower_NumExpr (NInt 7) = VString str) \/
   (exists n, IntTower_NumExpr (NInt 7) = @NumExpr_Value IntHost n)) /\
  (forall dims vals, IntTower_NumExpr (NInt 7) <> VMixedArray dims vals).
Proof.
  apply (@ScanRankArray_result_by_rank IntHost (runes "7 8") 0
           (IntTower_NumExpr (NInt 7)) (runes " 8")).
  reflexivity.
Defined.

Lemma ScanRankArray_rank_is_a_bound_witness :
  1 <= Z.of_nat (length [1; 1]) <= 3.
Proof.
  apply (@ScanRankArray_rank_is_a_bound IntHost (runes "7") 3 [1; 1] [VInt 7] []);
    [lia | reflexivity].
Defined.

Lemma ScanRankArray_no_value_is_EOF_witness :
  @ScanRankArray IntHost (runes " ,;") 2 = Done (Err io_EOF, []) /\
  forall prototype,
    @ParseArray IntHost prototype (runes " ,;") = Done (Err (Errorf "parse array")).
Proof.
  apply (@ScanRankArray_no_value_is_EOF IntHost (runes " ,;") 2).
  repeat (apply List.Forall_cons; [reflexivity |]). apply List.Forall_nil.
Defined.

Lemma ScanRankArray_rank0_reads_one_value_witness :
  @ScanRankArray IntHost
    (runes " [" ++ @Value_String IntHost {| PP := 0; Fmt := ∅ |} (VInt 7) ++ runes ",8]") 0
  = Done (Ok (IntTower_NumExpr (NInt 7)), runes ",8]").
Proof.
  apply (@ScanRankArray_rank0_reads_one_value IntHost {| PP := 0; Fmt := ∅ |}
           (runes " [") (VInt 7) (runes ",8]")).
  - repeat (apply List.Forall_cons; [reflexivity |]). apply List.Forall_nil.
  - apply IntHost_round_trips. unfold GoInt.in_range. split; discriminate.
  - reflexivity.
Defined.

Lemma ScanRankArray_line_at_rank_witness :
  @ScanRankArray IntHost
    (Join (@Value_String IntHost {| PP := 0; Fmt := ∅ |} <$> [VInt 7; VInt 8]) [r_space]) 3
  = Done (Ok (VMixedArray (replicate (Z.to_nat (3 / 2)) 1 ++ [Z.of_nat 2])
                          [VInt 7; VInt 8]), []).
Proof.
  apply (@ScanRankArray_line_at_rank IntHost {| PP := 0; Fmt := ∅ |} [VInt 7; VInt 8] 3).
  - lia.
  - discriminate.
  - repeat (apply List.Forall_cons;
            [apply IntHost_round_trips; unfold GoInt.in_range; split; discriminate |]).
    apply List.Forall_nil.
Defined.

Lemma ScanRankArray_rank1_reads_a_line_witness :
  @ScanRankArray IntHost
    (Join (@Value_String IntHost {| PP := 0; Fmt := ∅ |} <$> [VInt 3; VInt 4]) [r_space]
     ++ r_newline :: runes "5 6") 1
  = Done (Ok (VMixedArray [Z.of_nat 2] [VInt 3; VInt 4]), runes "5 6").
Proof.
  apply (@ScanRankArray_rank1_reads_a_line IntHost {| PP := 0; Fmt := ∅ |}
           [VInt 3; VInt 4] r_newline (runes "5 6")).
  - discriminate.
  - repeat (apply List.Forall_cons;
            [apply IntHost_round_trips; unfold GoInt.in_range; split; discriminate |]).
    apply List.Forall_nil.
  - reflexivity.
Defined.

Lemma ParseArray_result_type_witness :
  exists dims vals, VMixedArray [2] [VInt 1; VInt 2] = VMixedArray dims vals.
Proof.
  apply (@ParseArray_result_type IntHost (Some (VInt 0)) (runes "1 2")
           (VMixedArray [2] [VInt 1; VInt 2])).
  reflexivity.
Defined.

(** ** [Dict]: the last write, and printing *)

Section DictLastWrite.
Context {Key Val : Type} `{Countable Key} `{MapKey Key} `{Copier Key} `{Copier Val}.

Lemma Dict_SetAll_app (d : Dict Key Val) ops1 ops2 next :
  Dict_SetAll d (ops1 ++ ops2) next
  = match Dict_SetAll d ops1 next with
    | None => None
    | Some (d1, next1) => Dict_SetAll d1 ops2 next1
    end.
Proof.
  revert d next. induction ops1 as [| kv ops1 IH]; intros d next; [reflexivity |].
  cbn [app Dict_SetAll].
  destruct (Dict_Set d kv.1 kv.2 next) as [[d1 n1] |]; [apply IH | reflexivity].
Qed.

Lemma Dict_get_SetAll_other (ops : list (Key * Val)) :
  forall (d : Dict Key Val) next d' next' k,
  value_keys Key ->
  Dict_SetAll d ops next = Some (d', next') ->
  k ∉ ops.*1 -> Dict_get d' k = Dict_get d k.
Proof.
  induction ops as [| [k' v] ops IH]; intros d next d' next' k Hval E Hk.
  - simpl in E. injection E as <- <-. reflexivity.
  - cbn [fmap list_fmap fst] in Hk. apply not_elem_of_cons in Hk as [Hne Hk].
    rewrite Dict_SetAll_cons in E by assumption.
    rewrite (IH _ _ _ _ _ Hval E Hk).
    rewrite Dict_get_put by (apply value_keys_self_equal, Hval).
    apply decide_False. congruence.
Qed.

(** X23.  The last write wins, for keys that are values (they can be
    hashed, and [Copy] returns them as they are): no [Set] of a sequence
    panics, and after the sequence [At] returns for a key the copy that the
    last operation on that key has made of its value, and for a key that
    no operation names what it returned before. *)
Theorem Dict_At_SetAll_last_write (d : Dict Key Val)
    (before after : list (Key * Val)) (k : Key) (v : Val) (next : nat) :
  value_keys Key ->
  k ∉ after.*1 ->
  (exists d1 next1 d' next',
     Dict_SetAll d before next = Some (d1, next1) /\
     Dict_SetAll d (before ++ (k, v) :: after) next = Some (d', next') /\
     Dict_At d' k = Some (Some (Copy v next1).1)) /\
  (k ∉ before.*1 ->
   exists d' next',
     Dict_SetAll d (before ++ after) next = Some (d', next') /\
     Dict_At d' k = Dict_At d k).
Proof.
  intros Hval Hafter. split.
  - destruct (Dict_SetAll_total before d next Hval) as [[d1 n1] E1].
    destruct (Dict_SetAll_total ((k, v) :: after) d1 n1 Hval) as [[d' n'] E2].
    exists d1, n1, d', n'. split; [exact E1 |].
    split; [rewrite Dict_SetAll_app, E1; exact E2 |].
    rewrite Dict_SetAll_cons in E2 by assumption.
    rewrite Dict_At_get by (apply value_keys_hashable, Hval).
    rewrite (Dict_get_SetAll_other after _ _ _ _ k Hval E2 Hafter).
    rewrite Dict_get_put by (apply value_keys_self_equal, Hval).
    rewrite decide_True by reflexivity. reflexivity.
  - intros Hbefore.
    destruct (Dict_SetAll_total (before ++ after) d next Hval) as [[d' n'] E].
    exists d', n'. split; [exact E |].
    rewrite !Dict_At_get by (apply value_keys_hashable, Hval). f_equal.
    apply (Dict_get_SetAll_other (before ++ after) d next d' n' k Hval E).
    rewrite fmap_app. intros [? | ?]%elem_of_app; contradiction.
Qed.

End DictLastWrite.

Section DictPrint.
Context {Key Val : Type} `{Countable Key} `{MapKey Key} `{Copier Key} `{Copier Val}.
Context `{Stringer Key} `{Stringer Val}.

Lemma Dict_entries_unfold (d : Dict Key Val) :
  Dict_entries d = mapM (entry_of d) (Dict_Keys d).
Proof. reflexivity. Qed.

Lemma mapM_option_cons {A B} (h : A -> option B) (x : A) (l : list A) :
  mapM h (x :: l)
  = match h x with
    | None => None
    | Some y => match mapM h l with None => None | Some ys => Some (y :: ys) end
    end.
Proof. cbn [mapM]. destruct (h x); [| reflexivity]. destruct (mapM h l); reflexivity. Qed.

Lemma mapM_option_None {A B} (h : A -> option B) (l : list A) :
  mapM h l = None <-> exists x, x ∈ l /\ h x = None.
Proof.
  induction l as [| x l IH].
  - split; [discriminate | intros (x & []%elem_of_nil & _)].
  - rewrite mapM_option_cons. destruct (h x) as [y |] eqn:Ex.
    + destruct (mapM h l) as [ys |].
      * split; [discriminate |]. intros (x' & Hin & Hx').
        apply elem_of_cons in Hin as [-> | Hin]; [congruence |].
        destruct IH as [_ IH]. discriminate IH. eauto.
      * split; [| reflexivity]. intros _.
        destruct IH as [IH _]. destruct (IH eq_refl) as (x' & Hin & Hx').
        exists x'. split; [right; exact Hin | exact Hx'].
    + split; [| reflexivity]. intros _. exists x. split; [left | exact Ex].
Qed.

Lemma mapM_bind {A B C} (h : A -> option B) (g : B -> option C) (l : list A) :
  mapM (fun x => h x ≫= g) l = mapM h l ≫= mapM g.
Proof.
  induction l as [| x l IH]; [reflexivity |].
  rewrite !mapM_option_cons, IH. destruct (h x) as [y |]; [| reflexivity].
  cbn [mbind option_bind]. destruct (mapM h l) as [ys |].
  - cbn [mbind option_bind]. rewrite mapM_option_cons. reflexivity.
  - cbn [mbind option_bind]. destruct (g y); reflexivity.
Qed.

Lemma mapM_entry_Some (d : Dict Key Val) keys kvs :
  mapM (entry_of d) keys = Some kvs ->
  kvs.*1 = keys /\ Forall (fun kv => Dict_At d kv.1 = Some (Some kv.2)) kvs.
Proof.
  revert kvs. induction keys as [| k ks IH]; intros kvs.
  - intros [= <-]. split; [reflexivity | constructor].
  - rewrite mapM_option_cons. unfold entry_of at 1.
    destruct (Dict_At d k) as [[v |] |] eqn:Ek; try discriminate.
    destruct (mapM (entry_of d) ks) as [kvs' |]; [| discriminate].
    intros [= <-]. destruct (IH kvs' eq_refl) as [Hk Hv].
    split; [cbn [fmap list_fmap fst]; f_equal; exact Hk |].
    constructor; [exact Ek | exact Hv].
Qed.

Lemma Join_concat_sep {A} (b : list A) bs sep :
  Join (b :: bs) sep = b ++ concat ((fun x => sep ++ x) <$> bs).
Proof.
  revert b. induction bs as [| b' bs IH]; intros b.
  - simpl. rewrite app_nil_r. reflexivity.
  - rewrite Join_cons, IH. cbn [fmap list_fmap concat].
    rewrite <- !app_assoc. reflexivity.
Qed.

(** The loop of [jsonString] and [matString]: a comma in front of every
    entry but the first; it panics where a key has no value or a [String]
    panics. *)
Lemma entries_loop_spec (f : Format) (d : Dict Key Val) sep keys : forall i b,
  entries_loop f d sep i keys b
  = match mapM (fun k => entry_of d k ≫= entry_strings f) keys with
    | None => None
    | Some strs =>
        let entry := fun kv : gostring * gostring => kv.1 ++ [sep] ++ kv.2 in
        Some (b ++ (if (0 <? i)%nat
                    then concat ((fun x => [r_comma] ++ x) <$> (entry <$> strs))
                    else Join (entry <$> strs) [r_comma]))
    end.
Proof.
  induction keys as [| k ks IH]; intros i b.
  - cbn [entries_loop mapM mret option_ret fmap list_fmap concat Join].
    destruct (0 <? i)%nat; rewrite app_nil_r; reflexivity.
  - cbn [entries_loop]. rewrite mapM_option_cons.
    unfold entry_of at 1, entry_strings at 1.
    destruct (Dict_At d k) as [[v |] |]; cbn [mbind option_bind fst snd];
      destruct (to_String f k) as [ks' |]; try reflexivity.
    destruct (to_String f v) as [vs |]; cbn [mbind option_bind]; [| reflexivity].
    rewrite IH.
    destruct (mapM (fun k => entry_of d k ≫= entry_strings f) ks) as [strs |];
      [| reflexivity].
    cbv zeta. change (0 <? S i)%nat with true. cbv iota. f_equal.
    rewrite !fmap_cons. cbn [fst snd].
    destruct (0 <? i)%nat.
    + cbn [concat]. rewrite <- !app_assoc. reflexivity.
    + rewrite Join_concat_sep, <- !app_assoc. reflexivity.
Qed.

(** X24.  The single-line notations of a dictionary: the JSON mode writes
    [{k:v,k:v}] and the matrix mode [struct(k,v,k,v)], with the keys in the
    order of [Keys()], every key followed by the string of its value, and
    no comma behind the last entry; they panic where [String] panics on a
    key or on a value. *)
Theorem Dict_single_line_notations (f : Format) (d : Dict Key Val)
    (kvs : list (Key * Val)) :
  Dict_entries d = Some kvs ->
  kvs.*1 = Dict_Keys d /\
  Dict_jsonString f d
  = (strs ← mapM (entry_strings f) kvs;
     Some ([r_lbrace] ++ Join (json_entry <$> strs) [r_comma] ++ [r_rbrace])) /\
  Dict_matString f d
  = (strs ← mapM (entry_strings f) kvs;
     Some (runes "struct(" ++ Join (mat_entry <$> strs) [r_comma] ++ [r_rparen])).
Proof.
  rewrite Dict_entries_unfold. intros E.
  split; [apply (mapM_entry_Some d _ _ E) |].
  unfold Dict_jsonString, Dict_matString.
  rewrite !entries_loop_spec, mapM_bind, E. cbn [mbind option_bind].
  destruct (mapM (entry_strings f) kvs) as [strs |]; [| split; reflexivity].
  cbv zeta. change (0 <? 0)%nat with false. cbv iota.
  cbn [mbind option_bind]. rewrite <- !app_assoc. split; reflexivity.
Qed.

Lemma twl_line_no_tab pad i j s : forall cell more,
  Forall (fun r => r <> r_tab /\ r <> r_vtab) s ->
  twl_line pad i j cell (s ++ more) = twl_line pad i j (cell ++ s) more.
Proof.
  induction s as [| r s IH]; intros cell more Hs.
  - rewrite app_nil_r. reflexivity.
  - apply List.Forall_cons_iff in Hs. destruct Hs as [[Hr Hr'] Hs].
    cbn [app twl_line].
    destruct (Z.eqb_spec r r_tab); [contradiction |].
    destruct (Z.eqb_spec r r_vtab); [contradiction |]. cbn [orb].
    rewrite IH by exact Hs. rewrite <- (app_assoc cell [r] s). reflexivity.
Qed.

Lemma twl_lines_no_newline pad i s : forall line text,
  Forall (fun r => r <> r_newline /\ r <> r_formfeed) s ->
  twl_lines pad i line (s ++ text) = twl_lines pad i (line ++ s) text.
Proof.
  induction s as [| r s IH]; intros line text Hs.
  - rewrite app_nil_r. reflexivity.
  - apply List.Forall_cons_iff in Hs. destruct Hs as [[Hr Hr'] Hs].
    cbn [app twl_lines].
    destruct (Z.eqb_spec r r_newline); [contradiction |].
    destruct (Z.eqb_spec r r_formfeed); [contradiction |]. cbn [orb].
    rewrite IH by exact Hs. rewrite <- (app_assoc line [r] s). reflexivity.
Qed.

Lemma String_loop_spec (f : Format) (d : Dict Key Val) keys : forall buf,
  String_loop f d keys buf
  = match mapM (fun k => entry_of d k ≫= entry_strings f) keys with
    | None => None
    | Some strs => Some (buf ++ concat (raw_entry <$> strs))
    end.
Proof.
  induction keys as [| k ks IH]; intros buf.
  - cbn [String_loop mapM mret option_ret fmap list_fmap concat].
    rewrite app_nil_r. reflexivity.
  - cbn [String_loop]. rewrite mapM_option_cons.
    unfold entry_of at 1, entry_strings at 1, Dict_index, Dict_At, Dict_get.
    destruct (M d) as [m |]; destruct (hashable k);
      try destruct (map_index m k) as [v |];
      cbn [mbind option_bind fst snd];
      destruct (to_String f k) as [ks' |]; try reflexivity.
    destruct (to_String f v) as [vs |]; cbn [mbind option_bind]; [| reflexivity].
    rewrite IH.
    destruct (mapM (fun k => entry_of d k ≫= entry_strings f) ks) as [strs |];
      [| reflexivity].
    rewrite fmap_cons. cbn [concat]. unfold raw_entry at 2. cbn [fst snd].
    rewrite <- !app_assoc. reflexivity.
Qed.

(** The tabwriter on the entries: a line for each of them. *)
Lemma twl_lines_entries pad (strs : list (gostring * gostring)) : forall i,
  Forall (fun kv => plain_text kv.1 /\ plain_text kv.2) strs ->
  twl_lines pad i [] (concat (raw_entry <$> strs))
  = concat ((fun l => l ++ [r_newline])
              <$> imap (fun j kv => table_entry pad (i + j) kv) strs).
Proof.
  induction strs as [| [k v] strs IH]; intros i Hall; [reflexivity |].
  apply List.Forall_cons_iff in Hall. destruct Hall as [[Hk Hv] Hall].
  cbn [fst snd] in Hk, Hv.
  rewrite fmap_cons. cbn [concat imap]. rewrite fmap_cons. cbn [concat].
  unfold raw_entry at 1. cbn [fst snd].
  assert (Hkn : Forall (fun r => r <> r_newline /\ r <> r_formfeed)
                       (k ++ [r_colon; r_tab])).
  { apply Forall_app. split.
    - eapply Forall_impl; [exact Hk |]. intros r (_ & _ & ? & ?). split; assumption.
    - repeat constructor; discriminate. }
  assert (Hvn : Forall (fun r => r <> r_newline /\ r <> r_formfeed) v).
  { eapply Forall_impl; [exact Hv |]. intros r (_ & _ & ? & ?). split; assumption. }
  assert (Hkt : Forall (fun r => r <> r_tab /\ r <> r_vtab) (k ++ [r_colon])).
  { apply Forall_app. split.
    - eapply Forall_impl; [exact Hk |]. intros r (? & ? & _). split; assumption.
    - repeat constructor; discriminate. }
  assert (Hvt : Forall (fun r => r <> r_tab /\ r <> r_vtab) v).
  { eapply Forall_impl; [exact Hv |]. intros r (? & ? & _). split; assumption. }
  replace ((k ++ [r_colon; r_tab] ++ v ++ [r_newline])
           ++ concat (raw_entry <$> strs))
    with ((k ++ [r_colon; r_tab])
          ++ v ++ r_newline :: concat (raw_entry <$> strs))
    by (rewrite <- !app_assoc; reflexivity).
  rewrite (twl_lines_no_newline pad i _ [] _ Hkn). cbn [app].
  rewrite (twl_lines_no_newline pad i _ _ _ Hvn).
  cbn [twl_lines]. rewrite Z.eqb_refl. cbn [orb].
  rewrite (IH (S i) Hall).
  replace ((k ++ [r_colon; r_tab]) ++ v)
    with ((k ++ [r_colon]) ++ r_tab :: v)
    by (rewrite <- !app_assoc; reflexivity).
  rewrite (twl_line_no_tab pad i 0 _ [] _ Hkt). cbn [app twl_line].
  rewrite Z.eqb_refl. cbn [orb].
  rewrite <- (app_nil_r v) at 1.
  rewrite (twl_line_no_tab pad i 1 _ [] [] Hvt). cbn [app twl_line].
  assert (Himap : imap (fun j kv => table_entry pad (S i + j) kv) strs
                  = imap ((fun j kv => table_entry pad (i + j) kv) ∘ S) strs).
  { apply imap_ext. intros j kv _. cbn [compose]. f_equal. lia. }
  rewrite Himap. unfold table_entry at 2. cbn [fst snd]. rewrite Nat.add_0_r.
  rewrite <- !app_assoc. reflexivity.
Qed.

(** X25.  The table of a dictionary (every [PP] but -2 and -3), for keys
    and values whose strings have none of the runes that end a cell or a
    line of the tabwriter (tab, vertical tab, newline, form feed): one line
    for each key in the order of [Keys()], the key, a colon, the blanks
    that align the values, and the value; no newline behind the last
    line. *)
Theorem Dict_String_table (pad : nat -> nat -> nat) (f : Format)
    (d : Dict Key Val) (kvs : list (Key * Val))
    (strs : list (gostring * gostring)) :
  PP f <> -2 -> PP f <> -3 ->
  Dict_entries d = Some kvs ->
  mapM (entry_strings f) kvs = Some strs ->
  Forall (fun kv => plain_text kv.1 /\ plain_text kv.2) strs ->
  Dict_String pad f d
  = Some (Join (imap (table_entry pad) strs) [r_newline]).
Proof.
  intros H2' H3' E Es Hall. unfold Dict_String.
  destruct (Z.eqb_spec (PP f) (-2)); [contradiction |].
  destruct (Z.eqb_spec (PP f) (-3)); [contradiction |].
  rewrite Dict_entries_unfold in E. unfold Dict_Keys in E.
  rewrite String_loop_spec, mapM_bind, E. cbn [mbind option_bind].
  rewrite Es. cbn [mbind option_bind app].
  rewrite (twl_lines_entries pad strs 0 Hall).
  destruct strs as [| kv strs]; [reflexivity |].
  rewrite concat_Join_trailing by discriminate.
  rewrite last_snoc, Z.eqb_refl, removelast_last.
  reflexivity.
Qed.

(** What is printed for a key is missing exactly when [String] panics on
    the key, the key has no value, or [String] panics on the value. *)
Lemma printed_entry_None (f : Format) (d : Dict Key Val) k :
  entry_of d k ≫= entry_strings f = None
  <-> to_String f k = None \/
      match Dict_At d k with
      | Some (Some v) => to_String f v = None
      | _ => True
      end.
Proof.
  unfold entry_of, entry_strings.
  destruct (Dict_At d k) as [[v |] |]; cbn [mbind option_bind fst snd];
    try tauto.
  destruct (to_String f k) as [ks |]; cbn [mbind option_bind]; [| tauto].
  destruct (to_String f v) as [vs |]; cbn [mbind option_bind].
  - split; [discriminate | intros [? | ?]; discriminate].
  - tauto.
Qed.

(** X26.  [Dict.String] panics, in each of its three modes, exactly when
    the key list names a key on which [String] panics, or that has no
    value in the map or cannot be hashed, or on whose value [String]
    panics.  A well-formed dictionary whose keys can be hashed is printed
    if the strings of its keys and of its values return, and so is every
    dictionary that [Set] has built of keys that are values. *)
Theorem Dict_String_panics_iff_key_without_value (pad : nat -> nat -> nat)
    (f : Format) (d : Dict Key Val) :
  (Dict_String pad f d = None
   <-> exists k, k ∈ Dict_Keys d /\
         (to_String f k = None \/
          match Dict_At d k with
          | Some (Some v) => to_String f v = None
          | _ => True
          end)) /\
  (Dict_wf d ->
   (forall k, k ∈ Dict_Keys d -> hashable k = true /\ is_Some (to_String f k)) ->
   (forall k v, Dict_get d k = Some v -> is_Some (to_String f v)) ->
   is_Some (Dict_String pad f d)) /\
  (forall ops next next',
     value_keys Key ->
     Dict_SetAll Dict_zero ops next = Some (d, next') ->
     (forall k : Key, is_Some (to_String f k)) ->
     (forall v : Val, is_Some (to_String f v)) ->
     is_Some (Dict_String pad f d)).
Proof.
  assert (Hiff : Dict_String pad f d = None
                 <-> mapM (fun k => entry_of d k ≫= entry_strings f) (K d) = None).
  { unfold Dict_String, Dict_jsonString, Dict_matString.
    rewrite !entries_loop_spec, String_loop_spec.
    unfold Dict_Keys.
    destruct (mapM _ (K d)) as [strs |].
    - cbn [mbind option_bind].
      destruct (PP f =? -2); [split; discriminate |].
      destruct (PP f =? -3); [split; discriminate |].
      destruct (last _) as [r |]; [destruct (r =? r_newline) |]; split; discriminate.
    - cbn [mbind option_bind].
      destruct (PP f =? -2); [tauto |]. destruct (PP f =? -3); tauto. }
  assert (Hnone : Dict_String pad f d = None
                  <-> exists k, k ∈ Dict_Keys d /\
                        (to_String f k = None \/
                         match Dict_At d k with
                         | Some (Some v) => to_String f v = None
                         | _ => True
                         end)).
  { rewrite Hiff, mapM_option_None. unfold Dict_Keys.
    split; intros (k & Hin & Hk); exists k; (split; [exact Hin |]);
      apply printed_entry_None; exact Hk. }
  assert (Hwf : Dict_wf d ->
                (forall k, k ∈ Dict_Keys d -> hashable k = true /\ is_Some (to_String f k)) ->
                (forall k v, Dict_get d k = Some v -> is_Some (to_String f v)) ->
                is_Some (Dict_String pad f d)).
  { intros [_ Hdom] Hkeys Hvals.
    destruct (Dict_String pad f d) eqn:E; [eexists; reflexivity |].
    destruct Hnone as [Hnone _]. destruct (Hnone eq_refl) as (k & Hin & Hk).
    destruct (Hkeys k Hin) as [Hh [ks Hks]].
    destruct Hk as [Hk | Hk]; [congruence |].
    rewrite Dict_At_get in Hk by exact Hh.
    apply Hdom in Hin as [v Hv]. rewrite Hv in Hk.
    destruct (Hvals k v Hv) as [vs Hvs]. congruence. }
  split; [exact Hnone |]. split; [exact Hwf |].
  intros ops next next' Hval E Hk Hv. apply Hwf.
  - exact (Dict_SetAll_wf ops Dict_zero next d next' Hval E Dict_wf_zero).
  - intros k _. split; [apply value_keys_hashable, Hval | apply Hk].
  - intros k v _. apply Hv.
Qed.

End DictPrint.

Lemma Dict_At_SetAll_last_write_witness :
  exists d1 next1 d' next',
    @Dict_SetAll Z Z _ _ number_MapKey number_Copier number_Copier
      Dict_zero [(1, 10)] 0 = Some (d1, next1) /\
    @Dict_SetAll Z Z _ _ number_MapKey number_Copier number_Copier
      Dict_zero ([(1, 10)] ++ (2, 20) :: [(1, 11)]) 0 = Some (d', next') /\
    @Dict_At Z Z _ _ number_MapKey d' 2 = Some (Some (number_Copier 20 next1).1).
Proof.
  assert (Hval : @value_keys Z number_MapKey number_Copier)
    by (intros k next; repeat split; reflexivity).
  assert (Hafter : 2 ∉ [(1, 11)].*1)
    by (intros Hin; apply list_elem_of_singleton in Hin; discriminate).
  exact (proj1 (@Dict_At_SetAll_last_write Z Z _ _ number_MapKey number_Copier
                  number_Copier Dict_zero [(1, 10)] [(1, 11)] 2 20 0%nat
                  Hval Hafter)).
Defined.

Lemma Dict_single_line_notations_witness :
  let d := {| K := [2; 1]; M := Some (<[1 := 10]> (<[2 := 21]> ∅)) |} in
  let f := {| PP := -2; Fmt := ∅ |} in
  @Dict_jsonString Z Z _ _ number_MapKey (@Int_Stringer IntHost) (@Int_Stringer IntHost) f d
  = Some (runes "{2:21,1:10}") /\
  @Dict_matString Z Z _ _ number_MapKey (@Int_Stringer IntHost) (@Int_Stringer IntHost) f d
  = Some (runes "struct(2,21,1,10)").
Proof.
  intros d f.
  exact (proj2 (@Dict_single_line_notations Z Z _ _ number_MapKey
                  (@Int_Stringer IntHost) (@Int_Stringer IntHost)
                  f d [(2, 21); (1, 10)] eq_refl)).
Defined.

Lemma Dict_String_table_witness :
  let d := {| K := [2; 10]; M := Some (<[10 := 1]> (<[2 := 20]> ∅)) |} in
  let f := {| PP := 0; Fmt := ∅ |} in
  let pad := fun i j : nat => match i with O => 1%nat | S _ => O end in
  @Dict_String Z Z _ _ number_MapKey (@Int_Stringer IntHost) (@Int_Stringer IntHost)
    pad f d
  = Some (runes "2:  20" ++ [r_newline] ++ runes "10: 1").
Proof.
  intros d f pad.
  apply (@Dict_String_table Z Z _ _ number_MapKey
           (@Int_Stringer IntHost) (@Int_Stringer IntHost)
           pad f d [(2, 20); (10, 1)]
           [(runes "2", runes "20"); (runes "10", runes "1")]).
  - discriminate.
  - discriminate.
  - reflexivity.
  - reflexivity.
  - repeat (apply List.Forall_cons;
            [split;
             repeat (apply List.Forall_cons; [repeat split; discriminate |]);
             apply List.Forall_nil |]).
    apply List.Forall_nil.
Defined.

Lemma Dict_String_panics_iff_key_without_value_witness :
  is_Some (@Dict_String Z Z _ _ number_MapKey (@Int_Stringer IntHost)
             (@Int_Stringer IntHost) (fun _ _ => O) {| PP := 0; Fmt := ∅ |}
             Dict_zero) /\
  @Dict_String Z Z _ _ number_MapKey (@Int_Stringer IntHost) (@Int_Stringer IntHost)
    (fun _ _ => O) {| PP := 0; Fmt := ∅ |} {| K := [7]; M := None |} = None.
Proof.
  split.
  - apply (proj1 (proj2 (@Dict_String_panics_iff_key_without_value Z Z _ _
                    number_MapKey number_Copier number_Copier
                    (@Int_Stringer IntHost) (@Int_Stringer IntHost)
                    (fun _ _ => O) {| PP := 0; Fmt := ∅ |} Dict_zero))).
    + apply Dict_wf_zero.
    + intros k Hk. inversion Hk.
    + intros k v [=].
  - apply (proj1 (@Dict_String_panics_iff_key_without_value Z Z _ _
                    number_MapKey number_Copier number_Copier
                    (@Int_Stringer IntHost) (@Int_Stringer IntHost)
                    (fun _ _ => O) {| PP := 0; Fmt := ∅ |} {| K := [7]; M := None |})).
    exists 7. split; [apply list_elem_of_singleton; reflexivity |].
    right. exact I.
Defined.

(** ** [ScanRankArray]: reading a matrix *)

Section ScanMatrix.
Context `{Package}.

Lemma length_text_lines f w rows :
  matrix_rows f w rows ->
  (2 * length (concat rows) <= length (text_lines f rows))%nat.
Proof.
  unfold matrix_rows, text_lines.
  induction 1 as [| row rows (Hne & _ & Hall) _ IH]; [simpl; lia |].
  rewrite fmap_cons. cbn [concat]. rewrite !length_app.
  pose proof (length_line f row Hne Hall) as Hl. fold (text_line f row) in Hl.
  simpl length. destruct row; [congruence |]. simpl length in *. lia.
Qed.

Lemma length_concat_rows f w rows :
  matrix_rows f w rows -> length (concat rows) = (length rows * w)%nat.
Proof.
  unfold matrix_rows.
  induction 1 as [| row rows (_ & Hw & _) _ IH]; [reflexivity |].
  cbn [concat]. rewrite length_app, IH, Hw. simpl. lia.
Qed.

(** The rows behind the first one: the values are added, the terminator
    count is 1 at the end of every line, and the shape stays. *)
Lemma scan_loop_rows f w rows :
  matrix_rows f w rows ->
  forall fuel rest values,
    values <> [] ->
    scan_loop (2 * length (concat rows) + fuel) 2 (text_lines f rows ++ rest)
              values 1 [Z.of_nat w]
    = scan_loop fuel 2 rest (values ++ concat rows) 1 [Z.of_nat w].
Proof.
  unfold matrix_rows, text_lines.
  induction 1 as [| row rows (Hne & Hw & Hall) _ IH]; intros fuel rest values Hv.
  - cbn [fmap list_fmap concat length Nat.mul Nat.add app]. rewrite app_nil_r.
    reflexivity.
  - rewrite fmap_cons. cbn [concat]. rewrite <- !app_assoc.
    assert (Hlen : (1 <= length row)%nat) by (destruct row; [congruence | simpl; lia]).
    replace (2 * length (row ++ concat rows) + fuel)%nat
      with (2 * length row - 1 + S (2 * length (concat rows) + fuel))%nat
      by (rewrite length_app; lia).
    unfold text_line at 1.
    rewrite (scan_loop_line f row Hne Hall); [| lia | reflexivity].
    cbn [app scan_loop]. change (is_terminator r_newline) with true. cbv iota.
    assert (Hn : Z.of_nat (length (values ++ row)) <> 0).
    { rewrite length_app. lia. }
    destruct (Z.eqb_spec (Z.of_nat (length (values ++ row))) 0); [contradiction |].
    change (0 + 1 =? 2) with false. change (0 + 1 >? Z.of_nat (length [Z.of_nat w])) with false.
    change (0 + 1) with 1. cbv iota.
    rewrite (IH fuel rest (values ++ row)) by (intros [? _]%app_eq_nil; contradiction).
    rewrite <- app_assoc. reflexivity.
Qed.

(** X27.  With rank 2 [ScanRankArray] reads one matrix: lines of equally
    many values, ended by an empty line, come back as the matrix of these
    rows; the empty line is used up, and what follows it is left in the
    scanner for the next call. *)
Theorem ScanRankArray_rank2_reads_a_matrix (f : Format) (w : nat)
    (row : list Value) (rows : list (list Value)) (rest : gostring) :
  matrix_rows f w (row :: rows) ->
  ScanRankArray (text_lines f (row :: rows) ++ r_newline :: rest) 2
  = Done (Ok (VMixedArray [Z.of_nat (S (length rows)); Z.of_nat w]
                          (concat (row :: rows))), rest).
Proof.
  intros Hrows. pose proof Hrows as Hrows0.
  unfold matrix_rows in Hrows. apply List.Forall_cons_iff in Hrows.
  destruct Hrows as [(Hne & Hw & Hall) Hrows].
  assert (Hw1 : (1 <= w)%nat) by (destruct row; [congruence | simpl in Hw; lia]).
  pose proof (length_text_lines f w (row :: rows) Hrows0) as Hlen.
  pose proof (length_concat_rows f w (row :: rows) Hrows0) as Hcount.
  unfold ScanRankArray.
  set (text := text_lines f (row :: rows) ++ r_newline :: rest).
  assert (Hloop : scan_loop (S (length text)) 2 text [] 0 []
                  = ScanBreak (concat (row :: rows)) [Z.of_nat w] rest).
  { subst text. rewrite length_app. simpl length.
    remember (length (text_lines f (row :: rows))) as L eqn:EL.
    cbn [concat] in Hlen |- *. rewrite length_app in Hlen.
    unfold text_lines. rewrite fmap_cons. cbn [concat]. rewrite <- !app_assoc.
    fold (text_lines f rows).
    replace (S (L + S (length rest)))
      with (2 * length row - 1
            + S (2 * length (concat rows)
                 + S (S (L - 2 * (length row + length (concat rows)) + length rest))))%nat
      by lia.
    unfold text_line.
    rewrite (scan_loop_line f row Hne Hall); [| lia | reflexivity].
    cbn [app scan_loop]. change (is_terminator r_newline) with true. cbv iota.
    destruct (Z.eqb_spec (Z.of_nat (length row)) 0) as [? | _]; [lia |].
    change (0 + 1 =? 2) with false. change (0 + 1 >? Z.of_nat (length (@nil Z))) with true.
    change (0 + 1) with 1. cbv iota.
    rewrite Hw.
    rewrite (scan_loop_rows f w rows Hrows _ (r_newline :: rest) row Hne).
    cbn [scan_loop]. change (is_terminator r_newline) with true. cbv iota.
    destruct (Z.eqb_spec (Z.of_nat (length (row ++ concat rows))) 0) as [E | _];
      [rewrite length_app in E; lia |].
    change (1 + 1 =? 2) with true. reflexivity. }
  rewrite Hloop. unfold scan_finish.
  rewrite Hcount.
  destruct (Z.eqb_spec (Z.of_nat (length (row :: rows) * w)) 0) as [E | _];
    [simpl length in E; nia |].
  cbn [Z.ltb Z.compare length].
  change (Z.to_nat (2 - Z.of_nat 1 + 1)) with 2%nat.
  rewrite fill_loop_S. cbn [length].
  change (0 <=? 2 - Z.of_nat 1) with true. cbv iota zeta.
  rewrite bool_decide_eq_false_2 by discriminate.
  change (Prod [Z.of_nat w]) with (Z.of_nat w).
  destruct (Z.eqb_spec (Z.of_nat w) 0) as [? | _]; [lia |]. cbn [negb andb].
  assert (Eq : Z.of_nat (S (length rows) * w) ÷ Z.of_nat w = Z.of_nat (S (length rows))).
  { rewrite Nat2Z.inj_mul. apply Z.quot_mul. lia. }
  rewrite Eq.
  assert (Ep : Prod [Z.of_nat (S (length rows)); Z.of_nat w]
               = Z.of_nat (S (length rows) * w)).
  { rewrite Prod_cons, Prod_singleton. lia. }
  rewrite Ep, Z.eqb_refl. cbn [negb].
  rewrite fill_loop_stop by (simpl length; lia).
  reflexivity.
Qed.

End ScanMatrix.

Lemma ScanRankArray_rank2_reads_a_matrix_witness :
  let f := {| PP := 0; Fmt := ∅ |} in
  @ScanRankArray IntHost
    (@text_lines IntHost f ([VInt 3; VInt 4] :: [[VInt 5; VInt 6]])
     ++ r_newline :: runes "1 2") 2
  = Done (Ok (VMixedArray [Z.of_nat 2; Z.of_nat 2]
                          (concat ([VInt 3; VInt 4] :: [[VInt 5; VInt 6]]))),
          runes "1 2").
Proof.
  intros f.
  apply (@ScanRankArray_rank2_reads_a_matrix IntHost f 2 [VInt 3; VInt 4]
           [[VInt 5; VInt 6]] (runes "1 2")).
  repeat (apply List.Forall_cons;
          [split; [discriminate |]; split; [reflexivity |];
           repeat (apply List.Forall_cons;
                   [apply IntHost_round_trips; unfold GoInt.in_range; split; discriminate |]);
           apply List.Forall_nil |]).
  apply List.Forall_nil.
Defined.

(** ** [jsonArray]: nested brackets *)

Section JsonArray.
Context `{Package}.

Lemma json_text_cons d d' ds strs :
  json_text (d :: d' :: ds) strs
  = runes "["
    ++ Join (json_text (d' :: ds)
               <$> chunks (Z.to_nat d) (Z.to_nat (product (d' :: ds))) strs)
            (runes ",")
    ++ runes "]".
Proof. reflexivity. Qed.

(** The notation reads as many strings as the shape says, and no more. *)
Lemma json_text_take dims : forall strs,
  dims <> [] -> Forall (fun d => 0 <= d) dims ->
  json_text dims (take (Z.to_nat (product dims)) strs) = json_text dims strs.
Proof.
  induction dims as [| d ds IH]; intros strs Hne Hall; [congruence |].
  apply List.Forall_cons_iff in Hall. destruct Hall as [Hd Hds].
  destruct ds as [| d' ds'].
  - cbn [json_text]. unfold product. cbn [fold_right]. rewrite Z.mul_1_r.
    rewrite take_take, Nat.min_id. reflexivity.
  - rewrite !json_text_cons. rewrite (product_cons d (d' :: ds')).
    pose proof (product_nonneg _ Hds) as Hp.
    rewrite Z2Nat.inj_mul by lia. rewrite chunks_take. reflexivity.
Qed.

Lemma vector_mapM ds (p : nat) (Strings : list gostring) :
  ds <> [] -> Forall (fun d => 0 <= d) ds -> Z.of_nat p = product ds ->
  (forall sub : list gostring,
     (p <= length sub)%nat -> vector ds sub = Some (json_text ds sub)) ->
  forall n j,
    ((j + n) * p <= length Strings)%nat ->
    mapM (fun i => sub ← slice_from Strings (i * Prod ds); vector ds sub)
         (Z.of_nat <$> seq j n)
    = Some (json_text ds <$> chunks n p (drop (j * p) Strings)).
Proof.
  intros Hne Hds Hp Hvec. induction n as [| n IH]; intros j Hlen; [reflexivity |].
  cbn [seq fmap list_fmap mapM chunks].
  rewrite Prod_product by exact Hne. rewrite <- Hp.
  rewrite slice_from_in_range by nia. cbn [mbind option_bind].
  replace (Z.to_nat (Z.of_nat j * Z.of_nat p)) with (j * p)%nat by lia.
  rewrite Hvec by (rewrite length_drop; nia).
  change (list_fmap nat Z Z.of_nat (seq (S j) n)) with (Z.of_nat <$> seq (S j) n).
  specialize (IH (S j) ltac:(lia)).
  rewrite Prod_product in IH by exact Hne. rewrite <- Hp in IH.
  rewrite IH. cbn [mbind option_bind mret option_ret].
  rewrite drop_drop. replace (j * p + p)%nat with (S j * p)%nat by lia.
  rewrite <- (json_text_take ds (drop (j * p) Strings) Hne Hds).
  rewrite <- Hp, Nat2Z.id. reflexivity.
Qed.

Lemma vector_json_text dims :
  dims <> [] -> Forall (fun d => 0 <= d) dims ->
  forall Strings : list gostring,
    product dims <= Z.of_nat (length Strings) ->
    vector dims Strings = Some (json_text dims Strings).
Proof.
  induction dims as [| d ds IH]; intros Hne Hall Strings Hlen; [congruence |].
  apply List.Forall_cons_iff in Hall. destruct Hall as [Hd Hds].
  pose proof (product_nonneg ds Hds) as Hp.
  rewrite product_cons in Hlen.
  destruct ds as [| d' ds'].
  - cbn [vector json_text]. unfold slice_to.
    rewrite slice_in_range by (unfold product in Hlen; simpl in Hlen; lia).
    cbn [mbind option_bind]. rewrite Z.sub_0_r, drop_0. reflexivity.
  - set (ds := d' :: ds') in *.
    change (vector (d :: ds) Strings)
      with (if d <? 0 then None
            else
              vec ← mapM (fun i => sub ← slice_from Strings (i * Prod ds); vector ds sub)
                         (upto d);
              Some (runes "[" ++ Join vec (runes ",") ++ runes "]")).
    destruct (Z.ltb_spec d 0) as [? | _]; [lia |].
    unfold upto.
    rewrite (vector_mapM ds (Z.to_nat (product ds)) Strings
               ltac:(discriminate) Hds ltac:(lia)).
    + cbn [mbind option_bind]. rewrite drop_0. subst ds. rewrite json_text_cons.
      reflexivity.
    + intros sub Hsub. apply IH; [discriminate | exact Hds | lia].
    + nia.
Qed.

(** X28.  The JSON mode of [ArrayString] ([PP = -2]) on a well-formed
    array with an axis: a vector is written as [[a,b,c]], and an array of
    more axes as the bracketed, comma-separated list of its parts along the
    first axis, each written in the same way; an axis of length 0 is
    written as [[]]. *)
Theorem jsonArray_nested_brackets (f : Format) (v : Array) :
  PP f = -2 -> Shape v <> [] -> Array_wf v ->
  ArrayString f v = Some (json_text (Shape v) (Value_String f <$> Elems v)).
Proof.
  intros HPP Hne [Hall Hsize]. unfold ArrayString, jsonArray, stringArray.
  rewrite HPP. cbn [Z.eqb Pos.eqb fst snd].
  apply vector_json_text; [exact Hne | exact Hall |].
  rewrite length_fmap. unfold Size in Hsize. lia.
Qed.

End JsonArray.

Lemma jsonArray_nested_brackets_witness :
  @ArrayString IntHost {| PP := -2; Fmt := ∅ |}
    (mkArray [2; 0; 3] [])
  = Some (runes "[[],[]]").
Proof.
  apply (@jsonArray_nested_brackets IntHost {| PP := -2; Fmt := ∅ |}
           (mkArray [2; 0; 3] [])).
  - reflexivity.
  - discriminate.
  - split; [repeat constructor; lia | reflexivity].
Defined.

(** ** [ScanRankArray]: lines of different lengths *)

Section TwoLines.
Context `{Package}.

(** X29.  The test for a rectangular array is made at the end only, on
    the number of values: of two lines with different numbers of values the
    second one is not held against the first.  The text is refused as not
    rectangular exactly when the length of the first line does not divide
    the length of the second; when it does, the values are returned as a
    matrix of rows as long as the first line. *)
Theorem ScanRankArray_two_lines (f : Format) (row1 row2 : list Value) :
  row1 <> [] -> row2 <> [] ->
  Forall (elem_round_trips f) row1 -> Forall (elem_round_trips f) row2 ->
  let w1 := Z.of_nat (length row1) in
  let w2 := Z.of_nat (length row2) in
  ScanRankArray (text_line f row1 ++ r_newline :: text_line f row2) (-1)
  = if w2 mod w1 =? 0
    then Done (Ok (VMixedArray [1 + w2 / w1; w1] (row1 ++ row2)), [])
    else Done (Err (Errorf "parse array: array is not rectangular"), []).
Proof.
  intros Hne1 Hne2 Hall1 Hall2 w1 w2.
  assert (Hw1 : 1 <= w1) by (subst w1; destruct row1; [congruence | simpl length; lia]).
  assert (Hw2 : 1 <= w2) by (subst w2; destruct row2; [congruence | simpl length; lia]).
  pose proof (length_line f row1 Hne1 Hall1) as Hl1.
  pose proof (length_line f row2 Hne2 Hall2) as Hl2.
  fold (text_line f row1) in Hl1. fold (text_line f row2) in Hl2.
  unfold ScanRankArray.
  set (text := text_line f row1 ++ r_newline :: text_line f row2).
  assert (Hloop : scan_loop (S (length text)) (-1) text [] 0 []
                  = ScanBreak (row1 ++ row2) [w1] []).
  { subst text. rewrite length_app. simpl length.
    remember (length (text_line f row1)) as L1 eqn:E1.
    remember (length (text_line f row2)) as L2 eqn:E2.
    replace (S (L1 + S L2))
      with (2 * length row1 - 1
            + S (2 * length row2 - 1
                 + S (L1 - (2 * length row1 - 1) + (L2 - (2 * length row2 - 1)))))%nat
      by lia.
    unfold text_line at 1.
    rewrite (scan_loop_line f row1 Hne1 Hall1); [| lia | reflexivity].
    cbn [app scan_loop]. change (is_terminator r_newline) with true. cbv iota.
    destruct (Z.eqb_spec (Z.of_nat (length row1)) 0) as [? | _]; [lia |].
    change (0 + 1 =? -1) with false.
    change (0 + 1 >? Z.of_nat (length (@nil Z))) with true.
    change (0 + 1) with 1. cbv iota.
    rewrite <- (app_nil_r (text_line f row2)). unfold text_line.
    rewrite (scan_loop_line f row2 Hne2 Hall2); [| lia | exact I].
    reflexivity. }
  rewrite Hloop. unfold scan_finish.
  rewrite length_app, Nat2Z.inj_add. fold w1 w2.
  destruct (Z.eqb_spec (w1 + w2) 0) as [? | _]; [lia |].
  cbn [Z.ltb Z.compare]. change (Prod [w1]) with w1.
  destruct (Z.eqb_spec w1 (w1 + w2)) as [? | _]; [lia |].
  cbn [length].
  change (Z.to_nat (Z.of_nat 1 - Z.of_nat 1 + 1)) with 1%nat.
  rewrite fill_loop_S. cbn [length].
  change (0 <=? Z.of_nat 1 - Z.of_nat 1) with true. cbv iota zeta.
  rewrite bool_decide_eq_false_2 by discriminate.
  change (Prod [w1]) with w1.
  destruct (Z.eqb_spec w1 0) as [? | _]; [lia |]. cbn [negb andb].
  rewrite Z.quot_div_nonneg by lia.
  assert (Ediv : (w1 + w2) / w1 = 1 + w2 / w1).
  { replace (w1 + w2) with (1 * w1 + w2) by lia. rewrite Z.div_add_l by lia. reflexivity. }
  rewrite Ediv.
  rewrite Prod_cons, Prod_singleton.
  pose proof (Z.div_mod w2 w1 ltac:(lia)) as Hdm.
  destruct (Z.eqb_spec (w2 mod w1) 0) as [E0 | N0].
  - destruct (Z.eqb_spec ((1 + w2 / w1) * w1) (w1 + w2)) as [_ | N]; [| nia].
    cbn [negb]. rewrite fill_loop_stop by (simpl length; lia). reflexivity.
  - destruct (Z.eqb_spec ((1 + w2 / w1) * w1) (w1 + w2)) as [E | _]; [nia |].
    reflexivity.
Qed.

End TwoLines.

Lemma ScanRankArray_two_lines_witness :
  let f := {| PP := 0; Fmt := ∅ |} in
  @ScanRankArray IntHost
    (@text_line IntHost f [VInt 1; VInt 2] ++ r_newline
       :: @text_line IntHost f [VInt 3; VInt 4; VInt 5; VInt 6]) (-1)
  = Done (Ok (VMixedArray [3; 2] [VInt 1; VInt 2; VInt 3; VInt 4; VInt 5; VInt 6]), []).
Proof.
  intros f.
  apply (@ScanRankArray_two_lines IntHost f [VInt 1; VInt 2]
           [VInt 3; VInt 4; VInt 5; VInt 6]).
  - discriminate.
  - discriminate.
  - repeat (apply List.Forall_cons;
            [apply IntHost_round_trips; unfold GoInt.in_range; split; discriminate |]).
    apply List.Forall_nil.
  - repeat (apply List.Forall_cons;
            [apply IntHost_round_trips; unfold GoInt.in_range; split; discriminate |]).
    apply List.Forall_nil.
Defined.

(** ** [testCompare] *)

Section TestCompare.

Lemma trim_left_head s :
  trim_left s = [] \/ exists r s', trim_left s = r :: s' /\ IsSpace r = false.
Proof.
  induction s as [| r s IH]; [left; reflexivity |].
  cbn [trim_left]. destruct (IsSpace r) eqn:E; [exact IH |].
  right. exists r, s. split; [reflexivity | exact E].
Qed.

Lemma TrimSpace_last s :
  TrimSpace s = [] \/ exists s' r, TrimSpace s = s' ++ [r] /\ IsSpace r = false.
Proof.
  unfold TrimSpace.
  destruct (trim_left_head (rev (trim_left s))) as [-> | (r & t & -> & Hr)];
    [left; reflexivity | right].
  exists (rev t), r. split; [reflexivity | exact Hr].
Qed.

Lemma Split_newline_nonempty s : Split_newline s <> [].
Proof.
  destruct s as [| r s]; [discriminate |]. cbn [Split_newline].
  destruct (r =? r_newline); [discriminate |].
  destruct (Split_newline s); discriminate.
Qed.

Lemma Split_newline_snoc_newline s :
  Split_newline (s ++ [r_newline]) = Split_newline s ++ [[]].
Proof.
  induction s as [| r s IH]; [reflexivity |].
  cbn [app Split_newline]. rewrite IH.
  destruct (r =? r_newline); [reflexivity |].
  pose proof (Split_newline_nonempty s) as Hne.
  destruct (Split_newline s) as [| line lines]; [congruence | reflexivity].
Qed.

Lemma Split_newline_snoc_other s r :
  r <> r_newline ->
  exists init l,
    Split_newline s = init ++ [l] /\ Split_newline (s ++ [r]) = init ++ [l ++ [r]].
Proof.
  intros Hr. induction s as [| x s (init & l & E1 & E2)].
  - exists [], []. split; [reflexivity |]. cbn [app Split_newline].
    destruct (Z.eqb_spec r r_newline); [contradiction | reflexivity].
  - cbn [app Split_newline]. rewrite E1, E2.
    destruct (x =? r_newline).
    + exists ([] :: init), l. split; reflexivity.
    + destruct init as [| i0 init1].
      * exists [], (x :: l). split; reflexivity.
      * exists ((x :: i0) :: init1), l. split; reflexivity.
Qed.

Lemma Fields_from_snoc r l : forall cur,
  IsSpace r = false -> Fields_from cur (l ++ [r]) <> [].
Proof.
  induction l as [| x l IH]; intros cur Hr.
  - cbn [app Fields_from]. rewrite Hr. cbn [Fields_from].
    destruct cur; discriminate.
  - cbn [app Fields_from]. destruct (IsSpace x); [| apply IH, Hr].
    destruct cur; [apply IH, Hr | discriminate].
Qed.

Lemma combine_snoc {A B} (a : list A) (b : list B) x y :
  length a = length b ->
  combine (a ++ [x]) (b ++ [y]) = combine a b ++ [(x, y)].
Proof.
  revert b. induction a as [| a0 a IH]; intros [| b0 b] Hlen; try discriminate Hlen.
  - reflexivity.
  - cbn [app combine]. rewrite IH by (simpl in Hlen; lia). reflexivity.
Qed.

Lemma forallb_combine_diag {A} (P : A * A -> bool) (l : list A) :
  (forall x, P (x, x) = true) -> forallb P (combine l l) = true.
Proof.
  intros HP. induction l as [| x l IH]; [reflexivity |].
  cbn [combine forallb]. rewrite HP, IH. reflexivity.
Qed.

Lemma compare_fields_refl g : compare_fields g g = true.
Proof.
  unfold compare_fields. rewrite Nat.eqb_refl. cbn [negb].
  apply forallb_combine_diag. intros x. apply bool_decide_eq_true. reflexivity.
Qed.

(** X30.  [testCompare] trims the output and not the expectation: an
    expectation that ends in a newline matches no output at all, not even
    the output it was copied from; a text without white space around it
    matches itself. *)
Theorem testCompare_trims_the_output_only (got exp : gostring)
    (eql : gostring -> gostring -> bool) :
  testCompare got (exp ++ [r_newline]) eql = false /\
  (TrimSpace got = got -> testCompare got got eql = true).
Proof.
  split.
  - unfold testCompare. rewrite Split_newline_snoc_newline.
    destruct (Nat.eqb_spec (length (Split_newline (TrimSpace got)))
                (length (Split_newline exp ++ [[]]))) as [Hlen | _];
      [| reflexivity].
    cbn [negb]. rewrite length_app in Hlen. simpl length in Hlen.
    destruct (TrimSpace_last got) as [E | (s' & r & E & Hr)].
    + rewrite E in Hlen. simpl in Hlen.
      pose proof (Split_newline_nonempty exp) as Hne.
      destruct (Split_newline exp); [congruence | simpl in Hlen; lia].
    + assert (Hnl : r <> r_newline) by (intros ->; discriminate Hr).
      destruct (Split_newline_snoc_other s' r Hnl) as (init & l & _ & E2).
      rewrite E, E2 in Hlen |- *. rewrite length_app in Hlen. simpl length in Hlen.
      rewrite combine_snoc by lia. rewrite forallb_app. cbn [forallb fst snd].
      unfold compare_fields at 2. unfold Fields.
      pose proof (Fields_from_snoc r l [] Hr) as Hf.
      destruct (Fields_from [] (l ++ [r])) as [| fld flds]; [congruence |].
      cbn [Fields_from length Nat.eqb negb]. rewrite andb_false_r. reflexivity.
  - intros E. unfold testCompare. rewrite E, Nat.eqb_refl. cbn [negb].
    apply forallb_combine_diag. intros x. apply compare_fields_refl.
Qed.

End TestCompare.

Lemma testCompare_trims_the_output_only_witness :
  testCompare (runes "1 2") (runes "1 2" ++ [r_newline]) (fun _ _ => true) = false /\
  testCompare (runes "1 2") (runes "1 2") (fun _ _ => true) = true.
Proof.
  destruct (testCompare_trims_the_output_only (runes "1 2") (runes "1 2")
              (fun _ _ => true)) as [H1 H2].
  split; [exact H1 | apply H2; reflexivity].
Defined.
